(** * ccopy: customisable deep copy

    A shallow embedding of [ccopy.go].  The Go code walks a value through the
    [reflect] package; here a [reflect.Value] is a term of the inductive type
    [value], which carries its Go type, and the memory behind pointers, slices
    and maps is an explicit heap threaded through every function.  *)

From Stdlib Require Import ZArith.
From stdpp Require Import base list gmap strings pretty.

Set Warnings "-register-all".

(** ** Kinds, as in the Go package [reflect] *)

Module reflect.

Inductive Kind : Type :=
| Invalid | Bool
| Int | Int8 | Int16 | Int32 | Int64
| Uint | Uint8 | Uint16 | Uint32 | Uint64 | Uintptr
| Float32 | Float64 | Complex64 | Complex128
| Array | Chan | Func | Interface | Map | Ptr | Slice
| String | Struct | UnsafePointer.

(** [Kind.String()], which [%s] prints. *)
Definition KindString (k : Kind) : string :=
  match k with
  | Invalid => "invalid" | Bool => "bool"
  | Int => "int" | Int8 => "int8" | Int16 => "int16"
  | Int32 => "int32" | Int64 => "int64"
  | Uint => "uint" | Uint8 => "uint8" | Uint16 => "uint16"
  | Uint32 => "uint32" | Uint64 => "uint64" | Uintptr => "uintptr"
  | Float32 => "float32" | Float64 => "float64"
  | Complex64 => "complex64" | Complex128 => "complex128"
  | Array => "array" | Chan => "chan" | Func => "func"
  | Interface => "interface" | Map => "map" | Ptr => "ptr"
  | Slice => "slice" | String => "string" | Struct => "struct"
  | UnsafePointer => "unsafe.Pointer"
  end.

End reflect.

(** The kinds whose values are a fixed-size bit pattern.  Strings are kept
    apart because their payload is a text. *)
Inductive basic : Type :=
| BBool
| BInt | BInt8 | BInt16 | BInt32 | BInt64
| BUint | BUint8 | BUint16 | BUint32 | BUint64 | BUintptr
| BFloat32 | BFloat64 | BComplex64 | BComplex128
| BUnsafePointer.

Definition basic_kind (b : basic) : reflect.Kind :=
  match b with
  | BBool => reflect.Bool
  | BInt => reflect.Int | BInt8 => reflect.Int8 | BInt16 => reflect.Int16
  | BInt32 => reflect.Int32 | BInt64 => reflect.Int64
  | BUint => reflect.Uint | BUint8 => reflect.Uint8
  | BUint16 => reflect.Uint16 | BUint32 => reflect.Uint32
  | BUint64 => reflect.Uint64 | BUintptr => reflect.Uintptr
  | BFloat32 => reflect.Float32 | BFloat64 => reflect.Float64
  | BComplex64 => reflect.Complex64 | BComplex128 => reflect.Complex128
  | BUnsafePointer => reflect.UnsafePointer
  end.

(** ** Types *)

(** The name of a type: [PkgPath()] and [Name()]; both empty for an unnamed
    type. *)
Record tname : Type := mkName { tnPkgPath : string; tnName : string }.

Definition anon : tname := mkName "" "".

(** The name of a predeclared type, such as [int]. *)
Definition builtin (name : string) : tname := mkName "" name.

(** [reflect.StructField], as far as the copy looks at it: the field is
    exported iff [sfPkgPath] is empty; [sfTag] holds the key/value pairs of the
    field's struct tag. *)
Record StructField (T : Type) : Type := mkField {
  sfName : string;
  sfPkgPath : string;
  sfTag : list (string * string);
  sfType : T
}.
Arguments mkField {T} _ _ _ _.
Arguments sfName {T} _.
Arguments sfPkgPath {T} _.
Arguments sfTag {T} _.
Arguments sfType {T} _.

(** Channel directions, function signatures and method sets play no part in
    the copy and are left out of the types: an interface type is one
    without methods, which every type implements. *)
Inductive type : Type :=
| TBasic (nm : tname) (b : basic)
| TString (nm : tname)
| TChan (nm : tname) (e : type)
| TFunc (nm : tname)
| TPtr (nm : tname) (e : type)
| TSlice (nm : tname) (e : type)
| TArray (nm : tname) (n : nat) (e : type)
| TMap (nm : tname) (k e : type)
| TInterface (nm : tname)
| TStruct (nm : tname) (fs : list (StructField type)).

Definition type_name (t : type) : tname :=
  match t with
  | TBasic nm _ | TString nm | TChan nm _ | TFunc nm | TPtr nm _
  | TSlice nm _ | TArray nm _ _ | TMap nm _ _ | TInterface nm
  | TStruct nm _ => nm
  end.

Definition PkgPath (t : type) : string := tnPkgPath (type_name t).
Definition Name (t : type) : string := tnName (type_name t).

(** ** Values and memory *)

Abbreviation loc := nat (only parsing).

(** A slice header: the backing array is the heap cell [Data], the slice
    starts at element [Off] of it. *)
Record slicehdr : Type := mkSlice {
  Data : loc;
  Off : nat;
  Len : nat;
  Cap : nat
}.

(** A [reflect.Value].  The bit pattern of a number is kept as it is (the
    copy compares numbers, with zero and as keys of a map, and never
    computes with them); [None] is nil.  A channel or a function is a
    handle on a run-time object. *)
Inductive value : Type :=
| VInvalid
| VBasic (nm : tname) (b : basic) (bits : Z)
| VString (nm : tname) (s : string)
| VChan (nm : tname) (e : type) (ch : option N)
| VFunc (nm : tname) (fn : option N)
| VPtr (nm : tname) (e : type) (p : option loc)
| VSlice (nm : tname) (e : type) (s : option slicehdr)
| VArray (nm : tname) (e : type) (es : list value)
| VMap (nm : tname) (k e : type) (m : option loc)
| VInterface (nm : tname) (d : option value)
| VStruct (nm : tname) (fs : list (StructField type * value)).

(** What a heap cell holds: the target of a pointer, the backing array of a
    slice, or the entries of a map.  A Go map has no order: the list stands for
    the map up to permutation, and a range over the map visits the list in
    its order. *)
Inductive cell : Type :=
| CVal (v : value)
| CArr (es : list value)
| CMap (kvs : list (value * value)).

Abbreviation heap := (list cell) (only parsing).

Definition alloc (h : heap) (c : cell) : loc * heap := (length h, h ++ [c]).

(** [Value.IsValid] *)
Definition IsValid (v : value) : bool :=
  match v with VInvalid => false | _ => true end.

(** [Value.Kind] *)
Definition Kind (v : value) : reflect.Kind :=
  match v with
  | VInvalid => reflect.Invalid
  | VBasic _ b _ => basic_kind b
  | VString _ _ => reflect.String
  | VChan _ _ _ => reflect.Chan
  | VFunc _ _ => reflect.Func
  | VPtr _ _ _ => reflect.Ptr
  | VSlice _ _ _ => reflect.Slice
  | VArray _ _ _ => reflect.Array
  | VMap _ _ _ _ => reflect.Map
  | VInterface _ _ => reflect.Interface
  | VStruct _ _ => reflect.Struct
  end.

(** [Value.Type]; [None] for the invalid Value, where Go panics. *)
Definition Type_ (v : value) : option type :=
  match v with
  | VInvalid => None
  | VBasic nm b _ => Some (TBasic nm b)
  | VString nm _ => Some (TString nm)
  | VChan nm e _ => Some (TChan nm e)
  | VFunc nm _ => Some (TFunc nm)
  | VPtr nm e _ => Some (TPtr nm e)
  | VSlice nm e _ => Some (TSlice nm e)
  | VArray nm e es => Some (TArray nm (length es) e)
  | VMap nm k e _ => Some (TMap nm k e)
  | VInterface nm _ => Some (TInterface nm)
  | VStruct nm fs => Some (TStruct nm (fst <$> fs))
  end.

(** [reflect.Zero] *)
Fixpoint Zero (t : type) : value :=
  match t with
  | TBasic nm b => VBasic nm b 0
  | TString nm => VString nm ""
  | TChan nm e => VChan nm e None
  | TFunc nm => VFunc nm None
  | TPtr nm e => VPtr nm e None
  | TSlice nm e => VSlice nm e None
  | TArray nm n e => VArray nm e (replicate n (Zero e))
  | TMap nm k e => VMap nm k e None
  | TInterface nm => VInterface nm None
  | TStruct nm fs => VStruct nm ((λ f, (f, Zero (sfType f))) <$> fs)
  end.

(** ** Floating-point numbers

    A [float32] or a [float64] is its IEEE 754 bit pattern, of [w] = 32 or
    64 bits: the sign, the exponent, the fraction.  A complex number is the
    pattern of its real part with that of its imaginary part [w] bits above
    it.  The copy does no arithmetic; what it uses, through [IsZero] and the
    keys of maps, is the comparison with zero and [==]. *)

(** The pattern without the sign bit. *)
Definition float_abs (w bits : Z) : Z := (bits mod 2 ^ (w - 1))%Z.

(** The pattern of +Inf: an exponent of ones (8 bits of 32, 11 of 64)
    above a fraction of zeros. *)
Definition float_inf (w : Z) : Z :=
  if (w =? 32)%Z then 0x7F800000%Z else 0x7FF0000000000000%Z.

(** [x == 0]: true of +0 and of -0. *)
Definition float_zero (w bits : Z) : bool := (float_abs w bits =? 0)%Z.

(** A NaN: an exponent of ones above a fraction that is not zero. *)
Definition float_nan (w bits : Z) : bool :=
  (float_inf w <? float_abs w bits)%Z.

(** [x == y]: false when either is a NaN, true of +0 and -0, and otherwise
    the identity of the patterns. *)
Definition float_eqb (w x y : Z) : bool :=
  negb (float_nan w x) && negb (float_nan w y) &&
  ((x mod 2 ^ w =? y mod 2 ^ w)%Z || float_zero w x && float_zero w y).

(** [x == 0] on the numbers and booleans. *)
Definition basic_zero (b : basic) (bits : Z) : bool :=
  match b with
  | BFloat32 => float_zero 32 bits
  | BFloat64 => float_zero 64 bits
  | BComplex64 => float_zero 32 bits && float_zero 32 (Z.shiftr bits 32)
  | BComplex128 => float_zero 64 bits && float_zero 64 (Z.shiftr bits 64)
  | _ => (bits =? 0)%Z
  end.

(** [x == y] on the numbers and booleans of one kind. *)
Definition basic_eqb (b : basic) (x y : Z) : bool :=
  match b with
  | BFloat32 => float_eqb 32 x y
  | BFloat64 => float_eqb 64 x y
  | BComplex64 =>
      float_eqb 32 x y && float_eqb 32 (Z.shiftr x 32) (Z.shiftr y 32)
  | BComplex128 =>
      float_eqb 64 x y && float_eqb 64 (Z.shiftr x 64) (Z.shiftr y 64)
  | _ => (x =? y)%Z
  end.

(** A blank field, [_]. *)
Definition blank (f : StructField type) : bool := String.eqb (sfName f) "_".

(** [Value.IsZero], as of Go 1.22: a number is zero when it is [== 0], so
    a floating-point negative zero is zero, and what the blank fields of a
    struct hold is not looked at.  Go panics on the invalid Value; the
    copy asks only about Values that came without an error, which are
    valid. *)
Fixpoint IsZero (v : value) : bool :=
  match v with
  | VInvalid => false
  | VBasic _ b bits => basic_zero b bits
  | VString _ s => String.eqb s ""
  | VChan _ _ ch => bool_decide (ch = None)
  | VFunc _ fn => bool_decide (fn = None)
  | VPtr _ _ p => bool_decide (p = None)
  | VSlice _ _ s => match s with None => true | Some _ => false end
  | VArray _ _ es => forallb IsZero es
  | VMap _ _ _ m => bool_decide (m = None)
  | VInterface _ d => match d with None => true | Some _ => false end
  | VStruct _ fs => forallb (λ f, blank (f.1) || IsZero (f.2)) fs
  end.

(** A part of [v] that reads as zero without being the zero value bit by
    bit: a zero number with a bit set, which is the negative zero of the
    floating-point numbers, or a blank field that holds something. *)
Fixpoint odd_zero (v : value) : bool :=
  match v with
  | VBasic _ b bits => basic_zero b bits && negb (bits =? 0)%Z
  | VArray _ _ es => existsb odd_zero es
  | VStruct _ fs =>
      existsb (λ f, odd_zero (f.2) || blank (f.1) && negb (IsZero (f.2))) fs
  | _ => false
  end.

(** ** Outcomes

    A Go call returns, or panics.  [OutOfFuel] is the model's bound on the
    recursion depth, and [Undefined] marks what the model leaves undefined:
    states no Go program can be in (a dangling address, a cell of the wrong
    sort), and the panic of an assignment between two types of which one
    has no text in the model (see [assignTo]). *)
Inductive outcome (A : Type) : Type :=
| Return (a : A) (h : heap)
| Panicked (msg : string)
| OutOfFuel
| Undefined.
Arguments Return {A} _ _.
Arguments Panicked {A} _.
Arguments OutOfFuel {A}.
Arguments Undefined {A}.

(** A Go [error]: [None] is nil, [Some msg] an error with that message. *)
Definition error : Type := option string.

(** ** The registry *)

(** What calling a registered function on a field gives:
    [reflect.ValueOf(fn).Call([]reflect.Value{arg})[0]].  The call sees the
    memory and may allocate: [TReturn v new] returns [v] after appending the
    cells [new] to the heap.  Whatever makes the call panic (a registered
    value that is no function, a parameter the argument cannot be assigned
    to, no result, a panic of the function itself) is [TPanic].  A function
    that overwrites existing memory is outside the model. *)
Inductive called : Type :=
| TReturn (v : value) (new : list cell)
| TPanic (msg : string).

Definition transformer : Type := value → heap → called.

(** [Config] is [map[string]interface{}]: an entry is nil ([None]) or
    something to call. *)
Abbreviation Config := (gmap string (option transformer)).

(** [c[tag]] together with the test [fn == nil]: a missing key reads as
    nil. *)
Definition lookup_fn (c : Config) (tag : string) : option transformer :=
  match c !! tag with
  | Some fn => fn
  | None => None
  end.

Definition tagCcopy : string := "ccopy".

(** [StructTag.Get] *)
Fixpoint Tag_Get (tag : list (string * string)) (key : string) : string :=
  match tag with
  | [] => ""
  | (k, v) :: rest => if String.eqb k key then v else Tag_Get rest key
  end.

(** [Value.CanInterface] of a field of a struct that is itself readable:
    false for an unexported field. *)
Definition CanInterface (f : StructField type) : bool :=
  String.eqb (sfPkgPath f) "".

(** ** Equality *)

Global Instance tname_eq_dec : EqDecision tname.
Proof. solve_decision. Defined.
Global Instance basic_eq_dec : EqDecision basic.
Proof. solve_decision. Defined.
Global Instance slicehdr_eq_dec : EqDecision slicehdr.
Proof. solve_decision. Defined.

(** Identity of types. *)
Fixpoint type_eqb (t u : type) : bool :=
  match t, u with
  | TBasic n b, TBasic n' b' => bool_decide (n = n') && bool_decide (b = b')
  | TString n, TString n' => bool_decide (n = n')
  | TChan n e, TChan n' e' => bool_decide (n = n') && type_eqb e e'
  | TFunc n, TFunc n' => bool_decide (n = n')
  | TPtr n e, TPtr n' e' => bool_decide (n = n') && type_eqb e e'
  | TSlice n e, TSlice n' e' => bool_decide (n = n') && type_eqb e e'
  | TArray n k e, TArray n' k' e' =>
      bool_decide (n = n') && bool_decide (k = k') && type_eqb e e'
  | TMap n k e, TMap n' k' e' =>
      bool_decide (n = n') && type_eqb k k' && type_eqb e e'
  | TInterface n, TInterface n' => bool_decide (n = n')
  | TStruct n fs, TStruct n' gs =>
      bool_decide (n = n') &&
      (fix fields (fs gs : list (StructField type)) : bool :=
         match fs, gs with
         | [], [] => true
         | f :: fs, g :: gs =>
             bool_decide (sfName f = sfName g) &&
             bool_decide (sfPkgPath f = sfPkgPath g) &&
             bool_decide (sfTag f = sfTag g) &&
             type_eqb (sfType f) (sfType g) && fields fs gs
         | _, _ => false
         end) fs gs
  | _, _ => false
  end.

(** Whether a Value has the type [t]. *)
Definition has_type (v : value) (t : type) : bool :=
  match Type_ v with
  | Some u => type_eqb u t
  | None => false
  end.

(** ** Assignability *)

(** [Type.hasName]: a defined type, or a predeclared one. *)
Definition hasName (t : type) : bool := negb (String.eqb (Name t) "").

(** The type [t] under another name. *)
Definition set_name (nm : tname) (t : type) : type :=
  match t with
  | TBasic _ b => TBasic nm b
  | TString _ => TString nm
  | TChan _ e => TChan nm e
  | TFunc _ => TFunc nm
  | TPtr _ e => TPtr nm e
  | TSlice _ e => TSlice nm e
  | TArray _ n e => TArray nm n e
  | TMap _ k e => TMap nm k e
  | TInterface _ => TInterface nm
  | TStruct _ fs => TStruct nm fs
  end.

(** [haveIdenticalUnderlyingType(T, V, true)]: the same kind, and the same
    element types, length and fields. *)
Definition same_underlying (t u : type) : bool :=
  type_eqb (set_name anon t) (set_name anon u).

(** [directlyAssignable(T, V)]: the types are identical, or one of them
    has no name and their underlying types are identical. *)
Definition directlyAssignable (T V : type) : bool :=
  type_eqb T V || negb (hasName T && hasName V) && same_underlying T V.

(** The value [v] as a value of the type of the same underlying type that
    is called [nm]. *)
Definition retype (nm : tname) (v : value) : value :=
  match v with
  | VInvalid => VInvalid
  | VBasic _ b bits => VBasic nm b bits
  | VString _ s => VString nm s
  | VChan _ e ch => VChan nm e ch
  | VFunc _ fn => VFunc nm fn
  | VPtr _ e p => VPtr nm e p
  | VSlice _ e s => VSlice nm e s
  | VArray _ e es => VArray nm e es
  | VMap _ k e m => VMap nm k e m
  | VInterface _ d => VInterface nm d
  | VStruct _ fs => VStruct nm fs
  end.

(** What [Value.assignTo] makes of [v] for a destination of type [dst]: [v]
    as a value of that type when it is directly assignable; an interface
    value that holds [v] (what [v] holds, when [v] is an interface value
    itself) when [dst] is an interface type, the interfaces of the model
    having no methods to implement; [None] when [v] is not assignable. *)
Definition assign (dst : type) (v : value) : option value :=
  match Type_ v with
  | None => None
  | Some V =>
      if directlyAssignable dst V then Some (retype (type_name dst) v)
      else
        match dst with
        | TInterface nm =>
            Some (VInterface nm
                    (match v with VInterface _ d => d | _ => Some v end))
        | _ => None
        end
  end.

(** The last element of an import path, taken to be the name of the
    package. *)
Fixpoint after_slash (s rest : string) : string :=
  match s with
  | EmptyString => rest
  | String c s' =>
      if String.eqb (String c EmptyString) "/" then after_slash s' s'
      else after_slash s' rest
  end.

Definition qualified (nm : tname) : string :=
  if String.eqb (tnPkgPath nm) "" then tnName nm
  else after_slash (tnPkgPath nm) (tnPkgPath nm) +:+ "." +:+ tnName nm.

(** [Type.String()] of a type that has a name, of the interface type
    without a name, which in the model has no methods, and of the pointer,
    slice, array and map types over such types.  The text of the other
    unnamed types shows what the model leaves out (a signature, a
    direction) or keeps in another form (the tags of a struct type). *)
Fixpoint type_String (t : type) : option string :=
  if hasName t then Some (qualified (type_name t))
  else
    match t with
    | TPtr _ e => s ← type_String e; Some ("*" +:+ s)
    | TSlice _ e => s ← type_String e; Some ("[]" +:+ s)
    | TArray _ n e => s ← type_String e; Some ("[" +:+ pretty n +:+ "]" +:+ s)
    | TMap _ k e =>
        sk ← type_String k; s ← type_String e;
        Some ("map[" +:+ sk +:+ "]" +:+ s)
    | TInterface _ => Some "interface {}"
    | _ => None
    end.

(** A value whose array elements and struct fields have the types the array
    or struct type gives them, as every Go value does. *)
Fixpoint wt (v : value) : bool :=
  match v with
  | VInvalid => false
  | VArray _ e es => forallb (λ x, has_type x e && wt x) es
  | VInterface _ (Some x) => wt x
  | VStruct _ fs => forallb (λ f, has_type (f.2) (sfType (f.1)) && wt (f.2)) fs
  | _ => true
  end.

(** Go's [==] on two values of one type, as the keys of a map are: a NaN is
    equal to nothing, the two floating-point zeros are equal, and the
    blank fields of a struct are not compared.  Slices, maps and functions
    cannot be compared (inside an interface Go panics on them); they read
    as unequal. *)
Fixpoint go_eqb (x y : value) : bool :=
  match x, y with
  | VBasic _ b a, VBasic _ b' a' => bool_decide (b = b') && basic_eqb b a a'
  | VString _ s, VString _ s' => String.eqb s s'
  | VChan _ _ a, VChan _ _ b => bool_decide (a = b)
  | VPtr _ _ p, VPtr _ _ q => bool_decide (p = q)
  | VInterface _ d, VInterface _ d' =>
      match d, d' with
      | None, None => true
      | Some a, Some b =>
          match Type_ a with
          | Some t => has_type b t && go_eqb a b
          | None => false
          end
      | _, _ => false
      end
  | VArray _ _ es, VArray _ _ es' =>
      (fix elems (es es' : list value) : bool :=
         match es, es' with
         | [], [] => true
         | e :: es, e' :: es' => go_eqb e e' && elems es es'
         | _, _ => false
         end) es es'
  | VStruct _ fs, VStruct _ fs' =>
      (fix fields (fs fs' : list (StructField type * value)) : bool :=
         match fs, fs' with
         | [], [] => true
         | f :: fs, f' :: fs' =>
             (blank (f.1) || go_eqb (f.2) (f'.2)) && fields fs fs'
         | _, _ => false
         end) fs fs'
  | _, _ => false
  end.

(** ** Calls as state transformers *)

Definition M (A : Type) : Type := heap → outcome A.

Definition ret {A} (a : A) : M A := λ h, Return a h.

Definition bind {A B} (m : M A) (k : A → M B) : M B :=
  λ h, match m h with
       | Return a h' => k a h'
       | Panicked msg => Panicked msg
       | OutOfFuel => OutOfFuel
       | Undefined => Undefined
       end.

Notation "x <- m ;; k" := (bind m (λ x, k))
  (at level 100, m at next level, right associativity).

Definition panic {A} (msg : string) : M A := λ _, Panicked msg.
Definition undefined {A} : M A := λ _, Undefined.
Definition out_of_fuel {A} : M A := λ _, OutOfFuel.

(** Allocation takes the next free address. *)
Definition new (c : cell) : M loc := λ h, Return (length h) (h ++ [c]).

Definition load (a : loc) : M cell :=
  λ h, match h !! a with
       | Some c => Return c h
       | None => Undefined
       end.

Definition store (a : loc) (c : cell) : M unit :=
  λ h, if decide (a < length h) then Return () (<[a := c]> h) else Undefined.

(** ** The reflect operations the copy uses *)

(** [reflect.ValueOf]: the Value of what an [interface{}] holds. *)
Definition ValueOf (obj : option value) : value :=
  match obj with
  | Some v => v
  | None => VInvalid
  end.

(** [Value.Interface] *)
Definition Interface (v : value) : M (option value) :=
  match v with
  | VInvalid => panic "reflect: call of reflect.Value.Interface on zero Value"
  | VInterface _ d => ret d
  | _ => ret (Some v)
  end.

(** [Value.Call] with one argument, and the first result. *)
Definition Call (fn : transformer) (arg : value) : M value :=
  λ h, match fn arg h with
       | TReturn v new => Return v (h ++ new)
       | TPanic msg => Panicked msg
       end.

(** [Value.assignTo], which [Set] and [SetMapIndex] put their argument
    through; [context] is "reflect.Set" or
    "reflect.Value.SetMapIndex". *)
Definition assignTo (context : string) (dst : type) (v : value) : M value :=
  match assign dst v with
  | Some w => ret w
  | None =>
      match Type_ v ≫= type_String, type_String dst with
      | Some sv, Some sd =>
          panic (context +:+ ": value of type " +:+ sv
                   +:+ " is not assignable to type " +:+ sd)
      | _, _ => undefined
      end
  end.

(** [oc.Field(i).Set(v)] on a local struct [oc], for a [v] that went
    through [assignTo]. *)
Definition Field_Set (oc : value) (i : nat) (v : value) : value :=
  match oc with
  | VStruct nm fs => VStruct nm (alter (λ f, (f.1, v)) i fs)
  | _ => oc
  end.

(** [reflect.MakeSlice(t, 0, n)]: a fresh backing array of [n] zero
    elements, of which the slice shows none. *)
Definition MakeSlice (e : type) (n : nat) : M slicehdr :=
  a <- new (CArr (replicate n (Zero e))) ;;
  ret (mkSlice a 0 0 n).

(** [ov.Index(i)] on a slice. *)
Definition Index (s : slicehdr) (i : nat) : M value :=
  cl <- load (Data s) ;;
  match cl with
  | CArr es =>
      match es !! (Off s + i) with
      | Some x => ret x
      | None => undefined
      end
  | _ => undefined
  end.

(** [reflect.Append(s, x)], which [Set]s the new element to [x].  Within
    the capacity the element is written into the backing array in place;
    beyond it a larger array is allocated (Go promises one that is large
    enough; the model doubles). *)
Definition Append (e : type) (s : slicehdr) (x : value) : M slicehdr :=
  cl <- load (Data s) ;;
  match cl with
  | CArr es =>
      w <- assignTo "reflect.Set" e x ;;
      if decide (Len s < Cap s) then
        _ <- store (Data s) (CArr (<[Off s + Len s := w]> es)) ;;
        ret (mkSlice (Data s) (Off s) (S (Len s)) (Cap s))
      else
        let newcap := max (S (Len s)) (2 * Cap s) in
        a <- new (CArr (take (Len s) (drop (Off s) es) ++ w ::
                         replicate (newcap - S (Len s)) (Zero e))) ;;
        ret (mkSlice a 0 (S (Len s)) newcap)
  | _ => undefined
  end.

(** The entries of a map after [m[k] = v]: the value of the entry whose
    key is [==] to [k] is replaced, and there is a new entry when there is
    no such key, as is the case of a NaN. *)
Fixpoint map_set (kvs : list (value * value)) (k v : value)
  : list (value * value) :=
  match kvs with
  | [] => [(k, v)]
  | (k0, v0) :: rest =>
      if go_eqb k0 k then (k0, v) :: rest else (k0, v0) :: map_set rest k v
  end.

(** [oc.SetMapIndex(k, v)] on a map of the key type [kt] and the element
    type [et]. *)
Definition SetMapIndex (kt et : type) (a : loc) (k v : value) : M unit :=
  k' <- assignTo "reflect.Value.SetMapIndex" kt k ;;
  v' <- assignTo "reflect.Value.SetMapIndex" et v ;;
  cl <- load a ;;
  match cl with
  | CMap kvs => store a (CMap (map_set kvs k' v'))
  | _ => undefined
  end.

(** The test of [copy] for the type [time.Time]. *)
Definition is_time (v : value) : bool :=
  match Type_ v with
  | Some t => String.eqb (PkgPath t) "time" && String.eqb (Name t) "Time"
  | None => false
  end.

(** ** The copy *)

Section strategies.

(** The registry, and [c.copy] for the values one level down. *)
Context (c : Config) (copy : value → M (value * error)).

Definition copyTime (ov : value) : M (value * error) := ret (ov, None).

(** The loop of [copyStruct] from field [i] on, [fs] being the fields of
    [ov] still to visit and [oc] the copy so far. *)
Fixpoint copyStruct_loop (ot : type) (fs : list (StructField type * value))
    (i : nat) (oc : value) : M (value * error) :=
  match fs with
  | [] => ret (oc, None)
  | (f, fv) :: rest =>
      if negb (CanInterface f) then copyStruct_loop ot rest (S i) oc
      else
        let tag := Tag_Get (sfTag f) tagCcopy in
        if String.eqb tag "" then
          r <- copy fv ;;
          match r with
          | (_, Some err) => ret (Zero ot, Some err)
          | (v, None) =>
              if negb (IsZero v) then
                w <- assignTo "reflect.Set" (sfType f) v ;;
                copyStruct_loop ot rest (S i) (Field_Set oc i w)
              else copyStruct_loop ot rest (S i) oc
          end
        else
          match lookup_fn c tag with
          | None =>
              ret (Zero ot, Some ("missing copy customiser for: " +:+ tag))
          | Some fn =>
              v <- Call fn fv ;;
              if negb (IsZero v) then
                w <- assignTo "reflect.Set" (sfType f) v ;;
                copyStruct_loop ot rest (S i) (Field_Set oc i w)
              else copyStruct_loop ot rest (S i) oc
          end
  end.

(** [oc] is a local variable of the struct type, which nothing else refers
    to: it is kept as a value. *)
Definition copyStruct (ov : value) : M (value * error) :=
  match ov with
  | VStruct nm fs =>
      let ot := TStruct nm (fs.*1) in
      copyStruct_loop ot fs 0 (Zero ot)
  | _ => undefined
  end.

(** [oc] is [reflect.New(ov.Type().Elem())]: a pointer of the unnamed
    pointer type [*Elem], whatever the name of the type of [ov]. *)
Definition copyPointer (ov : value) : M (value * error) :=
  match ov with
  | VPtr nm e None => ret (ov, None)
  | VPtr nm e (Some a) =>
      oc <- new (CVal (Zero e)) ;;
      cl <- load a ;;
      match cl with
      | CVal x =>
          r <- copy x ;;
          match r with
          | (_, Some err) => ret (Zero (TPtr nm e), Some err)
          | (v, None) =>
              if negb (IsZero v) then
                w <- assignTo "reflect.Set" e v ;;
                _ <- store oc (CVal w) ;;
                ret (VPtr anon e (Some oc), None)
              else ret (VPtr anon e (Some oc), None)
          end
      | _ => undefined
      end
  | _ => undefined
  end.

(** [oc], a local variable of the interface type, is kept as a value
    too. *)
Definition copyInterface (ov : value) : M (value * error) :=
  match ov with
  | VInterface nm None => ret (ov, None)
  | VInterface nm (Some x) =>
      r <- copy x ;;
      match r with
      | (_, Some err) => ret (Zero (TInterface nm), Some err)
      | (v, None) =>
          oc <- assignTo "reflect.Set" (TInterface nm) v ;;
          ret (oc, None)
      end
  | _ => undefined
  end.

(** The loop of [copySlice] at index [i], with [todo = ov.Len() - i]. *)
Fixpoint copySlice_loop (nm : tname) (e : type) (s : slicehdr)
    (i todo : nat) (oc : slicehdr) : M (value * error) :=
  match todo with
  | 0 => ret (VSlice nm e (Some oc), None)
  | S todo =>
      x <- Index s i ;;
      r <- copy x ;;
      match r with
      | (_, Some err) => ret (Zero (TSlice nm e), Some err)
      | (v, None) =>
          oc' <- Append e oc v ;;
          copySlice_loop nm e s (S i) todo oc'
      end
  end.

Definition copySlice (ov : value) : M (value * error) :=
  match ov with
  | VSlice nm e None => ret (ov, None)
  | VSlice nm e (Some s) =>
      oc <- MakeSlice e (Len s) ;;
      copySlice_loop nm e s 0 (Len s) oc
  | _ => undefined
  end.

(** The loop of [copyArray] over the elements [es] still to visit.  [oc]
    is the storage at address [a], which [slice] aliases; the function
    returns what that storage holds at the end. *)
Fixpoint copyArray_loop (ot : type) (nm : tname) (e : type) (a : loc)
    (es : list value) (slice : slicehdr) : M (value * error) :=
  match es with
  | [] =>
      cl <- load a ;;
      match cl with
      | CArr es' => ret (VArray nm e es', None)
      | _ => undefined
      end
  | x :: es =>
      r <- copy x ;;
      match r with
      | (_, Some err) => ret (Zero ot, Some err)
      | (v, None) =>
          slice' <- Append e slice v ;;
          copyArray_loop ot nm e a es slice'
      end
  end.

Definition copyArray (ov : value) : M (value * error) :=
  match ov with
  | VArray nm e es =>
      let n := length es in
      a <- new (CArr (replicate n (Zero e))) ;;
      copyArray_loop (TArray nm n e) nm e a es (mkSlice a 0 0 n)
  | _ => undefined
  end.

(** The loop of [copyMap] over the entries still to visit. *)
Fixpoint copyMap_loop (nm : tname) (kt et : type) (oc : loc)
    (kvs : list (value * value)) : M (value * error) :=
  match kvs with
  | [] => ret (VMap nm kt et (Some oc), None)
  | (key, val) :: rest =>
      r <- copy key ;;
      match r with
      | (_, Some err) => ret (Zero (TMap nm kt et), Some err)
      | (k, None) =>
          r <- copy val ;;
          match r with
          | (_, Some err) => ret (Zero (TMap nm kt et), Some err)
          | (v, None) =>
              _ <- SetMapIndex kt et oc k v ;;
              copyMap_loop nm kt et oc rest
          end
      end
  end.

Definition copyMap (ov : value) : M (value * error) :=
  match ov with
  | VMap nm kt et None => ret (ov, None)
  | VMap nm kt et (Some a) =>
      oc <- new (CMap []) ;;
      cl <- load a ;;
      match cl with
      | CMap kvs => copyMap_loop nm kt et oc kvs
      | _ => undefined
      end
  | _ => undefined
  end.

End strategies.

(** [c.copy(ov)]; [fuel] bounds the depth of the recursion. *)
Fixpoint copy (fuel : nat) (c : Config) (ov : value) : M (value * error) :=
  match fuel with
  | 0 => out_of_fuel
  | S fuel =>
      if negb (IsValid ov) then ret (VInvalid, Some "invalid value")
      else if is_time ov then copyTime ov
      else
        match Kind ov with
        | reflect.Struct => copyStruct c (copy fuel c) ov
        | reflect.Ptr => copyPointer (copy fuel c) ov
        | reflect.Slice => copySlice (copy fuel c) ov
        | reflect.Map => copyMap (copy fuel c) ov
        | reflect.Interface => copyInterface (copy fuel c) ov
        | reflect.Array => copyArray (copy fuel c) ov
        | reflect.Int | reflect.String | reflect.Int64 | reflect.Float64
        | reflect.Bool | reflect.Uint | reflect.Uint64
        | reflect.Func | reflect.Chan | reflect.Float32
        | reflect.Int8 | reflect.Int16 | reflect.Int32
        | reflect.Complex64 | reflect.Complex128
        | reflect.Uint8 | reflect.Uint16 | reflect.Uint32 => ret (ov, None)
        | _ => panic ("unsupported type: " +:+ reflect.KindString (Kind ov))
        end
  end.

(** [c.Copy(obj)] *)
Definition Copy (fuel : nat) (c : Config) (obj : option value)
  : M (option value * error) :=
  let ov := ValueOf obj in
  r <- copy fuel c ov ;;
  match r with
  | (_, Some err) => ret (None, Some err)
  | (oc, None) => i <- Interface oc ;; ret (i, None)
  end.

(** ** Notions the properties are stated with *)

(** [v.Field(i)] *)
Definition Field (v : value) (i : nat) : option value :=
  match v with
  | VStruct _ fs => snd <$> fs !! i
  | _ => None
  end.

(** The declaration of field [i]. *)
Definition FieldDecl (v : value) (i : nat) : option (StructField type) :=
  match v with
  | VStruct _ fs => fst <$> fs !! i
  | _ => None
  end.

(** A nil pointer, slice, map or interface value. *)
Definition is_nil (v : value) : bool :=
  match v with
  | VPtr _ _ None | VSlice _ _ None | VMap _ _ _ None | VInterface _ None =>
      true
  | _ => false
  end.

(** The kinds that hold a raw memory address. *)
Definition raw_address (b : basic) : bool :=
  match b with
  | BUintptr | BUnsafePointer => true
  | _ => false
  end.

(** A number, boolean, string, function, channel, or a [time.Time]. *)
Definition scalar_like (v : value) : bool :=
  match v with
  | VInvalid => false
  | VBasic _ b _ => is_time v || negb (raw_address b)
  | VString _ _ | VFunc _ _ | VChan _ _ _ => true
  | _ => is_time v
  end.

(** What the loop of [copyStruct] leaves in the field declared [f], which
    holds [fv] in the original and held [old] in the copy before: nothing
    new in an unexported field; in an untagged field what [copy] returned
    for [fv]; in a tagged field what the registered function returned for
    [fv], both in some memory [h1]; and nothing new when what was returned
    is zero. *)
Definition field_outcome (c : Config) (copy : value → M (value * error))
    (f : StructField type) (fv old new : value) : Prop :=
  if CanInterface f then
    if String.eqb (Tag_Get (sfTag f) tagCcopy) "" then
      ∃ h1 h2 v, copy fv h1 = Return (v, None) h2 ∧
                 if IsZero v then new = old
                 else assign (sfType f) v = Some new
    else
      ∃ fn h1 v cells,
        lookup_fn c (Tag_Get (sfTag f) tagCcopy) = Some fn ∧
        fn fv h1 = TReturn v cells ∧
        if IsZero v then new = old else assign (sfType f) v = Some new
  else new = old.

(** ** Example values *)

Module Ex.

Definition int : type := TBasic (builtin "int") BInt.
Definition int64 : type := TBasic (builtin "int64") BInt64.
Definition uint64 : type := TBasic (builtin "uint64") BUint64.
Definition uintptr : type := TBasic (builtin "uintptr") BUintptr.
Definition str : type := TString (builtin "string").
Definition Int (z : Z) : value := VBasic (builtin "int") BInt z.
Definition Str (s : string) : value := VString (builtin "string") s.

(** A field declaration; [pkg] is empty for an exported field, [tag] is
    the list of the names of its [ccopy] tag (none or one). *)
Definition field (name pkg : string) (tag : list string) (t : type)
  : StructField type :=
  mkField name pkg ((λ v, (tagCcopy, v)) <$> tag) t.

(** [func(name string) string { return "john doe" }] *)
Definition anonymiseName : transformer :=
  λ _ _, TReturn (Str "john doe") [].

Definition registry : Config := {[ "anonymiseName" := Some anonymiseName ]}.

(** [struct { A int; Name string `ccopy:"anonymiseName"` }] of the
    package's example, holding [{A: 2, Name: "Secret name"}]. *)
Definition T_example : value :=
  VStruct (mkName "ccopy" "T")
    [(field "A" "" [] int, Int 2);
     (field "Name" "" ["anonymiseName"] str, Str "Secret name")].

(** The same with the tagged field unexported:
    [struct { A int; name string `ccopy:"anonymiseName"` }]. *)
Definition T_unexported : value :=
  VStruct (mkName "ccopy" "T")
    [(field "A" "" [] int, Int 2);
     (field "name" "ccopy" ["anonymiseName"] str, Str "Secret name")].

(** [struct { A int `ccopy:"A"`; B int `ccopy:"B"` }], neither tag
    registered. *)
Definition T_two_tags : value :=
  VStruct (mkName "ccopy" "T")
    [(field "A" "" ["A"] int, Int 1); (field "B" "" ["B"] int, Int 2)].

(** [struct { a int; B int `ccopy:"B"` }] holding [{a: 5, B: 2}]. *)
Definition T_hidden : value :=
  VStruct (mkName "ccopy" "T")
    [(field "a" "ccopy" [] int, Int 5); (field "B" "" ["B"] int, Int 2)].

(** A [time.Time]: [struct { wall uint64; ext int64; loc *Location }]. *)
Definition now : value :=
  VStruct (mkName "time" "Time")
    [(field "wall" "time" [] uint64, VBasic (builtin "uint64") BUint64 13);
     (field "ext" "time" [] int64, VBasic (builtin "int64") BInt64 42);
     (field "loc" "time" []
        (TPtr anon (TStruct (mkName "time" "Location") [])),
      VPtr anon (TStruct (mkName "time" "Location") []) None)].

End Ex.

Module Ex10.

Definition float64 : type := TBasic (builtin "float64") BFloat64.

(** [math.Copysign(0, -1)], the negative zero: the sign bit and nothing
    else. *)
Definition minus_zero : value := VBasic (builtin "float64") BFloat64 (2 ^ 63).

(** [math.NaN()] *)
Definition NaN : value :=
  VBasic (builtin "float64") BFloat64 0x7FF8000000000001.

(** [struct { F float64 }] holding [x]. *)
Definition S (x : value) : value :=
  VStruct (mkName "ccopy" "S") [(Ex.field "F" "" [] float64, x)].

(** [type P *int; x := 1; p := P(&x)], in a memory that holds [x] and
    nothing else. *)
Definition mem : heap := [CVal (Ex.Int 1)].

Definition p : value := VPtr (mkName "ccopy" "P") Ex.int (Some 0).

End Ex10.

(** The fields of two structs of one type that hold the same in every
    exported field. *)
Definition same_exported (fs fs' : list (StructField type * value)) : Prop :=
  Forall2 (λ x y, x.1 = y.1 ∧ (CanInterface (x.1) = true → x.2 = y.2)) fs fs'.

(** [calls c n v h m u h']: the call [c.copy(v)], made in memory [h] with
    [n] levels of recursion to go, gets to call [c.copy(u)], in memory [h']
    with [m] levels to go: [u] is [v] itself or lies under it, and whatever
    the copy visits before [u] has been copied without an error. *)
Inductive calls (c : Config) :
  nat → value → heap → nat → value → heap → Prop :=
| calls_here n v h :
    calls c n v h n v h
| calls_pointer n nm e a x h m u h' :
    is_time (VPtr nm e (Some a)) = false →
    h !! a = Some (CVal x) →
    calls c n x (h ++ [CVal (Zero e)]) m u h' →
    calls c (S n) (VPtr nm e (Some a)) h m u h'
| calls_interface n nm x h m u h' :
    is_time (VInterface nm (Some x)) = false →
    calls c n x h m u h' →
    calls c (S n) (VInterface nm (Some x)) h m u h'
| calls_field n nm pre f fv rest h oc h1 m u h' :
    is_time (VStruct nm (pre ++ (f, fv) :: rest)) = false →
    CanInterface f = true →
    Tag_Get (sfTag f) tagCcopy = "" →
    copyStruct_loop c (copy n c)
      (TStruct nm ((pre ++ (f, fv) :: rest).*1)) pre 0
      (Zero (TStruct nm ((pre ++ (f, fv) :: rest).*1))) h
      = Return (oc, None) h1 →
    calls c n fv h1 m u h' →
    calls c (S n) (VStruct nm (pre ++ (f, fv) :: rest)) h m u h'
| calls_slice_elem n nm e s i h oc h1 x m u h' :
    is_time (VSlice nm e (Some s)) = false →
    i < Len s →
    copySlice_loop (copy n c) nm e s 0 i (mkSlice (length h) 0 0 (Len s))
      (h ++ [CArr (replicate (Len s) (Zero e))])
      = Return (VSlice nm e (Some oc), None) h1 →
    Index s i h1 = Return x h1 →
    calls c n x h1 m u h' →
    calls c (S n) (VSlice nm e (Some s)) h m u h'
| calls_array_elem n nm e pre x rest h r h1 m u h' :
    is_time (VArray nm e (pre ++ x :: rest)) = false →
    copyArray_loop (copy n c)
      (TArray nm (length (pre ++ x :: rest)) e) nm e (length h) pre
      (mkSlice (length h) 0 0 (length (pre ++ x :: rest)))
      (h ++ [CArr (replicate (length (pre ++ x :: rest)) (Zero e))])
      = Return (r, None) h1 →
    calls c n x h1 m u h' →
    calls c (S n) (VArray nm e (pre ++ x :: rest)) h m u h'
| calls_map_key n nm kt et a pre key val rest h r h1 m u h' :
    is_time (VMap nm kt et (Some a)) = false →
    h !! a = Some (CMap (pre ++ (key, val) :: rest)) →
    copyMap_loop (copy n c) nm kt et (length h) pre (h ++ [CMap []])
      = Return (r, None) h1 →
    calls c n key h1 m u h' →
    calls c (S n) (VMap nm kt et (Some a)) h m u h'
| calls_map_value n nm kt et a pre key val rest h r h1 k h2 m u h' :
    is_time (VMap nm kt et (Some a)) = false →
    h !! a = Some (CMap (pre ++ (key, val) :: rest)) →
    copyMap_loop (copy n c) nm kt et (length h) pre (h ++ [CMap []])
      = Return (r, None) h1 →
    copy n c key h1 = Return (k, None) h2 →
    calls c n val h2 m u h' →
    calls c (S n) (VMap nm kt et (Some a)) h m u h'.

Module Ex2.

(** [struct { A int; P uintptr }] holding [{A: 1, P: 4096}], and a pointer
    to it in a memory that holds nothing else. *)
Definition S_raw : value :=
  VStruct (mkName "ccopy" "S")
    [(Ex.field "A" "" [] Ex.int, Ex.Int 1);
     (Ex.field "P" "" [] Ex.uintptr, VBasic (builtin "uintptr") BUintptr 4096)].

Definition mem : heap := [CVal S_raw].

Definition ptr : value :=
  VPtr anon (TStruct (mkName "ccopy" "S")
               [Ex.field "A" "" [] Ex.int;
                Ex.field "P" "" [] Ex.uintptr]) (Some 0).

End Ex2.

(** A call that leaves the memory it found as it was, and only adds to it. *)
Definition framed {A B : Type} (f : A → M B) : Prop :=
  ∀ a h b h', f a h = Return b h' → h `prefix_of` h'.

(** [filled rec e a i h xs ws h']: from the memory [h] on, [rec] copies the
    elements [xs] one after the other, without an error, each in the memory
    that the copy of the one before and the writing of its result left; the
    result of each, as a value of the type [e], is written to the array of
    the cell [a], at the places from [i] on.  [ws] are the values written,
    in the order of [xs], and [h'] is the memory at the end. *)
Inductive filled (rec : value → M (value * error)) (e : type) (a : loc)
  : nat → heap → list value → list value → heap → Prop :=
| filled_nil i h : filled rec e a i h [] [] h
| filled_cons i h x v h1 w es xs ws h' :
    rec x h = Return (v, None) h1 →
    assign e v = Some w →
    h1 !! a = Some (CArr es) →
    filled rec e a (S i) (<[a := CArr (<[i := w]> es)]> h1) xs ws h' →
    filled rec e a i h (x :: xs) (w :: ws) h'.

Module Ex3.

(** A memory with one array, [[7, 8, 9, 10]], and the slice of its second
    and third element, of capacity 3. *)
Definition mem : heap := [CArr [Ex.Int 7; Ex.Int 8; Ex.Int 9; Ex.Int 10]].

Definition slice : slicehdr := mkSlice 0 1 2 3.

End Ex3.

(** ** Deep equality *)

(** [m.MapIndex(k)]: the value under the key that is [==] to [k]. *)
Fixpoint MapIndex (kvs : list (value * value)) (k : value) : option value :=
  match kvs with
  | [] => None
  | (k0, v0) :: rest => if go_eqb k0 k then Some v0 else MapIndex rest k
  end.

Fixpoint all2 {A B : Type} (p : A → B → bool) (xs : list A) (ys : list B)
  : bool :=
  match xs, ys with
  | [], [] => true
  | x :: xs, y :: ys => p x y && all2 p xs ys
  | _, _ => false
  end.

Definition same_type (x y : value) : bool :=
  match Type_ x, Type_ y with
  | Some t, Some u => type_eqb t u
  | _, _ => false
  end.

(** The elements a slice shows. *)
Definition elements (h : heap) (s : slicehdr) : option (list value) :=
  match h !! Data s with
  | Some (CArr es) => Some (take (Len s) (drop (Off s) es))
  | _ => None
  end.

(** Go's [reflect.DeepEqual] on two Values in the memory [h]: values of
    different types are never deeply equal; pointers are deeply equal when
    they are the same pointer or point to deeply equal values; slices and
    maps when both are nil or both are not, with the same length, and they
    are the same object or hold deeply equal elements, the keys of a map
    being matched with [==]; functions only when both are nil; numbers,
    booleans, strings and channels when they are [==], so that a NaN is
    deeply equal to nothing.  [fuel] bounds the depth of the comparison,
    which Go bounds, on cyclic values, with a table of the pointers it is
    at: when the fuel runs out the answer is false. *)
Fixpoint DeepEqual (fuel : nat) (h : heap) (x y : value) : bool :=
  match fuel with
  | 0 => false
  | S fuel =>
      match x, y with
      | VInvalid, VInvalid => true
      | _, _ =>
          same_type x y &&
          match x, y with
          | VBasic _ b a, VBasic _ _ a' => basic_eqb b a a'
          | VString _ s, VString _ s' => String.eqb s s'
          | VChan _ _ a, VChan _ _ b => bool_decide (a = b)
          | VFunc _ f, VFunc _ g =>
              bool_decide (f = None) && bool_decide (g = None)
          | VPtr _ _ None, VPtr _ _ None => true
          | VPtr _ _ (Some a), VPtr _ _ (Some b) =>
              bool_decide (a = b) ||
              match h !! a, h !! b with
              | Some (CVal u), Some (CVal w) => DeepEqual fuel h u w
              | _, _ => false
              end
          | VSlice _ _ None, VSlice _ _ None => true
          | VSlice _ _ (Some s), VSlice _ _ (Some s') =>
              bool_decide (Len s = Len s') &&
              (bool_decide (Data s = Data s' ∧ Off s = Off s') ||
               match elements h s, elements h s' with
               | Some es, Some es' => all2 (DeepEqual fuel h) es es'
               | _, _ => false
               end)
          | VArray _ _ es, VArray _ _ es' => all2 (DeepEqual fuel h) es es'
          | VMap _ _ _ None, VMap _ _ _ None => true
          | VMap _ _ _ (Some a), VMap _ _ _ (Some b) =>
              match h !! a, h !! b with
              | Some (CMap kvs), Some (CMap kvs') =>
                  bool_decide (length kvs = length kvs') &&
                  (bool_decide (a = b) ||
                   forallb (λ kv,
                     match MapIndex kvs' (kv.1) with
                     | Some v' => DeepEqual fuel h (kv.2) v'
                     | None => false
                     end) kvs)
              | _, _ => false
              end
          | VInterface _ None, VInterface _ None => true
          | VInterface _ (Some u), VInterface _ (Some w) =>
              DeepEqual fuel h u w
          | VStruct _ fs, VStruct _ fs' =>
              all2 (λ f f', DeepEqual fuel h (f.2) (f'.2)) fs fs'
          | _, _ => false
          end
      end
  end.

(** ** The inputs of the round-trip property *)

(** A value that holds no address: no pointer, slice or map that is not
    nil. *)
Fixpoint flat (v : value) : bool :=
  match v with
  | VInvalid => false
  | VBasic _ _ _ | VString _ _ | VChan _ _ _ | VFunc _ _ => true
  | VPtr _ _ p => bool_decide (p = None)
  | VSlice _ _ s => bool_decide (s = None)
  | VMap _ _ _ m => bool_decide (m = None)
  | VArray _ _ es => forallb flat es
  | VInterface _ None => true
  | VInterface _ (Some x) => flat x
  | VStruct _ fs => forallb (λ f, flat (f.2)) fs
  end.

(** The keys of a map: each is [==] to itself and to no other. *)
Fixpoint keys_ok (ks : list value) : bool :=
  match ks with
  | [] => true
  | k :: ks =>
      go_eqb k k &&
      forallb (λ k', negb (go_eqb k k') && negb (go_eqb k' k)) ks &&
      keys_ok ks
  end.

(** A pointer that is nil or of an unnamed pointer type, or no pointer. *)
Definition unnamed_pointer (v : value) : bool :=
  match v with
  | VPtr nm _ (Some _) => bool_decide (nm = anon)
  | _ => true
  end.

Definition is_interface (v : value) : bool :=
  match v with
  | VInterface _ _ => true
  | _ => false
  end.

(** [plain n h v]: in the memory [h], [v] is a well-formed value of depth
    at most [n] (so it is acyclic) that the round-trip property speaks of: no
    [time.Time], no [uintptr] or [unsafe.Pointer], no NaN, only exported
    and untagged struct fields, no function that is not nil, map keys that
    hold no address, and in an interface no pointer of a named pointer
    type. *)
Fixpoint plain (n : nat) (h : heap) (v : value) : bool :=
  match n with
  | 0 => false
  | S n =>
      negb (is_time v) &&
      match v with
      | VInvalid => false
      | VBasic _ b bits => negb (raw_address b) && basic_eqb b bits bits
      | VString _ _ | VChan _ _ _ => true
      | VFunc _ fn => bool_decide (fn = None)
      | VPtr _ e None => true
      | VPtr _ e (Some a) =>
          match h !! a with
          | Some (CVal x) => has_type x e && plain n h x
          | _ => false
          end
      | VSlice _ e None => true
      | VSlice _ e (Some s) =>
          match h !! Data s with
          | Some (CArr es) =>
              bool_decide (Off s + Len s ≤ length es) &&
              forallb (λ x, has_type x e && plain n h x)
                      (take (Len s) (drop (Off s) es))
          | _ => false
          end
      | VArray _ e es => forallb (λ x, has_type x e && plain n h x) es
      | VMap _ kt et None => true
      | VMap _ kt et (Some a) =>
          match h !! a with
          | Some (CMap kvs) =>
              keys_ok (kvs.*1) &&
              forallb (λ kv, has_type (kv.1) kt && flat (kv.1) &&
                             plain n h (kv.1) &&
                             has_type (kv.2) et && plain n h (kv.2)) kvs
          | _ => false
          end
      | VInterface _ None => true
      | VInterface _ (Some x) =>
          negb (is_interface x) && unnamed_pointer x && plain n h x
      | VStruct _ fs =>
          forallb (λ f, negb (blank (f.1)) && CanInterface (f.1) &&
                        String.eqb (Tag_Get (sfTag (f.1)) tagCcopy) "" &&
                        has_type (f.2) (sfType (f.1)) && plain n h (f.2)) fs
      end
  end.

(** [reach h v a]: the cell at address [a] is part of [v]: a pointer,
    slice or map in [v] refers to it, directly or through other cells. *)
Inductive reach (h : heap) : value → loc → Prop :=
| reach_ptr nm e a : reach h (VPtr nm e (Some a)) a
| reach_ptr_target nm e a x b :
    h !! a = Some (CVal x) → reach h x b → reach h (VPtr nm e (Some a)) b
| reach_slice nm e s : reach h (VSlice nm e (Some s)) (Data s)
| reach_slice_elem nm e s es x b :
    elements h s = Some es → x ∈ es → reach h x b →
    reach h (VSlice nm e (Some s)) b
| reach_array_elem nm e es x b :
    x ∈ es → reach h x b → reach h (VArray nm e es) b
| reach_map nm kt et a : reach h (VMap nm kt et (Some a)) a
| reach_map_key nm kt et a kvs kv b :
    h !! a = Some (CMap kvs) → kv ∈ kvs → reach h (kv.1) b →
    reach h (VMap nm kt et (Some a)) b
| reach_map_value nm kt et a kvs kv b :
    h !! a = Some (CMap kvs) → kv ∈ kvs → reach h (kv.2) b →
    reach h (VMap nm kt et (Some a)) b
| reach_interface nm x b :
    reach h x b → reach h (VInterface nm (Some x)) b
| reach_field nm fs f b :
    f ∈ fs → reach h (f.2) b → reach h (VStruct nm fs) b.

(** [image n h L lo hi x y]: in the memory [h], [y] is a copy of [x] cell
    by cell.  The cells of [x] lie below [L], those of [y] in [lo, hi).  A
    number is copied as it is, or, when it is zero, as the zero of its
    type. *)
Fixpoint image (n : nat) (h : heap) (L lo hi : nat) (x y : value) : Prop :=
  match n with
  | 0 => False
  | S n =>
      match x with
      | VInvalid => False
      | VBasic nm b bits =>
          basic_eqb b bits bits = true ∧
          (y = x ∨ basic_zero b bits = true ∧ y = VBasic nm b 0)
      | VPtr nm e (Some a) =>
          ∃ b u w, y = VPtr nm e (Some b) ∧ a < L ∧ lo ≤ b < hi ∧
                   h !! a = Some (CVal u) ∧ h !! b = Some (CVal w) ∧
                   has_type w e = true ∧ image n h L lo hi u w
      | VSlice nm e (Some s) =>
          ∃ b es ws, y = VSlice nm e (Some (mkSlice b 0 (Len s) (Len s))) ∧
                     Data s < L ∧ lo ≤ b < hi ∧
                     elements h s = Some es ∧ length es = Len s ∧
                     h !! b = Some (CArr ws) ∧
                     Forall2 (image n h L lo hi) es ws
      | VArray nm e es =>
          ∃ ws, y = VArray nm e ws ∧
                Forall2 (λ u w, has_type w e = true ∧ image n h L lo hi u w)
                        es ws
      | VMap nm kt et (Some a) =>
          ∃ b kvs kws, y = VMap nm kt et (Some b) ∧ a < L ∧ lo ≤ b < hi ∧
                       h !! a = Some (CMap kvs) ∧ h !! b = Some (CMap kws) ∧
                       keys_ok (kvs.*1) = true ∧
                       Forall2 (λ kv kw, flat (kv.1) = true ∧
                                         image n h L lo hi (kv.1) (kw.1) ∧
                                         image n h L lo hi (kv.2) (kw.2))
                               kvs kws
      | VInterface nm (Some u) =>
          ∃ w, y = VInterface nm (Some w) ∧ image n h L lo hi u w
      | VStruct nm fs =>
          ∃ gs, y = VStruct nm gs ∧
                Forall2 (λ f g, g.1 = f.1 ∧ blank (f.1) = false ∧
                                has_type (g.2) (sfType (f.1)) = true ∧
                                image n h L lo hi (f.2) (g.2)) fs gs
      | VFunc _ fn => fn = None ∧ y = x
      | _ => y = x
      end
  end.

(** The name of the type of a value. *)
Definition value_name (v : value) : tname :=
  match Type_ v with
  | Some t => type_name t
  | None => anon
  end.

(** The type of what the copy strategies return for [v]: the type of [v],
    but for a pointer that is not nil the unnamed pointer type. *)
Definition new_type (v : value) : option type :=
  match v with
  | VPtr _ e (Some _) => Some (TPtr anon e)
  | _ => Type_ v
  end.

(** The type of what [c.copy] returns for [v]. *)
Definition copy_type (v : value) : option type :=
  if is_time v then Type_ v else new_type v.

(** What the recursive call delivers on the inputs of the round-trip
    property, [h0] being the memory the original lives in: a value that,
    under the name of the type of the original, is a copy cell by cell,
    made of cells it allocates. *)
Definition copies_plain (n : nat) (h0 : heap)
    (rec : value → M (value * error)) : Prop :=
  ∀ x h, plain n h0 x = true → h0 `prefix_of` h →
    ∃ w h', rec x h = Return (w, None) h' ∧ Type_ w = new_type x ∧
            image n h' (length h0) (length h) (length h') x
                  (retype (value_name x) w).

(** The image of a struct field, and of an array element. *)
Definition field_image (n : nat) (h : heap) (L lo hi : nat)
    (f g : StructField type * value) : Prop :=
  g.1 = f.1 ∧ blank (f.1) = false ∧ has_type (g.2) (sfType (f.1)) = true ∧
  image n h L lo hi (f.2) (g.2).

Definition elem_image (n : nat) (h : heap) (L lo hi : nat) (e : type)
    (u w : value) : Prop :=
  has_type w e = true ∧ image n h L lo hi u w.

Definition entry_image (n : nat) (h : heap) (L lo hi : nat)
    (kv kw : value * value) : Prop :=
  flat (kv.1) = true ∧ image n h L lo hi (kv.1) (kw.1) ∧
  image n h L lo hi (kv.2) (kw.2).

(** The test of [plain] on a struct field. *)
Definition plain_field (n : nat) (h : heap) (f : StructField type * value)
  : bool :=
  negb (blank (f.1)) && CanInterface (f.1) &&
  String.eqb (Tag_Get (sfTag (f.1)) tagCcopy) "" &&
  has_type (f.2) (sfType (f.1)) && plain n h (f.2).

(** The fields of the zero value of a struct type. *)
Definition zero_fields (fs : list (StructField type))
  : list (StructField type * value) :=
  (λ f, (f, Zero (sfType f))) <$> fs.

Module Ex4.

(** A memory that holds an [int], a [map[string]*int] with a pointer to it
    and a nil pointer, and an array with that map and a nil map; a slice
    over the array; and a struct with the slice, a zero [int] and an
    interface that holds a [[2]int]. *)
Definition map_t : type := TMap anon Ex.str (TPtr anon Ex.int).

Definition mem : heap :=
  [CVal (Ex.Int 1);
   CMap [(Ex.Str "a", VPtr anon Ex.int (Some 0));
         (Ex.Str "b", VPtr anon Ex.int None)];
   CArr [VMap anon Ex.str (TPtr anon Ex.int) (Some 1);
         VMap anon Ex.str (TPtr anon Ex.int) None]].

Definition S : value :=
  VStruct (mkName "ccopy" "S")
    [(Ex.field "M" "" [] (TSlice anon map_t),
      VSlice anon map_t (Some (mkSlice 2 0 2 2)));
     (Ex.field "Z" "" [] Ex.int, Ex.Int 0);
     (Ex.field "I" "" [] (TInterface anon),
      VInterface anon (Some (VArray anon Ex.int [Ex.Int 1; Ex.Int 0])))].

End Ex4.

Module Ex5.

(** [x := 1; m := map[*int]int{&x: 5}], and a function that is not nil. *)
Definition mem : heap :=
  [CVal (Ex.Int 1); CMap [(VPtr anon Ex.int (Some 0), Ex.Int 5)]].

Definition ptr_map : value := VMap anon (TPtr anon Ex.int) Ex.int (Some 1).

Definition fn : value := VFunc anon (Some 1%N).

End Ex5.

(** ** Notions for further properties *)

(** The errors [copy] makes: the one for the invalid Value, and the one for
    a tag that has no function in the registry. *)
Definition copy_error (c : Config) (err : string) : Prop :=
  err = "invalid value" ∨
  ∃ tag, tag ≠ "" ∧ lookup_fn c tag = None ∧
         err = "missing copy customiser for: " +:+ tag.

(** A call that returns no other error than those. *)
Definition errs_known (c : Config) (f : value → M (value * error)) : Prop :=
  ∀ v h r err h', f v h = Return (r, Some err) h' → copy_error c err.

(** A copy strategy whose result, when there is no error, has the type
    [new_type] gives, and is nil when the argument is nil and only then.
    (Of an interface that holds a nil interface, which no Go value does,
    the copy would be a nil interface: [Set] stores what is in the
    interface it is given.) *)
Definition typed (f : value → M (value * error)) : Prop :=
  ∀ v h r h', f v h = Return (r, None) h' →
              Type_ r = new_type v ∧
              (Kind v ≠ reflect.Interface → is_nil r = is_nil v).

(** Two registries that give the same for every tag a field can carry. *)
Definition same_functions (c1 c2 : Config) : Prop :=
  ∀ tag, tag ≠ "" → lookup_fn c1 tag = lookup_fn c2 tag.

Module Ex6.

(** A pointer to the struct of the package's example, in a memory that
    holds that struct and nothing else. *)
Definition mem : heap := [CVal Ex.T_example].

Definition ptr : value :=
  VPtr anon (TStruct (mkName "ccopy" "T")
               [Ex.field "A" "" [] Ex.int;
                Ex.field "Name" "" ["anonymiseName"] Ex.str]) (Some 0).

End Ex6.

(** ** What a copy goes through *)

(** [inside h v u]: in the memory [h], [u] is what [v] points to or holds,
    one level down, in a place the copy of [v] goes to: fields that are
    unexported or tagged are not among them. *)
Inductive inside (h : heap) : value → value → Prop :=
| inside_pointer nm e a x :
    h !! a = Some (CVal x) → inside h (VPtr nm e (Some a)) x
| inside_interface nm x :
    inside h (VInterface nm (Some x)) x
| inside_field nm fs f fv :
    (f, fv) ∈ fs → CanInterface f = true →
    Tag_Get (sfTag f) tagCcopy = "" →
    inside h (VStruct nm fs) fv
| inside_slice nm e s es i x :
    h !! Data s = Some (CArr es) → i < Len s → es !! (Off s + i) = Some x →
    inside h (VSlice nm e (Some s)) x
| inside_array nm e es x :
    x ∈ es → inside h (VArray nm e es) x
| inside_map_key nm kt et a kvs key val :
    h !! a = Some (CMap kvs) → (key, val) ∈ kvs →
    inside h (VMap nm kt et (Some a)) key
| inside_map_value nm kt et a kvs key val :
    h !! a = Some (CMap kvs) → (key, val) ∈ kvs →
    inside h (VMap nm kt et (Some a)) val.

(** The same, for a [v] that is no [time.Time]. *)
Definition child (h : heap) (v u : value) : Prop :=
  is_time v = false ∧ inside h v u.

(** [deep h v k]: there are [k] levels, or more, under [v]. *)
Inductive deep (h : heap) : value → nat → Prop :=
| deep_0 v : deep h v 0
| deep_S v u k : child h v u → deep h u k → deep h v (S k).

(** [u] was copied by [rec] without an error, in the memory [h0] or a
    later one. *)
Definition copied_in (rec : value → M (value * error)) (h0 : heap)
    (u : value) : Prop :=
  ∃ h1 r h2, h0 `prefix_of` h1 ∧ rec u h1 = Return (r, None) h2.

Module Ex7.

(** [var x interface{}; x = &x]: an interface that holds a pointer to
    itself. *)
Definition p : value := VPtr anon (TInterface anon) (Some 0).

Definition x : value := VInterface anon (Some p).

Definition mem : heap := [CVal x].

End Ex7.

Module Ex8.

(** A registered function that panics. *)
Definition refuse : transformer := λ _ _, TPanic "refused".

Definition registry : Config := {[ "anonymiseName" := Some refuse ]}.

End Ex8.

(** ** Maps, entry by entry *)



Module Ex9.

(** [map[string]int{"a": 1, "b": 2}], in a memory that holds nothing
    else. *)
Definition mem : heap :=
  [CMap [(Ex.Str "a", Ex.Int 1); (Ex.Str "b", Ex.Int 2)]].

Definition m : value := VMap anon Ex.str Ex.int (Some 0).

End Ex9.

(** ** The package's test *)

Module Test.

(** [type A struct { Data []string `ccopy:"AnonymiseData"` }] *)
Definition A_Data : StructField type :=
  Ex.field "Data" "" ["AnonymiseData"] (TSlice anon Ex.str).

Definition A : type := TStruct (mkName "ccopy" "A") [A_Data].

(** [type T struct { Data A; Name string `ccopy:"AnonymiseName"`; C int;
    D *A }] *)
Definition T_Data : StructField type := Ex.field "Data" "" [] A.
Definition T_Name : StructField type :=
  Ex.field "Name" "" ["AnonymiseName"] Ex.str.
Definition T_C : StructField type := Ex.field "C" "" [] Ex.int.
Definition T_D : StructField type := Ex.field "D" "" [] (TPtr anon A).

(** [T{Data: A{Data: data}, Name: name, C: n, D: d}], for a [[]string] with
    the header [data] (or nil) and a pointer [d] (or nil). *)
Definition T (data : option slicehdr) (name : string) (n : Z)
    (d : option loc) : value :=
  VStruct (mkName "ccopy" "T")
    [(T_Data, VStruct (mkName "ccopy" "A")
                [(A_Data, VSlice anon Ex.str data)]);
     (T_Name, Ex.Str name);
     (T_C, Ex.Int n);
     (T_D, VPtr anon A d)].

(** [func AnonymiseName(name string) string { return "not important" }] *)
Definition AnonymiseName : transformer :=
  λ _ _, TReturn (Ex.Str "not important") [].

(** [data[:1]]: the same backing array, from the same place on. *)
Definition first (s : slicehdr) : slicehdr :=
  mkSlice (Data s) (Off s) 1 (Cap s).

(** What [AnonymiseData] returns for a [[]string] with the header
    [data]. *)
Definition anonymised (data : option slicehdr) : option slicehdr :=
  match data with
  | None => None
  | Some s => if Len s =? 0 then Some s else Some (first s)
  end.

(** [func AnonymiseData(data []string) []string {
       if len(data) == 0 { return data }; return data[:1] }].
    [Call] panics when the argument is no [[]string]; its message, which
    names the type, is cut short here. *)
Definition AnonymiseData : transformer :=
  λ data _,
    match data with
    | VSlice nm e s => TReturn (VSlice nm e (anonymised s)) []
    | _ => TPanic "reflect: Call using a value of another type"
    end.

(** [Config{"AnonymiseName": AnonymiseName, "AnonymiseData":
    AnonymiseData}] *)
Definition c : Config :=
  {[ "AnonymiseName" := Some AnonymiseName;
     "AnonymiseData" := Some AnonymiseData ]}.

End Test.

Module TestNilField.

(** [fn := func(a *int) *int { x := 1; return &x }]: the variable [x] is a
    new cell, at the next free address. *)
Definition fn : transformer :=
  λ _ h, TReturn (VPtr anon Ex.int (Some (length h))) [CVal (Ex.Int 1)].

(** [type T struct { A *int `ccopy:"fn"` }], holding the pointer [a] (or
    nil). *)
Definition T (a : option loc) : value :=
  VStruct (mkName "ccopy" "T")
    [(Ex.field "A" "" ["fn"] (TPtr anon Ex.int), VPtr anon Ex.int a)].

(** [Config{"fn": fn}] *)
Definition c : Config := {[ "fn" := Some fn ]}.

End TestNilField.

(** ** Where an error comes from *)

(** [u] was copied by [rec] with the error [err], in the memory [h0] or a
    later one. *)
Definition failed_in (rec : value → M (value * error)) (h0 : heap)
    (u : value) (err : string) : Prop :=
  ∃ h1 r h2, h0 `prefix_of` h1 ∧ rec u h1 = Return (r, Some err) h2.

(** The struct [u] has an exported field with a tag for which the registry
    [c] has no function, and [err] is the error that says so. *)
Definition missing_function (c : Config) (u : value) (err : string)
  : Prop :=
  ∃ nm fs f fv,
    u = VStruct nm fs ∧ is_time u = false ∧ (f, fv) ∈ fs ∧
    CanInterface f = true ∧ Tag_Get (sfTag f) tagCcopy ≠ "" ∧
    lookup_fn c (Tag_Get (sfTag f) tagCcopy) = None ∧
    err = "missing copy customiser for: " +:+ Tag_Get (sfTag f) tagCcopy.

(** The memory a pointer, slice or map refers to is allocated. *)
Definition allocated (h : heap) (v : value) : bool :=
  match v with
  | VPtr _ _ (Some a) | VMap _ _ _ (Some a) => bool_decide (a < length h)
  | VSlice _ _ (Some s) => bool_decide (Data s < length h)
  | _ => true
  end.

(** [sound h v]: whatever the copy of [v] can get to, in the memory [h],
    is a valid Value that refers to allocated memory.  The values of a Go
    program are all so. *)
Definition sound (h : heap) (v : value) : Prop :=
  ∀ u, rtc (child h) v u → IsValid u = true ∧ allocated h u = true.

(** * Properties *)

(** ** Nil and invalid values *)

Lemma bind_Return {A B} (m : M A) (k : A → M B) h a h' :
  m h = Return a h' → bind m k h = k a h'.
Proof. unfold bind. by intros ->. Qed.

Lemma bind_inv {A B} (m : M A) (k : A → M B) h b h' :
  bind m k h = Return b h' → ∃ a h1, m h = Return a h1 ∧ k a h1 = Return b h'.
Proof. unfold bind. destruct (m h) as [a h1| | |]; [eauto|done..]. Qed.

(** C4.  A nil pointer, nil slice, nil map or nil interface value comes back
    as it is, with its type, without an error and without an allocation, at
    whatever depth of the recursion and in whatever memory [c.copy] meets it;
    [Copy] hands a nil pointer, slice or map back to the caller the same
    way. *)
Theorem nil_stays_nil (fuel : nat) (c : Config) (v : value) (h : heap) :
  is_nil v = true →
  copy (S fuel) c v h = Return (v, None) h ∧
  (Kind v ≠ reflect.Interface →
   Copy (S fuel) c (Some v) h = Return (Some v, None) h).
Proof.
  intros Hnil.
  assert (Hc : copy (S fuel) c v h = Return (v, None) h).
  { destruct v as [| | | | |? ? [a|]|? ? [s|]| |? ? ? [a|]|? [d|]|]; try done;
      simpl; by destruct (is_time _). }
  split; [done|]. intros Hk.
  unfold Copy, ValueOf. rewrite (bind_Return _ _ _ _ _ Hc).
  destruct v as [| | | | |? ? [a|]|? ? [s|]| |? ? ? [a|]|? [d|]|]; try done.
Qed.

Lemma nil_stays_nil_witness :
  copy 1 ∅ (VPtr anon Ex.int None) [] =
    Return (VPtr anon Ex.int None, None) [] ∧
  Copy 1 ∅ (Some (VPtr anon Ex.int None)) [] =
    Return (Some (VPtr anon Ex.int None), None) [].
Proof.
  destruct (nil_stays_nil 0 ∅ (VPtr anon Ex.int None) [] eq_refl) as [Hc HC].
  split; [exact Hc|]. apply HC. discriminate.
Defined.

(** C6.  [Copy] of the nil interface value, whose [reflect.Value] is the
    invalid one, returns nil and the error "invalid value"; it does not
    panic. *)
Theorem Copy_invalid_value (fuel : nat) (c : Config) (h : heap) :
  Copy (S fuel) c None h = Return (None, Some "invalid value") h.
Proof.
  unfold Copy, ValueOf.
  (* the invalid Value fails the first test of [copy] *)
  assert (Hc : copy (S fuel) c VInvalid h
               = Return (VInvalid, Some "invalid value") h) by done.
  by rewrite (bind_Return _ _ _ _ _ Hc).
Qed.

Lemma copy_scalar_like (fuel : nat) (c : Config) (v : value) (h : heap) :
  scalar_like v = true →
  copy (S fuel) c v h = Return (v, None) h.
Proof.
  intros Hs. simpl.
  destruct v; simpl in *; try done;
    destruct (is_time _) eqn:Ht; try done; simpl in *.
  by destruct b.
Qed.

(** ** Induction on types and values *)

Lemma type_ind' (P : type → Prop) :
  (∀ nm b, P (TBasic nm b)) →
  (∀ nm, P (TString nm)) →
  (∀ nm e, P e → P (TChan nm e)) →
  (∀ nm, P (TFunc nm)) →
  (∀ nm e, P e → P (TPtr nm e)) →
  (∀ nm e, P e → P (TSlice nm e)) →
  (∀ nm n e, P e → P (TArray nm n e)) →
  (∀ nm k e, P k → P e → P (TMap nm k e)) →
  (∀ nm, P (TInterface nm)) →
  (∀ nm fs, Forall (λ f, P (sfType f)) fs → P (TStruct nm fs)) →
  ∀ t, P t.
Proof.
  intros HB HS HC HF HP HSl HA HM HI HSt.
  fix IH 1. intros [nm b|nm|nm e|nm|nm e|nm e|nm n e|nm k e|nm|nm fs].
  - apply HB.
  - apply HS.
  - apply HC, IH.
  - apply HF.
  - apply HP, IH.
  - apply HSl, IH.
  - apply HA, IH.
  - apply HM; apply IH.
  - apply HI.
  - apply HSt. induction fs as [|f fs IHfs]; constructor; [apply IH|apply IHfs].
Qed.

Lemma value_ind' (P : value → Prop) :
  P VInvalid →
  (∀ nm b bits, P (VBasic nm b bits)) →
  (∀ nm s, P (VString nm s)) →
  (∀ nm e ch, P (VChan nm e ch)) →
  (∀ nm fn, P (VFunc nm fn)) →
  (∀ nm e p, P (VPtr nm e p)) →
  (∀ nm e s, P (VSlice nm e s)) →
  (∀ nm e es, Forall P es → P (VArray nm e es)) →
  (∀ nm k e m, P (VMap nm k e m)) →
  (∀ nm, P (VInterface nm None)) →
  (∀ nm x, P x → P (VInterface nm (Some x))) →
  (∀ nm fs, Forall (λ f, P (f.2)) fs → P (VStruct nm fs)) →
  ∀ v, P v.
Proof.
  intros HI HB HS HC HF HP HSl HA HM HN HIf HSt.
  fix IH 1. intros [|nm b bits|nm s|nm e ch|nm fn|nm e p|nm e s|nm e es
                    |nm k e m|nm [x|]|nm fs].
  - apply HI.
  - apply HB.
  - apply HS.
  - apply HC.
  - apply HF.
  - apply HP.
  - apply HSl.
  - apply HA. induction es as [|x es IHes]; constructor; [apply IH|apply IHes].
  - apply HM.
  - apply HIf, IH.
  - apply HN.
  - apply HSt. induction fs as [|[f x] fs IHfs]; constructor;
      [apply IH|apply IHfs].
Qed.

(** ** Types of values *)

Lemma type_eqb_eq (t u : type) : type_eqb t u = true → t = u.
Proof.
  revert u. induction t as [nm b|nm|nm e IH|nm|nm e IH|nm e IH|nm n e IH
                            |nm k e IHk IHe|nm|nm fs IH] using type_ind';
    intros [] H; simpl in H; try done;
    repeat (apply andb_prop in H as [H ?]);
    repeat match goal with
      | H : bool_decide _ = true |- _ => apply bool_decide_eq_true in H
      end; subst; try done.
  - f_equal; by apply IH.
  - f_equal; by apply IH.
  - f_equal; by apply IH.
  - f_equal; by apply IH.
  - f_equal; [by apply IHk|by apply IHe].
  - f_equal. rename fs0 into gs, H0 into Hf. revert gs Hf.
    induction IH as [|f fs Hf' _ IHfs]; intros [|g gs] Hf; try done.
    repeat (apply andb_prop in Hf as [Hf ?]).
    repeat match goal with
      | H : bool_decide _ = true |- _ => apply bool_decide_eq_true in H
      end.
    f_equal; [|by apply IHfs].
    destruct f, g; simpl in *; f_equal; try done. by apply Hf'.
Qed.

Lemma type_eqb_refl (t : type) : type_eqb t t = true.
Proof.
  induction t as [nm b|nm|nm e IH|nm|nm e IH|nm e IH|nm n e IH
                  |nm k e IHk IHe|nm|nm fs IH] using type_ind';
    simpl; rewrite ?bool_decide_eq_true_2, ?IH, ?IHk, ?IHe; try done.
  simpl. induction IH as [|f fs Hf _ IHfs]; [done|].
  rewrite !bool_decide_eq_true_2, Hf, IHfs; done.
Qed.

Lemma has_type_eq (v : value) (t : type) :
  has_type v t = true ↔ Type_ v = Some t.
Proof.
  unfold has_type. destruct (Type_ v) as [u|]; [|done]. split.
  - intros H. by rewrite (type_eqb_eq _ _ H).
  - intros [= ->]. apply type_eqb_refl.
Qed.

Lemma Type_Zero t : Type_ (Zero t) = Some t.
Proof.
  destruct t; simpl; try done.
  - by rewrite length_replicate.
  - rewrite <- list_fmap_compose. f_equal. f_equal.
    rewrite <- (list_fmap_id fs) at 2. by apply list_fmap_ext.
Qed.

(** A well-typed zero value is the zero value of its type, unless a part of
    it is zero without being so bit by bit. *)
Lemma IsZero_Zero (v : value) (t : type) :
  wt v = true → odd_zero v = false → IsZero v = true → Type_ v = Some t →
  v = Zero t.
Proof.
  revert t. induction v as [|nm b bits|nm s|nm e ch|nm fn|nm e p|nm e s
                            |nm e es IH|nm k e m|nm|nm x IH|nm fs IH]
    using value_ind'; intros t Hw Ho Hz [= <-]; simpl in *; try done.
  - rewrite Hz in Ho. simpl in Ho. apply negb_false_iff, Z.eqb_eq in Ho.
    by subst.
  - apply String.eqb_eq in Hz. by subst.
  - apply bool_decide_eq_true in Hz. by subst.
  - apply bool_decide_eq_true in Hz. by subst.
  - apply bool_decide_eq_true in Hz. by subst.
  - by destruct s.
  - f_equal. induction IH as [|x es Hx _ IHes]; [done|]. simpl in *.
    apply andb_prop in Hz as [Hz1 Hz2]. apply andb_prop in Hw as [Hw1 Hw2].
    apply orb_false_elim in Ho as [Ho1 Ho2].
    apply andb_prop in Hw1 as [Ht Hw1]. apply has_type_eq in Ht.
    f_equal; [by apply Hx|by apply IHes].
  - apply bool_decide_eq_true in Hz. by subst.
  - f_equal. induction IH as [|[f x] fs Hx _ IHfs]; [done|]. simpl in *.
    apply andb_prop in Hz as [Hz1 Hz2]. apply andb_prop in Hw as [Hw1 Hw2].
    apply orb_false_elim in Ho as [Ho1 Ho2].
    apply orb_false_elim in Ho1 as [Ho1 Hb].
    apply andb_prop in Hw1 as [Ht Hw1]. apply has_type_eq in Ht.
    f_equal; [|by apply IHfs]. f_equal. apply Hx; try done.
    destruct (blank f); [|done]. simpl in Hb. by apply negb_false_iff in Hb.
Qed.

(** ** Assignments *)

Lemma retype_same (v : value) (t : type) :
  Type_ v = Some t → retype (type_name t) v = v.
Proof. destruct v; intros [= <-]; done. Qed.

Lemma IsZero_retype nm v : IsZero (retype nm v) = IsZero v.
Proof. by destruct v. Qed.

Lemma Type_retype nm v V :
  Type_ v = Some V → Type_ (retype nm v) = Some (set_name nm V).
Proof. destruct v; intros [= <-]; done. Qed.

Lemma set_name_same t : set_name (type_name t) t = t.
Proof. by destruct t. Qed.

Lemma set_name_twice nm nm' t : set_name nm (set_name nm' t) = set_name nm t.
Proof. by destruct t. Qed.

Lemma directlyAssignable_set_name T V :
  directlyAssignable T V = true → set_name (type_name T) V = T.
Proof.
  unfold directlyAssignable, same_underlying. intros H.
  apply orb_prop in H as [H|H].
  - apply type_eqb_eq in H as ->. apply set_name_same.
  - apply andb_prop in H as [_ H]. apply type_eqb_eq in H.
    rewrite <- (set_name_twice (type_name T) anon V), <- H.
    by rewrite set_name_twice, set_name_same.
Qed.

(** What was assigned has the type of the destination. *)
Lemma Type_assign t v w : assign t v = Some w → Type_ w = Some t.
Proof.
  unfold assign. destruct (Type_ v) as [V|] eqn:HV; [|done].
  destruct (directlyAssignable t V) eqn:Hd.
  - intros [= <-]. rewrite (Type_retype _ _ _ HV).
    by rewrite directlyAssignable_set_name.
  - destruct t; try done. by intros [= <-].
Qed.

(** A value of the type of the destination is assigned as it is. *)
Lemma assign_has_type v t : has_type v t = true → assign t v = Some v.
Proof.
  intros H. apply has_type_eq in H. unfold assign, directlyAssignable.
  rewrite H, type_eqb_refl. simpl. by rewrite retype_same.
Qed.

Lemma assignTo_inv ctx t v h w h' :
  assignTo ctx t v h = Return w h' → assign t v = Some w ∧ h' = h.
Proof.
  unfold assignTo. destruct (assign t v); [by intros [= <- <-]|].
  by destruct (Type_ v ≫= type_String), (type_String t).
Qed.

Lemma assignTo_assign ctx t v w h :
  assign t v = Some w → assignTo ctx t v h = Return w h.
Proof. unfold assignTo. by intros ->. Qed.

(** What a copy strategy returns for a value of type [t] is assigned to a
    place of type [t] under the name of [t]. *)
Lemma assign_new_type x t w :
  has_type x t = true → Type_ w = new_type x →
  assign t w = Some (retype (type_name t) w) ∧
  retype (type_name t) w = retype (value_name x) w.
Proof.
  intros Hx Hw. apply has_type_eq in Hx.
  split; [|by unfold value_name; rewrite Hx].
  unfold assign. rewrite Hw.
  assert (Hd : ∀ V, new_type x = Some V → directlyAssignable t V = true).
  { intros V HV. unfold directlyAssignable.
    destruct x as [| | | | |nm e [a|]| | | | |]; simpl in *;
      try (rewrite Hx in HV; injection HV as <-;
           by rewrite type_eqb_refl).
    injection HV as <-. injection Hx as <-.
    unfold same_underlying, hasName. simpl.
    rewrite andb_false_r, type_eqb_refl. simpl.
    apply orb_true_r. }
  destruct (new_type x) as [V|] eqn:HV.
  - by rewrite (Hd V eq_refl).
  - destruct x as [| | | | |? ? [?|]| | | | |]; done.
Qed.

(** ** The struct loop *)

Section struct_loop.

Context (c : Config) (rec : value → M (value * error)).

(** Field by field, what a struct copy that ended without an error
    holds. *)
Lemma copyStruct_loop_fields ot nm fs : ∀ i ofs h res h',
  copyStruct_loop c rec ot fs i (VStruct nm ofs) h = Return (res, None) h' →
  ∃ ofs', res = VStruct nm ofs' ∧
    ∀ k d old, ofs !! k = Some (d, old) →
      ∃ new, ofs' !! k = Some (d, new) ∧
        if decide (i ≤ k) then
          match fs !! (k - i) with
          | Some (f, fv) => field_outcome c rec f fv old new
          | None => new = old
          end
        else new = old.
Proof.
  induction fs as [|[f fv] rest IH]; intros i ofs h res h' Hrun.
  - injection Hrun as <- <-. exists ofs. split; [done|].
    intros k d old Hk. exists old. split; [done|].
    case_decide; [|done]. by rewrite lookup_nil.
  - simpl in Hrun.
    (* what the rest of the loop gives, whatever field [i] was set to *)
    assert (Hrest : ∀ ofs1 h1 new_i,
      copyStruct_loop c rec ot rest (S i) (VStruct nm ofs1) h1
        = Return (res, None) h' →
      (∀ k, k ≠ i → ofs1 !! k = ofs !! k) →
      (∀ d old, ofs !! i = Some (d, old) →
         ofs1 !! i = Some (d, new_i old) ∧
         field_outcome c rec f fv old (new_i old)) →
      ∃ ofs', res = VStruct nm ofs' ∧
        ∀ k d old, ofs !! k = Some (d, old) →
          ∃ new, ofs' !! k = Some (d, new) ∧
            if decide (i ≤ k) then
              match ((f, fv) :: rest) !! (k - i) with
              | Some (f, fv) => field_outcome c rec f fv old new
              | None => new = old
              end
            else new = old).
    { intros ofs1 h1 new_i Hrun1 Hne Hi.
      destruct (IH _ _ _ _ _ Hrun1) as (ofs' & -> & Hall).
      exists ofs'. split; [done|]. intros k d old Hk.
      destruct (decide (k = i)) as [->|Hki].
      - destruct (Hi _ _ Hk) as [Hk1 Hout].
        destruct (Hall _ _ _ Hk1) as (new & Hnew & Hspec).
        exists new. split; [done|].
        rewrite decide_False in Hspec by lia. subst new.
        rewrite decide_True by lia. by rewrite Nat.sub_diag.
      - rewrite <- (Hne _ Hki) in Hk.
        destruct (Hall _ _ _ Hk) as (new & Hnew & Hspec).
        exists new. split; [done|].
        destruct (decide (i ≤ k)) as [Hle|Hgt].
        + rewrite decide_True in Hspec by lia.
          replace (k - i) with (S (k - S i)) by lia. done.
        + by rewrite decide_False in Hspec by lia. }
    assert (Hset : ∀ v k, k ≠ i →
      alter (λ f0 : StructField type * value, (f0.1, v)) i ofs !! k
        = ofs !! k).
    { intros v k Hk. by apply list_lookup_alter_ne. }
    destruct (CanInterface f) eqn:Hexp; simpl in Hrun.
    + destruct (String.eqb (Tag_Get (sfTag f) tagCcopy) "") eqn:Htag.
      * apply bind_inv in Hrun as ([v [err|]] & h1 & Hv & Hrun); [done|].
        destruct (IsZero v) eqn:Hz; simpl in Hrun.
        -- apply (Hrest ofs h1 (λ old, old) Hrun); [done|].
           intros d old Hk. split; [done|].
           unfold field_outcome. rewrite Hexp, Htag.
           exists h, h1, v. by rewrite Hz.
        -- apply bind_inv in Hrun as (w & h2 & Hw & Hrun).
           apply assignTo_inv in Hw as [Hw ->].
           apply (Hrest _ h1 (λ _, w) Hrun); [by apply Hset|].
           intros d old Hk. split.
           ++ by rewrite list_lookup_alter_eq, Hk.
           ++ unfold field_outcome. rewrite Hexp, Htag.
              exists h, h1, v. by rewrite Hz.
      * destruct (lookup_fn c (Tag_Get (sfTag f) tagCcopy)) as [fn|] eqn:Hfn;
          [|done].
        apply bind_inv in Hrun as (v & h1 & Hv & Hrun).
        unfold Call in Hv.
        destruct (fn fv h) as [v0 cells|] eqn:Hcall; [|done].
        injection Hv as -> <-.
        destruct (IsZero v) eqn:Hz; simpl in Hrun.
        -- apply (Hrest ofs _ (λ old, old) Hrun); [done|].
           intros d old Hk. split; [done|].
           unfold field_outcome. rewrite Hexp, Htag.
           exists fn, h, v, cells. by rewrite Hz.
        -- apply bind_inv in Hrun as (w & h2 & Hw & Hrun).
           apply assignTo_inv in Hw as [Hw ->].
           apply (Hrest _ _ (λ _, w) Hrun); [by apply Hset|].
           intros d old Hk. split.
           ++ by rewrite list_lookup_alter_eq, Hk.
           ++ unfold field_outcome. rewrite Hexp, Htag.
              exists fn, h, v, cells. by rewrite Hz.
    + apply (Hrest ofs h (λ old, old) Hrun); [done|].
      intros d old Hk. split; [done|].
      unfold field_outcome. by rewrite Hexp.
Qed.

End struct_loop.

Lemma copy_struct (fuel : nat) (c : Config) nm fs (h : heap) :
  is_time (VStruct nm fs) = false →
  copy (S fuel) c (VStruct nm fs) h =
    copyStruct_loop c (copy fuel c) (TStruct nm (fs.*1)) fs 0
      (Zero (TStruct nm (fs.*1))) h.
Proof. intros Ht. simpl. simpl in Ht. by rewrite Ht. Qed.

(** What each field of a struct copy holds. *)
Lemma copy_struct_fields (fuel : nat) (c : Config) nm fs h res h' :
  is_time (VStruct nm fs) = false →
  copy (S fuel) c (VStruct nm fs) h = Return (res, None) h' →
  ∀ k f fv, fs !! k = Some (f, fv) →
    ∃ new, FieldDecl res k = Some f ∧ Field res k = Some new ∧
           field_outcome c (copy fuel c) f fv (Zero (sfType f)) new.
Proof.
  intros Ht Hrun k f fv Hk. rewrite copy_struct in Hrun by done.
  simpl in Hrun. apply copyStruct_loop_fields in Hrun as (ofs' & -> & Hall).
  destruct (Hall k f (Zero (sfType f))) as (new & Hnew & Hspec).
  { rewrite list_lookup_fmap, list_lookup_fmap, Hk. done. }
  exists new. simpl. rewrite Hnew. repeat split; try done.
  rewrite decide_True, Nat.sub_0_r, Hk in Hspec by lia. done.
Qed.

Section struct_loop_more.

Context (c : Config).

(** The loop asks [c.copy] about the exported, untagged fields only. *)
Lemma copyStruct_loop_ext rec1 rec2 ot fs : ∀ i oc h,
  (∀ f fv, (f, fv) ∈ fs → CanInterface f = true →
           Tag_Get (sfTag f) tagCcopy = "" → ∀ h0, rec1 fv h0 = rec2 fv h0) →
  copyStruct_loop c rec1 ot fs i oc h = copyStruct_loop c rec2 ot fs i oc h.
Proof.
  induction fs as [|[f fv] rest IH]; intros i oc h Hrec; [done|].
  assert (Hrest : ∀ i oc h, copyStruct_loop c rec1 ot rest i oc h
                            = copyStruct_loop c rec2 ot rest i oc h).
  { intros. apply IH. intros f' fv' Hin. apply Hrec. by right. }
  simpl. destruct (CanInterface f) eqn:Hexp; simpl; [|apply Hrest].
  destruct (String.eqb _ "") eqn:Htag.
  - apply String.eqb_eq in Htag. unfold bind.
    rewrite (Hrec f fv); [|by left|done..].
    destruct (rec2 fv h) as [[v [err|]] h1| | |]; try done.
    destruct (IsZero v); simpl; [apply Hrest|].
    destruct (assignTo _ _ _ _) as [w h2| | |]; [apply Hrest|done..].
  - destruct (lookup_fn _ _); [|done]. unfold bind.
    destruct (Call _ _ _) as [v h1| | |]; try done.
    destruct (IsZero v); simpl; [apply Hrest|].
    destruct (assignTo _ _ _ _) as [w h2| | |]; [apply Hrest|done..].
Qed.

Context (rec : value → M (value * error)).

(** The loop does not look at what the unexported fields hold. *)
Lemma copyStruct_loop_unexported ot fs fs' : ∀ i oc h,
  same_exported fs fs' →
  copyStruct_loop c rec ot fs i oc h = copyStruct_loop c rec ot fs' i oc h.
Proof.
  intros i oc h Hall. revert i oc h.
  induction Hall as [|[f fv] [f' fv'] rest rest' [Hf Hv] _ IH];
    intros i oc h; [done|].
  simpl in *. subst f'.
  destruct (CanInterface f) eqn:Hexp; simpl; [|apply IH].
  rewrite <- (Hv eq_refl).
  destruct (String.eqb _ ""); unfold bind.
  - destruct (rec fv h) as [[v [err|]] h1| | |]; try done.
    destruct (IsZero v); simpl; [apply IH|].
    destruct (assignTo _ _ _ _) as [w h2| | |]; [apply IH|done..].
  - destruct (lookup_fn _ _); [|done].
    destruct (Call _ _ _) as [v h1| | |]; try done.
    destruct (IsZero v); simpl; [apply IH|].
    destruct (assignTo _ _ _ _) as [w h2| | |]; [apply IH|done..].
Qed.

(** Once the first fields are copied without an error the loop goes on with
    the rest. *)
Lemma copyStruct_loop_app ot pre rest : ∀ i oc h oc' h',
  copyStruct_loop c rec ot pre i oc h = Return (oc', None) h' →
  copyStruct_loop c rec ot (pre ++ rest) i oc h =
    copyStruct_loop c rec ot rest (i + length pre) oc' h'.
Proof.
  induction pre as [|[f fv] pre IH]; intros i oc h oc' h' Hrun.
  - injection Hrun as <- <-. simpl. by rewrite Nat.add_0_r.
  - simpl in *. replace (i + S (length pre)) with (S i + length pre) by lia.
    destruct (CanInterface f); simpl in *; [|by apply IH].
    destruct (String.eqb _ "").
    + unfold bind in *.
      destruct (rec fv h) as [[v [err|]] h1| | |]; try done.
      destruct (IsZero v); simpl in *; [by apply IH|].
      destruct (assignTo _ _ _ _) as [w h2| | |]; [by apply IH|done..].
    + destruct (lookup_fn _ _); [|done]. unfold bind in *.
      destruct (Call _ _ _) as [v h1| | |]; try done.
      destruct (IsZero v); simpl in *; [by apply IH|].
      destruct (assignTo _ _ _ _) as [w h2| | |]; [by apply IH|done..].
Qed.

(** A loop that ends without an error got through its first fields
    without an error. *)
Lemma copyStruct_loop_prefix ot pre rest : ∀ i oc h res h',
  copyStruct_loop c rec ot (pre ++ rest) i oc h = Return (res, None) h' →
  ∃ oc1 h1,
    copyStruct_loop c rec ot pre i oc h = Return (oc1, None) h1 ∧
    copyStruct_loop c rec ot rest (i + length pre) oc1 h1
      = Return (res, None) h'.
Proof.
  induction pre as [|[f fv] pre IH]; intros i oc h res h' Hrun.
  - exists oc, h. simpl. by rewrite Nat.add_0_r.
  - simpl in *. replace (i + S (length pre)) with (S i + length pre) by lia.
    destruct (CanInterface f); simpl in *; [|by apply IH].
    destruct (String.eqb _ "").
    + unfold bind in *.
      destruct (rec fv h) as [[v [err|]] h1| | |]; try done.
      destruct (IsZero v); simpl in *; [by apply IH|].
      destruct (assignTo _ _ _ _) as [w h2| | |]; [by apply IH|done..].
    + destruct (lookup_fn _ _); [|done]. unfold bind in *.
      destruct (Call _ _ _) as [v h1| | |]; try done.
      destruct (IsZero v); simpl in *; [by apply IH|].
      destruct (assignTo _ _ _ _) as [w h2| | |]; [by apply IH|done..].
Qed.

End struct_loop_more.

(** A struct copy is a struct. *)
Lemma copy_struct_Copy (fuel : nat) (c : Config) nm fs h res h' :
  is_time (VStruct nm fs) = false →
  Copy (S fuel) c (Some (VStruct nm fs)) h = Return (Some res, None) h' →
  copy (S fuel) c (VStruct nm fs) h = Return (res, None) h'.
Proof.
  intros Ht HC. unfold Copy, ValueOf in HC.
  apply bind_inv in HC as ([oc [err|]] & h1 & Hc & HC); [done|].
  pose proof Hc as Hc'. rewrite copy_struct in Hc' by done.
  apply copyStruct_loop_fields in Hc' as (ofs' & -> & _).
  simpl in HC. by injection HC as <- <-.
Qed.

(** ** What the fields of a struct copy hold *)

(** C7 (as stated) fails for a floating-point negative zero in a field of a
    struct.  [c.copy] returns it as it is; but the copy of the struct does
    not assign what is zero, a negative zero is [== 0], and so the field of
    the copy is left at the zero value of its type, the positive zero:
    other bits than those of the original. *)
Lemma negative_zero_field_changed :
  copy 1 ∅ Ex10.minus_zero [] = Return (Ex10.minus_zero, None) [] ∧
  Copy 2 ∅ (Some (Ex10.S Ex10.minus_zero)) [] =
    Return (Some (Ex10.S (VBasic (builtin "float64") BFloat64 0)), None) [] ∧
  Field (Ex10.S Ex10.minus_zero) 0 = Some Ex10.minus_zero ∧
  Field (Ex10.S (VBasic (builtin "float64") BFloat64 0)) 0
    ≠ Some Ex10.minus_zero.
Proof. repeat split; try (vm_compute; reflexivity). vm_compute. discriminate. Qed.

(** C7 (amended).  A number, a boolean, a string, a function, a channel and
    any value of type [time.Time] is returned by [c.copy] as it is: the
    same bits, the same handle, no allocation.  An exported, untagged field
    that holds such a value holds in the copy of the struct the very same
    value when the value is not zero (a channel, say, that is not nil), and
    the zero value of its type when it is zero: which is the same value
    again, unless a part of it is zero without being so bit by bit, as a
    floating-point negative zero is. *)
Theorem scalar_like_unchanged (fuel : nat) (c : Config) (v : value) (h : heap) :
  scalar_like v = true →
  copy (S fuel) c v h = Return (v, None) h ∧
  ∀ nm fs k f res h',
    is_time (VStruct nm fs) = false →
    fs !! k = Some (f, v) →
    CanInterface f = true →
    Tag_Get (sfTag f) tagCcopy = "" →
    has_type v (sfType f) = true → wt v = true →
    Copy (S (S fuel)) c (Some (VStruct nm fs)) h = Return (Some res, None) h' →
    Field res k = Some (if IsZero v then Zero (sfType f) else v) ∧
    (odd_zero v = false → Field res k = Some v).
Proof.
  intros Hs. split; [by apply copy_scalar_like|].
  intros nm fs k f res h' Ht Hk Hexp Htag Hty Hwt HC.
  apply copy_struct_Copy in HC; [|done].
  destruct (copy_struct_fields _ _ _ _ _ _ _ Ht HC _ _ _ Hk)
    as (new & _ & Hnew & Hout).
  unfold field_outcome in Hout. rewrite Hexp, Htag in Hout.
  change (("" =? "")%string) with true in Hout. cbv iota in Hout.
  destruct Hout as (h1 & h2 & v' & Hv' & Hout).
  rewrite copy_scalar_like in Hv' by done. injection Hv' as <- _.
  assert (Hres : Field res k = Some (if IsZero v then Zero (sfType f) else v)).
  { rewrite Hnew. f_equal. destruct (IsZero v); [done|].
    rewrite assign_has_type in Hout by done. by injection Hout. }
  split; [done|]. intros Hodd. rewrite Hres. f_equal.
  destruct (IsZero v) eqn:Hz; [|done].
  symmetry. apply IsZero_Zero; [done..|]. by apply has_type_eq.
Qed.

Lemma scalar_like_unchanged_witness :
  copy 1 ∅ (VChan anon Ex.int (Some 7%N)) [] =
    Return (VChan anon Ex.int (Some 7%N), None) [] ∧
  Copy 2 ∅ (Some (VStruct (mkName "ccopy" "S")
                    [(Ex.field "C" "" [] (TChan anon Ex.int),
                      VChan anon Ex.int (Some 7%N))])) [] =
    Return (Some (VStruct (mkName "ccopy" "S")
                    [(Ex.field "C" "" [] (TChan anon Ex.int),
                      VChan anon Ex.int (Some 7%N))]), None) [] ∧
  Field (VStruct (mkName "ccopy" "S")
           [(Ex.field "C" "" [] (TChan anon Ex.int),
             VChan anon Ex.int (Some 7%N))]) 0
    = Some (VChan anon Ex.int (Some 7%N)).
Proof.
  destruct (scalar_like_unchanged 0 ∅ (VChan anon Ex.int (Some 7%N)) []
              eq_refl) as [Hc Hf].
  split; [exact Hc|]. split; [vm_compute; reflexivity|].
  apply (Hf (mkName "ccopy" "S")
            [(Ex.field "C" "" [] (TChan anon Ex.int),
              VChan anon Ex.int (Some 7%N))] 0
            (Ex.field "C" "" [] (TChan anon Ex.int)) _ []); try reflexivity.
Defined.

(** C1 (as stated) fails: a tagged field that is not exported is skipped;
    the registered function is not called and the field of the copy is
    zero. *)
Lemma tagged_unexported_field_not_transformed :
  ∃ res,
    Copy 2 Ex.registry (Some Ex.T_unexported) [] = Return (Some res, None) [] ∧
    FieldDecl Ex.T_unexported 1 =
      Some (Ex.field "name" "ccopy" ["anonymiseName"] Ex.str) ∧
    lookup_fn Ex.registry "anonymiseName" = Some Ex.anonymiseName ∧
    Field Ex.T_unexported 1 = Some (Ex.Str "Secret name") ∧
    (∀ h, Ex.anonymiseName (Ex.Str "Secret name") h
          = TReturn (Ex.Str "john doe") []) ∧
    Field res 1 = Some (Ex.Str "") ∧
    Field res 1 ≠ Some (Ex.Str "john doe").
Proof. eexists. split; [vm_compute; reflexivity|]. by repeat split. Qed.

(** C1 (amended).  In a successful [Copy] of a struct (other than a
    [time.Time]), an exported field whose [ccopy] tag names a function of
    the registry holds, in the copy, what that function returned when it
    was called on the field's original value, in the memory that the copy
    of the fields before it left; but when what it returned is zero the
    field is not assigned and holds the zero value of its type, which is
    another value when the function returned a floating-point negative
    zero.  The function is taken to return values of the field's type, as
    the registry asks.  The struct copy never consults [c.copy] about the
    field: it is the same whatever [c.copy] would do on any field that is
    tagged or unexported. *)
Theorem tagged_field_transformed (fuel : nat) (c : Config) nm fs (h : heap)
    res h' k f fv fn :
  is_time (VStruct nm fs) = false →
  fs !! k = Some (f, fv) →
  CanInterface f = true →
  Tag_Get (sfTag f) tagCcopy ≠ "" →
  lookup_fn c (Tag_Get (sfTag f) tagCcopy) = Some fn →
  (∀ h1 v cells, fn fv h1 = TReturn v cells →
                 has_type v (sfType f) = true) →
  Copy (S fuel) c (Some (VStruct nm fs)) h = Return (Some res, None) h' →
  (∃ oc h1 v cells,
     copyStruct_loop c (copy fuel c) (TStruct nm (fs.*1)) (take k fs) 0
       (Zero (TStruct nm (fs.*1))) h = Return (oc, None) h1 ∧
     fn fv h1 = TReturn v cells ∧
     Field res k = Some (if IsZero v then Zero (sfType f) else v)) ∧
  (∀ rec,
     (∀ f' fv', (f', fv') ∈ fs → CanInterface f' = true →
                Tag_Get (sfTag f') tagCcopy = "" →
                ∀ h0, rec fv' h0 = copy fuel c fv' h0) →
     copyStruct c rec (VStruct nm fs) h = copy (S fuel) c (VStruct nm fs) h).
Proof.
  intros Ht Hk Hexp Htag Hfn Hty HC. split.
  - apply copy_struct_Copy in HC; [|done].
    rewrite copy_struct in HC by done.
    pose proof (take_drop_middle _ _ _ Hk) as Hsplit.
    pose proof (lookup_lt_Some _ _ _ Hk) as Hlt.
    rewrite <- Hsplit in HC at 2.
    apply copyStruct_loop_prefix in HC as (oc1 & h1 & Hpre & Hrest).
    rewrite length_take_le in Hrest by lia. simpl in Hrest.
    (* the fields before [k] leave the field [k] as it is *)
    pose proof Hpre as Hpre'. simpl in Hpre'.
    apply copyStruct_loop_fields in Hpre' as (ofs1 & -> & Hall1).
    destruct (Hall1 k f (Zero (sfType f))) as (new1 & Hnew1 & Hspec1).
    { rewrite list_lookup_fmap, list_lookup_fmap, Hk. done. }
    rewrite decide_True, Nat.sub_0_r in Hspec1 by lia.
    rewrite lookup_take_ge in Hspec1 by lia. subst new1.
    rewrite Hexp in Hrest. apply String.eqb_neq in Htag.
    rewrite Htag, Hfn in Hrest. simpl in Hrest.
    apply bind_inv in Hrest as (v & h2 & Hv & Hrest).
    unfold Call in Hv. destruct (fn fv h1) as [v0 cells|] eqn:Hcall; [|done].
    injection Hv as -> <-.
    exists (VStruct nm ofs1), h1, v, cells. split; [done|]. split; [done|].
    destruct (IsZero v) eqn:Hz; simpl in Hrest.
    + (* nothing is assigned, and the fields after [k] leave it as it is *)
      apply copyStruct_loop_fields in Hrest as (ofs' & -> & Hall).
      destruct (Hall k _ _ Hnew1) as (new & Hnew & Hspec).
      rewrite decide_False in Hspec by lia. subst new.
      simpl. by rewrite Hnew.
    + apply bind_inv in Hrest as (w & h3 & Hw & Hrest).
      apply assignTo_inv in Hw as [Hw ->].
      rewrite assign_has_type in Hw by (by eapply Hty). injection Hw as <-.
      apply copyStruct_loop_fields in Hrest as (ofs' & -> & Hall).
      destruct (Hall k f v) as (new & Hnew & Hspec).
      { by rewrite list_lookup_alter_eq, Hnew1. }
      rewrite decide_False in Hspec by lia. subst new.
      simpl. by rewrite Hnew.
  - intros rec Hrec. rewrite copy_struct by done. simpl.
    by apply copyStruct_loop_ext.
Qed.

Lemma tagged_field_transformed_witness :
  (∃ oc h1 v cells,
     copyStruct_loop Ex.registry (copy 1 Ex.registry)
       (TStruct (mkName "ccopy" "T")
          [Ex.field "A" "" [] Ex.int;
           Ex.field "Name" "" ["anonymiseName"] Ex.str])
       [(Ex.field "A" "" [] Ex.int, Ex.Int 2)] 0
       (Zero (TStruct (mkName "ccopy" "T")
                [Ex.field "A" "" [] Ex.int;
                 Ex.field "Name" "" ["anonymiseName"] Ex.str])) []
       = Return (oc, None) h1 ∧
     Ex.anonymiseName (Ex.Str "Secret name") h1 = TReturn v cells ∧
     Field (VStruct (mkName "ccopy" "T")
              [(Ex.field "A" "" [] Ex.int, Ex.Int 2);
               (Ex.field "Name" "" ["anonymiseName"] Ex.str,
                Ex.Str "john doe")]) 1
       = Some (if IsZero v then Zero Ex.str else v)) ∧
  (∀ rec,
     (∀ f' fv',
        (f', fv') ∈ [(Ex.field "A" "" [] Ex.int, Ex.Int 2);
                     (Ex.field "Name" "" ["anonymiseName"] Ex.str,
                      Ex.Str "Secret name")] →
        CanInterface f' = true →
        Tag_Get (sfTag f') tagCcopy = "" →
        ∀ h0, rec fv' h0 = copy 1 Ex.registry fv' h0) →
     copyStruct Ex.registry rec Ex.T_example [] =
       copy 2 Ex.registry Ex.T_example []).
Proof.
  apply (tagged_field_transformed 1 Ex.registry (mkName "ccopy" "T")
           [(Ex.field "A" "" [] Ex.int, Ex.Int 2);
            (Ex.field "Name" "" ["anonymiseName"] Ex.str,
             Ex.Str "Secret name")] []
           (VStruct (mkName "ccopy" "T")
              [(Ex.field "A" "" [] Ex.int, Ex.Int 2);
               (Ex.field "Name" "" ["anonymiseName"] Ex.str,
                Ex.Str "john doe")]) [] 1
           (Ex.field "Name" "" ["anonymiseName"] Ex.str)
           (Ex.Str "Secret name") Ex.anonymiseName).
  - reflexivity.
  - reflexivity.
  - reflexivity.
  - simpl. discriminate.
  - reflexivity.
  - by intros h1 v cells [= <- _].
  - vm_compute. reflexivity.
Defined.

(** C3 (as stated) fails twice over.  A tagged field that is not exported is
    skipped, so the missing registration goes unnoticed and [Copy] returns a
    copy; and of two fields with unregistered tags only the first is
    reported. *)
Lemma missing_customiser_not_always_reported :
  (FieldDecl Ex.T_unexported 1 =
     Some (Ex.field "name" "ccopy" ["anonymiseName"] Ex.str) ∧
   lookup_fn ∅ "anonymiseName" = None ∧
   Copy 2 ∅ (Some Ex.T_unexported) [] =
     Return (Some (VStruct (mkName "ccopy" "T")
                     [(Ex.field "A" "" [] Ex.int, Ex.Int 2);
                      (Ex.field "name" "ccopy" ["anonymiseName"] Ex.str,
                       Ex.Str "")]), None) []) ∧
  (FieldDecl Ex.T_two_tags 1 = Some (Ex.field "B" "" ["B"] Ex.int) ∧
   lookup_fn ∅ "B" = None ∧
   Copy 2 ∅ (Some Ex.T_two_tags) [] =
     Return (None, Some "missing copy customiser for: A") [] ∧
   Copy 2 ∅ (Some Ex.T_two_tags) [] ≠
     Return (None, Some "missing copy customiser for: B") []).
Proof. repeat split; try (vm_compute; reflexivity). vm_compute. discriminate. Qed.

(** C3 (amended).  When an exported field of a struct (other than a
    [time.Time]) carries a [ccopy] tag that the registry has no function
    for, and the fields before it are copied without an error, [Copy]
    returns nil together with the error "missing copy customiser for: "
    followed by the tag. *)
Theorem missing_customiser_error (fuel : nat) (c : Config) nm pre f fv rest
    (h : heap) oc h1 :
  is_time (VStruct nm (pre ++ (f, fv) :: rest)) = false →
  CanInterface f = true →
  Tag_Get (sfTag f) tagCcopy ≠ "" →
  lookup_fn c (Tag_Get (sfTag f) tagCcopy) = None →
  copyStruct_loop c (copy fuel c)
    (TStruct nm ((pre ++ (f, fv) :: rest).*1)) pre 0
    (Zero (TStruct nm ((pre ++ (f, fv) :: rest).*1))) h = Return (oc, None) h1 →
  Copy (S fuel) c (Some (VStruct nm (pre ++ (f, fv) :: rest))) h =
    Return (None, Some ("missing copy customiser for: "
                          +:+ Tag_Get (sfTag f) tagCcopy)) h1.
Proof.
  intros Ht Hexp Htag Hfn Hpre. unfold Copy, ValueOf.
  rewrite (bind_Return _ _ _
             (Zero (TStruct nm ((pre ++ (f, fv) :: rest).*1)),
              Some ("missing copy customiser for: "
                      +:+ Tag_Get (sfTag f) tagCcopy)) h1); [done|].
  rewrite copy_struct by done.
  rewrite (copyStruct_loop_app _ _ _ _ _ _ _ _ _ _ Hpre). simpl.
  apply String.eqb_neq in Htag. by rewrite Hexp, Htag, Hfn.
Qed.

Lemma missing_customiser_error_witness :
  Copy 2 ∅ (Some Ex.T_example) [] =
    Return (None, Some "missing copy customiser for: anonymiseName") [].
Proof.
  apply (missing_customiser_error 1 ∅ (mkName "ccopy" "T")
           [(Ex.field "A" "" [] Ex.int, Ex.Int 2)]
           (Ex.field "Name" "" ["anonymiseName"] Ex.str)
           (Ex.Str "Secret name") [] []
           (VStruct (mkName "ccopy" "T")
              [(Ex.field "A" "" [] Ex.int, Ex.Int 2);
               (Ex.field "Name" "" ["anonymiseName"] Ex.str, Ex.Str "")]) []).
  - reflexivity.
  - reflexivity.
  - simpl. discriminate.
  - reflexivity.
  - vm_compute. reflexivity.
Defined.

(** C10 (as stated) fails twice over.  A struct with an unexported field is
    not always copied with success: here the tag of its exported field is
    not registered.  And a [time.Time], a struct of unexported fields only,
    is returned as it is: its unexported fields hold in the copy what they
    held in the original, not zero. *)
Lemma unexported_field_copy_fails :
  (FieldDecl Ex.T_hidden 0 = Some (Ex.field "a" "ccopy" [] Ex.int) ∧
   CanInterface (Ex.field "a" "ccopy" [] Ex.int) = false ∧
   Copy 2 ∅ (Some Ex.T_hidden) [] =
     Return (None, Some "missing copy customiser for: B") []) ∧
  (FieldDecl Ex.now 0 =
     Some (Ex.field "wall" "time" [] Ex.uint64) ∧
   CanInterface (Ex.field "wall" "time" [] Ex.uint64) = false ∧
   Copy 2 ∅ (Some Ex.now) [] = Return (Some Ex.now, None) [] ∧
   Field Ex.now 0 = Some (VBasic (builtin "uint64") BUint64 13) ∧
   Field Ex.now 0 ≠ Some (Zero Ex.uint64)).
Proof.
  split.
  - repeat split; vm_compute; reflexivity.
  - repeat split; try (vm_compute; reflexivity). vm_compute. discriminate.
Qed.

(** C10 (amended).  [Copy] of a struct (other than a [time.Time]) never
    looks at what the unexported fields hold: two structs of one type that
    agree on the exported fields have the same outcome.  And when [Copy]
    succeeds, every unexported field of the copy holds the zero value of its
    type, whatever the original held. *)
Theorem unexported_fields_skipped (fuel : nat) (c : Config) nm fs (h : heap) :
  is_time (VStruct nm fs) = false →
  (∀ fs', same_exported fs fs' →
          Copy (S fuel) c (Some (VStruct nm fs')) h =
          Copy (S fuel) c (Some (VStruct nm fs)) h) ∧
  (∀ res h' k f fv,
     Copy (S fuel) c (Some (VStruct nm fs)) h = Return (Some res, None) h' →
     fs !! k = Some (f, fv) →
     CanInterface f = false →
     Field res k = Some (Zero (sfType f))).
Proof.
  intros Ht. split.
  - intros fs' Hsame. unfold Copy, ValueOf.
    assert (Hd : fs'.*1 = fs.*1).
    { clear -Hsame. induction Hsame as [|x y ? ? [Hxy _] _ IH]; [done|].
      rewrite !fmap_cons. by rewrite Hxy, IH. }
    unfold bind. rewrite !copy_struct by done. rewrite Hd.
    by rewrite (copyStruct_loop_unexported _ _ _ fs fs').
  - intros res h' k f fv HC Hk Hexp.
    apply copy_struct_Copy in HC; [|done].
    destruct (copy_struct_fields _ _ _ _ _ _ _ Ht HC _ _ _ Hk)
      as (new & _ & Hnew & Hout).
    unfold field_outcome in Hout. rewrite Hexp in Hout. by subst new.
Qed.

Lemma unexported_fields_skipped_witness :
  Copy 2 Ex.registry
    (Some (VStruct (mkName "ccopy" "T")
             [(Ex.field "A" "" [] Ex.int, Ex.Int 2);
              (Ex.field "name" "ccopy" ["anonymiseName"] Ex.str,
               Ex.Str "another name")])) [] =
  Copy 2 Ex.registry (Some Ex.T_unexported) [] ∧
  Field (VStruct (mkName "ccopy" "T")
           [(Ex.field "A" "" [] Ex.int, Ex.Int 2);
            (Ex.field "name" "ccopy" ["anonymiseName"] Ex.str, Ex.Str "")]) 1
    = Some (Zero Ex.str).
Proof.
  destruct (unexported_fields_skipped 1 Ex.registry (mkName "ccopy" "T")
              [(Ex.field "A" "" [] Ex.int, Ex.Int 2);
               (Ex.field "name" "ccopy" ["anonymiseName"] Ex.str,
                Ex.Str "Secret name")] [] eq_refl) as [Hsame Hzero].
  split.
  - apply Hsame. repeat constructor. simpl. discriminate.
  - apply (Hzero _ [] 1 (Ex.field "name" "ccopy" ["anonymiseName"] Ex.str)
             (Ex.Str "Secret name")); reflexivity.
Defined.

(** ** Empty slices and maps *)

(** C9.  The copy of a slice that is empty but not nil is a slice that is
    empty and not nil, of the same type, on a backing array of its own; the
    copy of a map that is empty but not nil is a new map, empty and not nil,
    of the same type.  This holds at whatever depth and in whatever memory
    [c.copy] meets the value. *)
Theorem empty_stays_empty (fuel : nat) (c : Config) (h : heap) :
  (∀ nm e s,
     is_time (VSlice nm e (Some s)) = false → Len s = 0 →
     copy (S fuel) c (VSlice nm e (Some s)) h =
       Return (VSlice nm e (Some (mkSlice (length h) 0 0 0)), None)
              (h ++ [CArr []])) ∧
  (∀ nm kt et a,
     is_time (VMap nm kt et (Some a)) = false → h !! a = Some (CMap []) →
     copy (S fuel) c (VMap nm kt et (Some a)) h =
       Return (VMap nm kt et (Some (length h)), None) (h ++ [CMap []])).
Proof.
  split.
  - intros nm e s Ht Hlen. simpl. simpl in Ht. rewrite Ht.
    unfold copySlice, MakeSlice, new, bind, ret. by rewrite Hlen.
  - intros nm kt et a Ht Ha. simpl. simpl in Ht. rewrite Ht.
    unfold copyMap, new, load, bind.
    by rewrite (lookup_app_l_Some _ _ _ _ Ha).
Qed.

Lemma empty_stays_empty_witness :
  copy 1 ∅ (VSlice anon Ex.int (Some (mkSlice 0 1 0 3))) Ex3.mem =
    Return (VSlice anon Ex.int (Some (mkSlice 1 0 0 0)), None)
           (Ex3.mem ++ [CArr []]) ∧
  copy 1 ∅ (VMap anon Ex.str Ex.int (Some 0)) [CMap []] =
    Return (VMap anon Ex.str Ex.int (Some 1), None) [CMap []; CMap []].
Proof.
  split.
  - apply (proj1 (empty_stays_empty 0 ∅ Ex3.mem)); reflexivity.
  - apply (proj2 (empty_stays_empty 0 ∅ [CMap []])); reflexivity.
Defined.

(** ** Loops that got through their first rounds *)

Section loops.

Context (rec : value → M (value * error)).

Lemma copySlice_loop_split nm e s k2 : ∀ k1 i oc h oc' h1,
  copySlice_loop rec nm e s i k1 oc h
    = Return (VSlice nm e (Some oc'), None) h1 →
  copySlice_loop rec nm e s i (k1 + k2) oc h
    = copySlice_loop rec nm e s (i + k1) k2 oc' h1.
Proof.
  induction k1 as [|k1 IH]; intros i oc h oc' h1 Hrun.
  - injection Hrun as <- <-. simpl. by rewrite Nat.add_0_r.
  - simpl in *. replace (i + S k1) with (S i + k1) by lia.
    unfold bind in *.
    destruct (Index s i h) as [x h0| | |]; try done.
    destruct (rec x h0) as [[v [err|]] h2| | |]; try done.
    destruct (Append e oc v h2) as [oc1 h3| | |]; try done.
    by apply IH.
Qed.

(** Within the capacity [Append] writes in place. *)
Lemma Append_in_place e s x w h es :
  h !! Data s = Some (CArr es) → Len s < Cap s → assign e x = Some w →
  Append e s x h =
    Return (mkSlice (Data s) (Off s) (S (Len s)) (Cap s))
           (<[Data s := CArr (<[Off s + Len s := w]> es)]> h).
Proof.
  intros Hd Hlt Hw. unfold Append, load, store, bind, ret. rewrite Hd.
  rewrite (assignTo_assign _ _ _ _ _ Hw).
  rewrite decide_True by done.
  rewrite decide_True; [done|]. by eapply lookup_lt_Some.
Qed.

(** What an [Append] that returns has done. *)
Lemma Append_inv e s x h s' h' :
  Append e s x h = Return s' h' →
  ∃ es w,
    h !! Data s = Some (CArr es) ∧ assign e x = Some w ∧
    if decide (Len s < Cap s)
    then s' = mkSlice (Data s) (Off s) (S (Len s)) (Cap s) ∧
         h' = <[Data s := CArr (<[Off s + Len s := w]> es)]> h
    else s' = mkSlice (length h) 0 (S (Len s))
                (max (S (Len s)) (2 * Cap s)) ∧
         h' = h ++ [CArr (take (Len s) (drop (Off s) es) ++ w ::
                      replicate (max (S (Len s)) (2 * Cap s) - S (Len s))
                                (Zero e))].
Proof.
  intros Happ. unfold Append, load in Happ.
  apply bind_inv in Happ as (cl & h1 & Hcl & Happ).
  destruct (h !! Data s) as [cl'|] eqn:Hd; [|done]. injection Hcl as -> ->.
  destruct cl as [| es |]; try done.
  apply bind_inv in Happ as (w & h2 & Hw & Happ).
  apply assignTo_inv in Hw as [Hw ->].
  exists es, w. split; [done|]. split; [done|].
  unfold store, new, bind, ret in Happ.
  destruct (decide (Len s < Cap s)).
  - destruct (decide (Data s < length h1)); [|done]. by injection Happ as <- <-.
  - by injection Happ as <- <-.
Qed.

Lemma Append_in_place_inv e s x h s' h' :
  Append e s x h = Return s' h' → Len s < Cap s →
  s' = mkSlice (Data s) (Off s) (S (Len s)) (Cap s).
Proof.
  intros Happ Hlt. apply Append_inv in Happ as (es & w & _ & _ & Happ).
  rewrite decide_True in Happ by done. by destruct Happ.
Qed.

Lemma copyArray_loop_split ot nm e a rest : ∀ pre slice h r h1,
  Len slice + length pre ≤ Cap slice →
  copyArray_loop rec ot nm e a pre slice h = Return (r, None) h1 →
  copyArray_loop rec ot nm e a (pre ++ rest) slice h
    = copyArray_loop rec ot nm e a rest
        (mkSlice (Data slice) (Off slice) (Len slice + length pre)
                 (Cap slice)) h1.
Proof.
  induction pre as [|x pre IH]; intros slice h r h1 Hcap Hrun.
  - simpl in *. unfold bind, load in Hrun.
    destruct (h !! a) as [[| es |]|]; try done. injection Hrun as _ <-.
    rewrite Nat.add_0_r. by destruct slice.
  - simpl in *. unfold bind in *.
    destruct (rec x h) as [[v [err|]] h2| | |]; try done.
    destruct (Append e slice v h2) as [s' h3| | |] eqn:Happ; try done.
    apply Append_in_place_inv in Happ as ->; [|lia].
    assert (Hcap' : Len (mkSlice (Data slice) (Off slice) (S (Len slice))
                                 (Cap slice)) + length pre
                    ≤ Cap (mkSlice (Data slice) (Off slice) (S (Len slice))
                                   (Cap slice))) by (simpl; lia).
    rewrite (IH _ _ _ _ Hcap' Hrun). simpl.
    do 2 f_equal. lia.
Qed.

Lemma copyMap_loop_split nm kt et oc rest : ∀ pre h r h1,
  copyMap_loop rec nm kt et oc pre h = Return (r, None) h1 →
  copyMap_loop rec nm kt et oc (pre ++ rest) h
    = copyMap_loop rec nm kt et oc rest h1.
Proof.
  induction pre as [|[key val] pre IH]; intros h r h1 Hrun.
  - by injection Hrun as _ <-.
  - simpl in *. unfold bind in *.
    destruct (rec key h) as [[k [err|]] h2| | |]; try done.
    destruct (rec val h2) as [[v [err|]] h3| | |]; try done.
    destruct (SetMapIndex kt et oc k v h3) as [[] h4| | |]; try done.
    by eapply IH.
Qed.

End loops.

(** ** Raw memory addresses *)

Lemma copy_raw_address (fuel : nat) (c : Config) nm b bits (h : heap) :
  raw_address b = true →
  is_time (VBasic nm b bits) = false →
  copy (S fuel) c (VBasic nm b bits) h =
    Panicked ("unsupported type: " +:+ reflect.KindString (basic_kind b)).
Proof.
  intros Hraw Ht. simpl. simpl in Ht. rewrite Ht. by destruct b.
Qed.

(** A panic of a call under [v] is a panic of the copy of [v]. *)
Lemma calls_panic (c : Config) n v h m u h' msg :
  calls c n v h m u h' →
  copy m c u h' = Panicked msg →
  copy n c v h = Panicked msg.
Proof.
  induction 1 as [n v h
                 |n nm e a x h m u h' Ht Ha _ IH
                 |n nm x h m u h' Ht _ IH
                 |n nm pre f fv rest h oc h1 m u h' Ht Hexp Htag Hpre _ IH
                 |n nm e s i h oc h1 x m u h' Ht Hi Hpre Hx _ IH
                 |n nm e pre x rest h r h1 m u h' Ht Hpre _ IH
                 |n nm kt et a pre key val rest h r h1 m u h' Ht Ha Hpre _ IH
                 |n nm kt et a pre key val rest h r h1 k h2 m u h'
                    Ht Ha Hpre Hk _ IH];
    intros Hp; [done|specialize (IH Hp)..].
  - simpl. simpl in Ht. rewrite Ht.
    unfold copyPointer, new, load, bind.
    rewrite (lookup_app_l_Some _ _ _ _ Ha). by rewrite IH.
  - simpl. simpl in Ht. rewrite Ht. unfold copyInterface, bind. by rewrite IH.
  - rewrite copy_struct by done.
    rewrite (copyStruct_loop_app _ _ _ _ _ _ _ _ _ _ Hpre). simpl.
    rewrite Hexp, Htag. simpl. unfold bind. by rewrite IH.
  - simpl. simpl in Ht. rewrite Ht.
    unfold copySlice, MakeSlice, new, bind, ret.
    pose proof (copySlice_loop_split _ nm e s (S (Len s - S i))
                  _ _ _ _ _ _ Hpre) as Hsplit.
    replace (i + S (Len s - S i)) with (Len s) in Hsplit by lia.
    rewrite Hsplit. simpl. unfold bind. by rewrite Hx, IH.
  - simpl. simpl in Ht. rewrite Ht. unfold copyArray, new, bind.
    erewrite copyArray_loop_split; [|simpl; rewrite length_app; lia|done].
    simpl. unfold bind. by rewrite IH.
  - simpl. simpl in Ht. rewrite Ht. unfold copyMap, new, load, bind.
    rewrite (lookup_app_l_Some _ _ _ _ Ha).
    rewrite (copyMap_loop_split _ _ _ _ _ _ _ _ _ _ Hpre).
    simpl. unfold bind. by rewrite IH.
  - simpl. simpl in Ht. rewrite Ht. unfold copyMap, new, load, bind.
    rewrite (lookup_app_l_Some _ _ _ _ Ha).
    rewrite (copyMap_loop_split _ _ _ _ _ _ _ _ _ _ Hpre).
    simpl. unfold bind. by rewrite Hk, IH.
Qed.

(** C5.  When the copy of [v] gets to a [uintptr] or an [unsafe.Pointer],
    at [v] itself or anywhere under it, [c.copy] panics with the message
    "unsupported type: " followed by the kind, and so does [Copy]: no error
    is returned, the whole copy is unwound. *)
Theorem raw_address_panics (c : Config) n v (h : heap) m nm b bits h' :
  raw_address b = true →
  is_time (VBasic nm b bits) = false →
  calls c n v h (S m) (VBasic nm b bits) h' →
  copy n c v h =
    Panicked ("unsupported type: " +:+ reflect.KindString (basic_kind b)) ∧
  Copy n c (Some v) h =
    Panicked ("unsupported type: " +:+ reflect.KindString (basic_kind b)).
Proof.
  intros Hraw Ht Hcalls.
  assert (Hp : copy n c v h =
    Panicked ("unsupported type: " +:+ reflect.KindString (basic_kind b))).
  { eapply calls_panic; [done|]. by apply copy_raw_address. }
  split; [done|]. unfold Copy, ValueOf, bind. by rewrite Hp.
Qed.

Lemma raw_address_panics_witness :
  copy 3 ∅ Ex2.ptr Ex2.mem = Panicked "unsupported type: uintptr" ∧
  Copy 3 ∅ (Some Ex2.ptr) Ex2.mem = Panicked "unsupported type: uintptr".
Proof.
  apply (raw_address_panics ∅ 3 Ex2.ptr Ex2.mem 0 (builtin "uintptr")
           BUintptr 4096
           (Ex2.mem ++ [CVal (Zero (TStruct (mkName "ccopy" "S")
                                      [Ex.field "A" "" [] Ex.int;
                                       Ex.field "P" "" []
                                         Ex.uintptr]))])).
  - reflexivity.
  - reflexivity.
  - apply calls_pointer with (x := Ex2.S_raw); [reflexivity..|].
    eapply (calls_field ∅ 1 (mkName "ccopy" "S")
              [(Ex.field "A" "" [] Ex.int, Ex.Int 1)]
              (Ex.field "P" "" [] Ex.uintptr)
              (VBasic (builtin "uintptr") BUintptr 4096) []);
      [reflexivity..|].
    apply calls_here.
Defined.

(** ** The copy only adds to the memory *)

Lemma prefix_insert (h0 h : heap) a cl :
  h0 `prefix_of` h → length h0 ≤ a → h0 `prefix_of` <[a := cl]> h.
Proof.
  intros [k ->] Ha. rewrite insert_app_r_alt by done. by apply prefix_app_r.
Qed.

Lemma prefix_snoc (h0 h : heap) cl :
  h0 `prefix_of` h → h0 `prefix_of` h ++ [cl].
Proof. apply prefix_app_r. Qed.

Lemma Call_framed fn : framed (Call fn).
Proof.
  intros arg h v h' Hc. unfold Call in Hc.
  destruct (fn arg h); [|done]. injection Hc as _ <-. by apply prefix_app_r.
Qed.

Lemma Append_frame e s x h s' h' h0 :
  Append e s x h = Return s' h' →
  h0 `prefix_of` h → length h0 ≤ Data s →
  h0 `prefix_of` h' ∧ length h0 ≤ Data s'.
Proof.
  intros Happ Hpre Hd. apply Append_inv in Happ as (es & w & _ & _ & Happ).
  destruct (decide (Len s < Cap s)); destruct Happ as [-> ->].
  - split; [by apply prefix_insert|done].
  - split; [by apply prefix_snoc|]. simpl. by apply prefix_length.
Qed.

(** What a [SetMapIndex] that returns has done. *)
Lemma SetMapIndex_inv kt et a k v h u h' :
  SetMapIndex kt et a k v h = Return u h' →
  ∃ k' v' kvs,
    assign kt k = Some k' ∧ assign et v = Some v' ∧
    h !! a = Some (CMap kvs) ∧ h' = <[a := CMap (map_set kvs k' v')]> h.
Proof.
  intros Hset. unfold SetMapIndex in Hset.
  apply bind_inv in Hset as (k' & h1 & Hk & Hset).
  apply assignTo_inv in Hk as [Hk ->].
  apply bind_inv in Hset as (v' & h2 & Hv & Hset).
  apply assignTo_inv in Hv as [Hv ->].
  unfold load, store, bind in Hset.
  destruct (h !! a) as [[| | kvs]|] eqn:Ha; try done.
  destruct (decide (a < length h)); [|done]. injection Hset as _ <-.
  by exists k', v', kvs.
Qed.

Lemma SetMapIndex_set kt et a k v k' v' kvs h :
  assign kt k = Some k' → assign et v = Some v' →
  h !! a = Some (CMap kvs) →
  SetMapIndex kt et a k v h = Return tt (<[a := CMap (map_set kvs k' v')]> h).
Proof.
  intros Hk Hv Ha. unfold SetMapIndex, bind at 1.
  rewrite (assignTo_assign _ _ _ _ _ Hk). unfold bind at 1.
  rewrite (assignTo_assign _ _ _ _ _ Hv). unfold load, store, bind.
  rewrite Ha. rewrite decide_True; [done|]. by eapply lookup_lt_Some.
Qed.

Lemma SetMapIndex_frame kt et a k v h u h' h0 :
  SetMapIndex kt et a k v h = Return u h' →
  h0 `prefix_of` h → length h0 ≤ a → h0 `prefix_of` h'.
Proof.
  intros Hset Hpre Ha.
  apply SetMapIndex_inv in Hset as (k' & v' & kvs & _ & _ & _ & ->).
  by apply prefix_insert.
Qed.

Section frame.

Context (c : Config) (rec : value → M (value * error)).
Hypothesis rec_framed : framed rec.

Lemma copyStruct_loop_framed ot fs : ∀ i oc h r h',
  copyStruct_loop c rec ot fs i oc h = Return r h' → h `prefix_of` h'.
Proof.
  induction fs as [|[f fv] rest IH]; intros i oc h r h' Hrun; simpl in Hrun.
  - by injection Hrun as _ <-.
  - destruct (CanInterface f); simpl in Hrun; [|by eapply IH].
    destruct (String.eqb _ "").
    + apply bind_inv in Hrun as ([v [err|]] & h1 & Hv & Hrun);
        apply rec_framed in Hv.
      * by injection Hrun as _ <-.
      * etrans; [done|]. destruct (IsZero v); simpl in Hrun; [by eapply IH|].
        apply bind_inv in Hrun as (w & h2 & Hw & Hrun).
        apply assignTo_inv in Hw as [_ ->]. by eapply IH.
    + destruct (lookup_fn _ _) as [fn|]; [|by injection Hrun as _ <-].
      apply bind_inv in Hrun as (v & h1 & Hv & Hrun).
      apply Call_framed in Hv. etrans; [done|].
      destruct (IsZero v); simpl in Hrun; [by eapply IH|].
      apply bind_inv in Hrun as (w & h2 & Hw & Hrun).
      apply assignTo_inv in Hw as [_ ->]. by eapply IH.
Qed.

Lemma copyPointer_framed : framed (copyPointer rec).
Proof.
  intros ov h r h' Hrun. unfold copyPointer in Hrun.
  destruct ov as [| | | | |nm e [a|]| | | | |]; try done;
    [|by injection Hrun as _ <-].
  unfold new, load, bind in Hrun.
  destruct ((h ++ _) !! a) as [[x| |]|]; try done.
  destruct (rec x _) as [[v [err|]] h1| | |] eqn:Hv; try done;
    apply rec_framed in Hv;
    assert (Hh : h `prefix_of` h1) by (etrans; [|done]; by apply prefix_app_r).
  - by injection Hrun as _ <-.
  - destruct (IsZero v); simpl in Hrun; [by injection Hrun as _ <-|].
    apply bind_inv in Hrun as (w & h2 & Hw & Hrun).
    apply assignTo_inv in Hw as [_ ->]. unfold store, bind, ret in Hrun.
    destruct (decide (length h < length h1)); [|done].
    injection Hrun as _ <-. by apply prefix_insert.
Qed.

Lemma copyInterface_framed : framed (copyInterface rec).
Proof.
  intros ov h r h' Hrun. unfold copyInterface in Hrun.
  destruct ov as [| | | | | | | | |nm [x|]|]; try done;
    [|by injection Hrun as _ <-].
  apply bind_inv in Hrun as ([v [err|]] & h1 & Hv & Hrun);
    apply rec_framed in Hv; [by injection Hrun as _ <-|].
  apply bind_inv in Hrun as (w & h2 & Hw & Hrun).
  apply assignTo_inv in Hw as [_ ->]. by injection Hrun as _ <-.
Qed.

Lemma Index_frame s i h x h' : Index s i h = Return x h' → h' = h.
Proof.
  unfold Index, load, bind, ret, undefined. intros Hi.
  destruct (h !! Data s) as [[| es |]|]; try done.
  destruct (es !! _); [|done]. by injection Hi as _ <-.
Qed.

Lemma copySlice_loop_framed nm e s h0 : ∀ todo i oc h r h',
  copySlice_loop rec nm e s i todo oc h = Return r h' →
  h0 `prefix_of` h → length h0 ≤ Data oc → h0 `prefix_of` h'.
Proof.
  induction todo as [|todo IH]; intros i oc h r h' Hrun Hpre Hd;
    simpl in Hrun.
  - by injection Hrun as _ <-.
  - apply bind_inv in Hrun as (x & h1 & Hx & Hrun).
    apply Index_frame in Hx as ->.
    apply bind_inv in Hrun as ([v [err|]] & h2 & Hv & Hrun);
      apply rec_framed in Hv.
    + injection Hrun as _ <-. by etrans.
    + apply bind_inv in Hrun as (oc' & h3 & Happ & Hrun).
      eapply Append_frame in Happ as [Hpre' Hd']; [|by etrans|done].
      by eapply IH.
Qed.

Lemma copySlice_framed : framed (copySlice rec).
Proof.
  intros ov h r h' Hrun. unfold copySlice in Hrun.
  destruct ov as [| | | | | |nm e [s|]| | | |]; try done;
    [|by injection Hrun as _ <-].
  unfold MakeSlice, new, bind, ret in Hrun.
  eapply copySlice_loop_framed in Hrun; [done|by apply prefix_app_r|done].
Qed.

Lemma copyArray_loop_framed ot nm e a h0 : ∀ es slice h r h',
  copyArray_loop rec ot nm e a es slice h = Return r h' →
  h0 `prefix_of` h → length h0 ≤ Data slice → h0 `prefix_of` h'.
Proof.
  induction es as [|x es IH]; intros slice h r h' Hrun Hpre Hd;
    simpl in Hrun.
  - unfold load, bind in Hrun. destruct (h !! a) as [[| es' |]|]; try done.
    by injection Hrun as _ <-.
  - apply bind_inv in Hrun as ([v [err|]] & h2 & Hv & Hrun);
      apply rec_framed in Hv.
    + injection Hrun as _ <-. by etrans.
    + apply bind_inv in Hrun as (oc' & h3 & Happ & Hrun).
      eapply Append_frame in Happ as [Hpre' Hd']; [|by etrans|done].
      by eapply IH.
Qed.

Lemma copyArray_framed : framed (copyArray rec).
Proof.
  intros ov h r h' Hrun. unfold copyArray in Hrun.
  destruct ov as [| | | | | | |nm e es| | |]; try done.
  unfold new, bind in Hrun.
  eapply copyArray_loop_framed in Hrun; [done|by apply prefix_app_r|done].
Qed.

Lemma copyMap_loop_framed nm kt et oc h0 : ∀ kvs h r h',
  copyMap_loop rec nm kt et oc kvs h = Return r h' →
  h0 `prefix_of` h → length h0 ≤ oc → h0 `prefix_of` h'.
Proof.
  induction kvs as [|[key val] kvs IH]; intros h r h' Hrun Hpre Hd;
    simpl in Hrun.
  - by injection Hrun as _ <-.
  - apply bind_inv in Hrun as ([k [err|]] & h1 & Hk & Hrun);
      apply rec_framed in Hk.
    { injection Hrun as _ <-. by etrans. }
    apply bind_inv in Hrun as ([v [err|]] & h2 & Hv & Hrun);
      apply rec_framed in Hv.
    { injection Hrun as _ <-. by do 2 (etrans; [|done]). }
    apply bind_inv in Hrun as (u & h3 & Hset & Hrun).
    eapply SetMapIndex_frame in Hset; [|by do 2 (etrans; [|done])|done].
    by eapply IH.
Qed.

Lemma copyMap_framed : framed (copyMap rec).
Proof.
  intros ov h r h' Hrun. unfold copyMap in Hrun.
  destruct ov as [| | | | | | | |nm kt et [a|]| |]; try done;
    [|by injection Hrun as _ <-].
  unfold new, load, bind in Hrun.
  destruct ((h ++ _) !! a) as [[| |kvs]|]; try done.
  eapply copyMap_loop_framed in Hrun; [done|by apply prefix_app_r|done].
Qed.

End frame.

Lemma copy_S (fuel : nat) (c : Config) (ov : value) :
  copy (S fuel) c ov =
    if negb (IsValid ov) then ret (VInvalid, Some "invalid value")
    else if is_time ov then copyTime ov
    else
      match Kind ov with
      | reflect.Struct => copyStruct c (copy fuel c) ov
      | reflect.Ptr => copyPointer (copy fuel c) ov
      | reflect.Slice => copySlice (copy fuel c) ov
      | reflect.Map => copyMap (copy fuel c) ov
      | reflect.Interface => copyInterface (copy fuel c) ov
      | reflect.Array => copyArray (copy fuel c) ov
      | reflect.Invalid | reflect.Uintptr | reflect.UnsafePointer =>
          panic ("unsupported type: " +:+ reflect.KindString (Kind ov))
      | _ => ret (ov, None)
      end.
Proof. simpl. by destruct (Kind ov). Qed.

(** The copy leaves every cell it finds in the memory as it is. *)
Lemma copy_framed (fuel : nat) (c : Config) : framed (copy fuel c).
Proof.
  induction fuel as [|fuel IH]; intros ov h r h' Hrun; [done|].
  rewrite copy_S in Hrun.
  destruct ov as [|nm b bits| | | | | | | | |];
    cbn [IsValid negb Kind] in Hrun;
    try (destruct (is_time _); [by injection Hrun as _ <-|]);
    try (by injection Hrun as _ <-).
  - destruct b; simpl in Hrun; try done; by injection Hrun as _ <-.
  - exact (copyPointer_framed _ IH _ _ _ _ Hrun).
  - exact (copySlice_framed _ IH _ _ _ _ Hrun).
  - exact (copyArray_framed _ IH _ _ _ _ Hrun).
  - exact (copyMap_framed _ IH _ _ _ _ Hrun).
  - exact (copyInterface_framed _ IH _ _ _ _ Hrun).
  - exact (copyStruct_loop_framed _ _ IH _ _ _ _ _ _ _ Hrun).
Qed.

(** ** The type of the copy *)

Lemma Type_Field_Set nm fs i v :
  Type_ (Field_Set (VStruct nm fs) i v) = Type_ (VStruct nm fs).
Proof.
  simpl. do 2 f_equal. apply list_eq. intros k.
  rewrite !list_lookup_fmap. destruct (decide (k = i)) as [->|Hk].
  - rewrite list_lookup_alter_eq. by destruct (fs !! i).
  - by rewrite list_lookup_alter_ne.
Qed.

(** What [c.copy] returns for a value of type [t] can be assigned to a
    place of type [t]. *)
Lemma assign_copy_type x t w :
  has_type x t = true → Type_ w = copy_type x → is_Some (assign t w).
Proof.
  intros Hx Hw. unfold copy_type in Hw. destruct (is_time x).
  - exists w. apply assign_has_type. apply has_type_eq.
    rewrite Hw. by apply has_type_eq.
  - eexists. by apply (assign_new_type x t w).
Qed.

Section types.

Context (c : Config) (rec : value → M (value * error)).

Lemma copyStruct_loop_typed ot fs : ∀ i oc h res h',
  copyStruct_loop c rec ot fs i oc h = Return (res, None) h' →
  Kind oc = reflect.Struct →
  Type_ res = Type_ oc ∧ Kind res = reflect.Struct.
Proof.
  induction fs as [|[f fv] rest IH]; intros i oc h res h' Hrun Hoc;
    simpl in Hrun.
  - by injection Hrun as <- _.
  - assert (Hset : ∀ v, Kind (Field_Set oc i v) = reflect.Struct ∧
                        Type_ (Field_Set oc i v) = Type_ oc).
    { intros v. destruct oc; try done. split; [done|apply Type_Field_Set]. }
    destruct (CanInterface f); simpl in Hrun; [|by eapply IH].
    destruct (String.eqb _ "").
    + apply bind_inv in Hrun as ([v [err|]] & h1 & Hv & Hrun); [done|].
      destruct (IsZero v); simpl in Hrun; [by eapply IH|].
      apply bind_inv in Hrun as (w & h2 & Hw & Hrun).
      destruct (Hset w) as [HK <-]. by eapply IH.
    + destruct (lookup_fn _ _) as [fn|]; [|done].
      apply bind_inv in Hrun as (v & h1 & Hv & Hrun).
      destruct (IsZero v); simpl in Hrun; [by eapply IH|].
      apply bind_inv in Hrun as (w & h2 & Hw & Hrun).
      destruct (Hset w) as [HK <-]. by eapply IH.
Qed.

Lemma copyStruct_typed : typed (copyStruct c rec).
Proof.
  intros ov h r h' Hrun. destruct ov; try done. unfold copyStruct in Hrun.
  apply copyStruct_loop_typed in Hrun as [Hty HK]; [|done].
  unfold new_type. rewrite Hty, Type_Zero. split; [done|]. by destruct r.
Qed.

Lemma copyPointer_typed : typed (copyPointer rec).
Proof.
  intros ov h r h' Hrun. unfold copyPointer in Hrun.
  destruct ov as [| | | | |nm e [a|]| | | | |]; try done;
    [|by injection Hrun as <- _].
  unfold new, load, bind in Hrun.
  destruct ((h ++ _) !! a) as [[x| |]|]; try done.
  destruct (rec x _) as [[v [err|]] h1| | |] eqn:Hv; try done.
  destruct (IsZero v); simpl in Hrun; [by injection Hrun as <- _|].
  destruct (assignTo _ _ _ _) as [w h2| | |]; try done.
  unfold store, ret in Hrun.
  destruct (decide _); [|done]. by injection Hrun as <- _.
Qed.

Lemma copyInterface_typed : typed (copyInterface rec).
Proof.
  intros ov h r h' Hrun. unfold copyInterface in Hrun.
  destruct ov as [| | | | | | | | |nm [x|]|]; try done;
    [|by injection Hrun as <- _].
  apply bind_inv in Hrun as ([v [e'|]] & h1 & Hv & Hrun); [done|].
  apply bind_inv in Hrun as (w & h2 & Hw & Hrun). injection Hrun as <- _.
  apply assignTo_inv in Hw as [Hw _]. by apply Type_assign in Hw.
Qed.

Lemma copySlice_loop_typed nm e s : ∀ todo i oc h r h',
  copySlice_loop rec nm e s i todo oc h = Return (r, None) h' →
  ∃ oc', r = VSlice nm e (Some oc').
Proof.
  induction todo as [|todo IH]; intros i oc h r h' Hrun; simpl in Hrun.
  - injection Hrun as <- _. by eexists.
  - apply bind_inv in Hrun as (x & h1 & Hx & Hrun).
    apply bind_inv in Hrun as ([v [e'|]] & h2 & Hv & Hrun); [done|].
    apply bind_inv in Hrun as (oc' & h3 & Happ & Hrun). by eapply IH.
Qed.

Lemma copySlice_typed : typed (copySlice rec).
Proof.
  intros ov h r h' Hrun. unfold copySlice in Hrun.
  destruct ov as [| | | | | |nm e [s|]| | | |]; try done;
    [|by injection Hrun as <- _].
  unfold MakeSlice, new, bind, ret in Hrun.
  by apply copySlice_loop_typed in Hrun as [oc' ->].
Qed.

Lemma copyMap_loop_typed nm kt et oc : ∀ kvs h r h',
  copyMap_loop rec nm kt et oc kvs h = Return (r, None) h' →
  r = VMap nm kt et (Some oc).
Proof.
  induction kvs as [|[key val] kvs IH]; intros h r h' Hrun; simpl in Hrun.
  - by injection Hrun as <- _.
  - apply bind_inv in Hrun as ([k [e'|]] & h1 & Hk & Hrun); [done|].
    apply bind_inv in Hrun as ([v [e'|]] & h2 & Hv & Hrun); [done|].
    apply bind_inv in Hrun as (u & h3 & Hset & Hrun). by eapply IH.
Qed.

Lemma copyMap_typed : typed (copyMap rec).
Proof.
  intros ov h r h' Hrun. unfold copyMap in Hrun.
  destruct ov as [| | | | | | | |nm kt et [a|]| |]; try done;
    [|by injection Hrun as <- _].
  unfold new, load, bind in Hrun.
  destruct ((h ++ _) !! a) as [[| |kvs]|]; try done.
  by apply copyMap_loop_typed in Hrun as ->.
Qed.

End types.

(** ** Slices and arrays *)

Lemma insert_fill {A} (vs : list A) k z w :
  <[length vs := w]> (vs ++ replicate (S k) z) = (vs ++ [w]) ++ replicate k z.
Proof.
  rewrite insert_app_r_alt by lia. rewrite Nat.sub_diag.
  by rewrite <- app_assoc.
Qed.

(** Appending to a slice over a partly filled array fills the next place. *)
Lemma Append_fill e a vs k z v w (h : heap) :
  h !! a = Some (CArr (vs ++ replicate (S k) z)) → assign e v = Some w →
  Append e (mkSlice a 0 (length vs) (length vs + S k)) v h =
    Return (mkSlice a 0 (S (length vs)) (length vs + S k))
           (<[a := CArr (<[length vs := w]> (vs ++ replicate (S k) z))]> h).
Proof.
  intros Ha Hw. erewrite Append_in_place; [done|done|simpl; lia|done].
Qed.

Lemma Append_fill_inv e a vs k z v (h : heap) s' h' :
  h !! a = Some (CArr (vs ++ replicate (S k) z)) →
  Append e (mkSlice a 0 (length vs) (length vs + S k)) v h = Return s' h' →
  ∃ w, assign e v = Some w ∧
       s' = mkSlice a 0 (S (length vs)) (length vs + S k) ∧
       h' = <[a := CArr (<[length vs := w]> (vs ++ replicate (S k) z))]> h.
Proof.
  intros Ha Happ. apply Append_inv in Happ as (es & w & Hes & Hw & Happ).
  simpl in *. rewrite Ha in Hes. injection Hes as <-.
  rewrite decide_True in Happ by lia. destruct Happ as [-> ->]. by exists w.
Qed.

Lemma lookup_subslice (es : list value) off len i x :
  i < len → es !! (off + i) = Some x →
  take len (drop off es) !! i = Some x.
Proof. intros Hi Hx. by rewrite lookup_take_lt, lookup_drop. Qed.

Lemma filled_length rec e a i h xs ws h' :
  filled rec e a i h xs ws h' → length ws = length xs.
Proof. induction 1; simpl; by f_equal. Qed.

Section sequences.

Context (rec : value → M (value * error)).
Hypothesis rec_framed : framed rec.

(** The state of the loops of [copySlice] and [copyArray] after [length vs]
    rounds: the new array, at [a], holds the copies [vs] made so far, and
    zero values in the places still to fill. *)
Lemma copySlice_loop_spec nm e s es (h0 : heap) a :
  h0 !! Data s = Some (CArr es) → length h0 ≤ a →
  ∀ todo vs h res h',
    h0 `prefix_of` h →
    length vs + todo = Len s →
    h !! a = Some (CArr (vs ++ replicate todo (Zero e))) →
    copySlice_loop rec nm e s (length vs) todo
      (mkSlice a 0 (length vs) (Len s)) h = Return (res, None) h' →
    ∃ ws, res = VSlice nm e (Some (mkSlice a 0 (Len s) (Len s))) ∧
          h' !! a = Some (CArr (vs ++ ws)) ∧ length ws = todo ∧
          filled rec e a (length vs) h
            (drop (length vs) (take (Len s) (drop (Off s) es))) ws h'.
Proof.
  intros Hes Ha. induction todo as [|todo IH];
    intros vs h res h' Hpre Hn Hcell Hrun; simpl in Hrun.
  - injection Hrun as <- <-. rewrite Nat.add_0_r in Hn. rewrite Hn.
    exists []. rewrite app_nil_r in *. split; [done|]. split; [done|].
    split; [done|]. rewrite drop_ge by (rewrite length_take; lia).
    constructor.
  - apply bind_inv in Hrun as (x & h1 & Hx & Hrun).
    pose proof (Index_frame _ _ _ _ _ Hx) as ->.
    unfold Index, load, bind, ret in Hx.
    rewrite (prefix_lookup_Some _ _ _ _ Hes Hpre) in Hx.
    destruct (es !! (Off s + length vs)) as [x'|] eqn:Hx'; [|done].
    injection Hx as ->.
    apply bind_inv in Hrun as ([v [err|]] & h2 & Hv & Hrun); [done|].
    pose proof (rec_framed _ _ _ _ Hv) as Hh2.
    apply bind_inv in Hrun as (oc' & h3 & Happ & Hrun).
    pose proof (prefix_lookup_Some _ _ _ _ Hcell Hh2) as Hcell2.
    rewrite <- Hn in Happ.
    apply (Append_fill_inv e a vs todo (Zero e) v h2) in Happ
      as (w & Hw & -> & ->); [|done].
    rewrite Hn in Hrun.
    replace (S (length vs)) with (length (vs ++ [w])) in Hrun
      by (rewrite length_app; simpl; lia).
    rewrite insert_fill in Hrun.
    eapply IH in Hrun as (ws & -> & Hcell' & Hlen & Hfill).
    + exists (w :: ws). split; [done|].
      rewrite <- app_assoc in Hcell'. split; [done|]. split; [simpl; lia|].
      rewrite (drop_S _ x (length vs))
        by (apply lookup_subslice; [lia|done]).
      econstructor; [done..|]. rewrite insert_fill.
      rewrite length_app in Hfill. simpl in Hfill.
      by rewrite Nat.add_1_r in Hfill.
    + apply prefix_insert; [by etrans|done].
    + rewrite length_app. simpl. lia.
    + apply list_lookup_insert_eq. by eapply lookup_lt_Some.
Qed.

Lemma copySlice_loop_progress nm e s es (h0 : heap) a :
  h0 !! Data s = Some (CArr es) → length h0 ≤ a →
  Off s + Len s ≤ length es →
  (∀ x h1, x ∈ take (Len s) (drop (Off s) es) → h0 `prefix_of` h1 →
           ∃ v h2, rec x h1 = Return (v, None) h2 ∧ is_Some (assign e v)) →
  ∀ todo vs h,
    h0 `prefix_of` h →
    length vs + todo = Len s →
    h !! a = Some (CArr (vs ++ replicate todo (Zero e))) →
    ∃ res h',
      copySlice_loop rec nm e s (length vs) todo
        (mkSlice a 0 (length vs) (Len s)) h = Return (res, None) h'.
Proof.
  intros Hes Ha Hbound Hrec. induction todo as [|todo IH];
    intros vs h Hpre Hn Hcell; simpl.
  - by eexists _, _.
  - destruct (lookup_lt_is_Some_2 es (Off s + length vs)) as [x Hx]; [lia|].
    unfold bind at 1. unfold Index, load, bind at 1, ret.
    rewrite (prefix_lookup_Some _ _ _ _ Hes Hpre), Hx.
    destruct (Hrec x h) as (v & h2 & Hv & [w Hw]); [|done|].
    { eapply list_elem_of_lookup_2, lookup_subslice; [|done]. lia. }
    pose proof (rec_framed _ _ _ _ Hv) as Hh2.
    unfold bind at 1. rewrite Hv. unfold bind at 1.
    rewrite <- Hn.
    rewrite (Append_fill e a vs todo (Zero e) v w h2)
      by (done || by eapply prefix_lookup_Some).
    rewrite insert_fill.
    replace (S (length vs)) with (length (vs ++ [w]))
      by (rewrite length_app; simpl; lia).
    rewrite Hn.
    apply IH.
    + apply prefix_insert; [by etrans|done].
    + rewrite length_app. simpl. lia.
    + apply list_lookup_insert_eq. eapply lookup_lt_Some.
      by eapply prefix_lookup_Some.
Qed.

Lemma copyArray_loop_spec ot nm e a n :
  ∀ rest vs h res h',
    length vs + length rest = n →
    h !! a = Some (CArr (vs ++ replicate (length rest) (Zero e))) →
    copyArray_loop rec ot nm e a rest (mkSlice a 0 (length vs) n) h
      = Return (res, None) h' →
    ∃ ws, res = VArray nm e (vs ++ ws) ∧ length ws = length rest ∧
          h' !! a = Some (CArr (vs ++ ws)) ∧
          filled rec e a (length vs) h rest ws h'.
Proof.
  induction rest as [|x rest IH];
    intros vs h res h' Hn Hcell Hrun; simpl in Hrun.
  - unfold load, bind, ret in Hrun. rewrite Hcell in Hrun.
    injection Hrun as <- <-. exists []. simpl in *. rewrite !app_nil_r in *.
    repeat split; [done|constructor].
  - apply bind_inv in Hrun as ([v [err|]] & h2 & Hv & Hrun); [done|].
    pose proof (rec_framed _ _ _ _ Hv) as Hh2.
    apply bind_inv in Hrun as (oc' & h3 & Happ & Hrun).
    pose proof (prefix_lookup_Some _ _ _ _ Hcell Hh2) as Hcell2.
    simpl in Hn. change (length (x :: rest)) with (S (length rest)) in Hcell2.
    rewrite <- Hn in Happ.
    apply (Append_fill_inv e a vs (length rest) (Zero e) v h2) in Happ
      as (w & Hw & -> & ->); [|done].
    rewrite Hn in Hrun.
    replace (S (length vs)) with (length (vs ++ [w])) in Hrun
      by (rewrite length_app; simpl; lia).
    rewrite insert_fill in Hrun.
    eapply IH in Hrun as (ws & -> & Hlen & Hcell' & Hfill).
    + exists (w :: ws). rewrite <- app_assoc in Hcell'. rewrite <- app_assoc.
      split; [done|]. split; [simpl; lia|]. split; [done|].
      econstructor; [done..|]. rewrite insert_fill.
      rewrite length_app in Hfill. simpl in Hfill.
      by rewrite Nat.add_1_r in Hfill.
    + rewrite length_app. simpl. lia.
    + apply list_lookup_insert_eq. by eapply lookup_lt_Some.
Qed.

Lemma copyArray_loop_progress ot nm e a (h0 : heap) n es :
  length h0 ≤ a →
  (∀ x h1, x ∈ es → h0 `prefix_of` h1 →
           ∃ v h2, rec x h1 = Return (v, None) h2 ∧ is_Some (assign e v)) →
  ∀ rest vs h,
    rest ⊆ es →
    h0 `prefix_of` h →
    length vs + length rest = n →
    h !! a = Some (CArr (vs ++ replicate (length rest) (Zero e))) →
    ∃ res h',
      copyArray_loop rec ot nm e a rest (mkSlice a 0 (length vs) n) h
        = Return (res, None) h'.
Proof.
  intros Ha Hrec. induction rest as [|x rest IH];
    intros vs h Hsub Hpre Hn Hcell; simpl.
  - unfold load, bind, ret. rewrite Hcell. by eexists _, _.
  - destruct (Hrec x h) as (v & h2 & Hv & [w Hw]); [|done|].
    { apply Hsub. by left. }
    pose proof (rec_framed _ _ _ _ Hv) as Hh2.
    unfold bind at 1. rewrite Hv. unfold bind at 1.
    simpl in Hn. rewrite <- Hn.
    rewrite (Append_fill e a vs (length rest) (Zero e) v w h2)
      by (done || by eapply prefix_lookup_Some).
    rewrite insert_fill.
    replace (S (length vs)) with (length (vs ++ [w]))
      by (rewrite length_app; simpl; lia).
    rewrite Hn.
    apply IH.
    + intros y Hy. apply Hsub. by right.
    + apply prefix_insert; [by etrans|done].
    + rewrite length_app. simpl. lia.
    + apply list_lookup_insert_eq. eapply lookup_lt_Some.
      by eapply prefix_lookup_Some.
Qed.

Lemma copyArray_typed : typed (copyArray rec).
Proof.
  intros ov h r h' Hrun. unfold copyArray in Hrun.
  destruct ov as [| | | | | | |nm e es| | |]; try done.
  unfold new, bind in Hrun.
  apply (copyArray_loop_spec _ nm e (length h) (length es) es []) in Hrun
    as (ws & -> & Hlen & _); [|done|].
  - simpl. by rewrite Hlen.
  - simpl. by rewrite lookup_app_r, Nat.sub_diag.
Qed.

End sequences.

Lemma copy_typed (fuel : nat) (c : Config) v h r h' :
  copy fuel c v h = Return (r, None) h' →
  Type_ r = copy_type v ∧ (Kind v ≠ reflect.Interface → is_nil r = is_nil v).
Proof.
  destruct fuel as [|fuel]; intros Hrun; [done|].
  pose proof (copy_framed fuel c) as Hfr.
  rewrite copy_S in Hrun. unfold copy_type.
  destruct v as [|nm b bits| | | | | | | | |];
    cbn [IsValid negb Kind] in Hrun;
    try (destruct (is_time _); [by injection Hrun as <- _|]);
    try (by injection Hrun as <- _); try done.
  - destruct b; simpl in Hrun; try done; by injection Hrun as <- _.
  - exact (copyPointer_typed _ _ _ _ _ Hrun).
  - exact (copySlice_typed _ _ _ _ _ Hrun).
  - exact (copyArray_typed _ Hfr _ _ _ _ Hrun).
  - exact (copyMap_typed _ _ _ _ _ Hrun).
  - exact (copyInterface_typed _ _ _ _ _ Hrun).
  - exact (copyStruct_typed c _ _ _ _ _ Hrun).
Qed.

Lemma copy_slice (fuel : nat) (c : Config) nm e s (h : heap) :
  is_time (VSlice nm e (Some s)) = false →
  copy (S fuel) c (VSlice nm e (Some s)) h =
    copySlice_loop (copy fuel c) nm e s 0 (Len s)
      (mkSlice (length h) 0 0 (Len s))
      (h ++ [CArr (replicate (Len s) (Zero e))]).
Proof. intros Ht. rewrite copy_S. simpl. simpl in Ht. by rewrite Ht. Qed.

Lemma copy_array (fuel : nat) (c : Config) nm e es (h : heap) :
  is_time (VArray nm e es) = false →
  copy (S fuel) c (VArray nm e es) h =
    copyArray_loop (copy fuel c) (TArray nm (length es) e) nm e (length h) es
      (mkSlice (length h) 0 0 (length es))
      (h ++ [CArr (replicate (length es) (Zero e))]).
Proof. intros Ht. rewrite copy_S. simpl. simpl in Ht. by rewrite Ht. Qed.

(** C8.  The copy of a slice that is not nil (and no [time.Time]) is a
    slice on a backing array of its own, allocated at the next free
    address with the length of the original as its capacity, and it has the
    length of the original.  The array is filled in one run, from the first
    element to the last ([filled]): [c.copy] is called on the element at
    index [i] of the original in the memory that the copies of the elements
    before it left, so that each element is itself copied in depth, and
    what it returns is assigned to the index [i] of the new array.  The
    copy of an array is an array of the same type, filled in the same way.
    Either copy is made without an error whenever the elements have the
    element type and [c.copy] returns without an error on every one of
    them. *)
Theorem sequence_copied_in_order (fuel : nat) (c : Config) (h : heap) :
  (∀ nm e s es,
     is_time (VSlice nm e (Some s)) = false →
     h !! Data s = Some (CArr es) →
     (∀ res h',
        copy (S fuel) c (VSlice nm e (Some s)) h = Return (res, None) h' →
        ∃ ws,
          res = VSlice nm e (Some (mkSlice (length h) 0 (Len s) (Len s))) ∧
          h !! length h = None ∧
          h' !! length h = Some (CArr ws) ∧
          length ws = Len s ∧
          filled (copy fuel c) e (length h) 0
            (h ++ [CArr (replicate (Len s) (Zero e))])
            (take (Len s) (drop (Off s) es)) ws h') ∧
     (Off s + Len s ≤ length es →
      (∀ x, x ∈ take (Len s) (drop (Off s) es) → has_type x e = true) →
      (∀ x h1, x ∈ take (Len s) (drop (Off s) es) → h `prefix_of` h1 →
               ∃ v h2, copy fuel c x h1 = Return (v, None) h2) →
      ∃ res h',
        copy (S fuel) c (VSlice nm e (Some s)) h = Return (res, None) h')) ∧
  (∀ nm e es,
     is_time (VArray nm e es) = false →
     (∀ res h',
        copy (S fuel) c (VArray nm e es) h = Return (res, None) h' →
        ∃ ws, res = VArray nm e ws ∧ length ws = length es ∧
              h !! length h = None ∧
              filled (copy fuel c) e (length h) 0
                (h ++ [CArr (replicate (length es) (Zero e))]) es ws h') ∧
     ((∀ x, x ∈ es → has_type x e = true) →
      (∀ x h1, x ∈ es → h `prefix_of` h1 →
               ∃ v h2, copy fuel c x h1 = Return (v, None) h2) →
      ∃ res h', copy (S fuel) c (VArray nm e es) h = Return (res, None) h')).
Proof.
  split.
  - intros nm e s es Ht Hes. split.
    + intros res h' Hrun. rewrite copy_slice in Hrun by done.
      apply (copySlice_loop_spec _ (copy_framed fuel c) nm e s es h
               (length h) Hes (Nat.le_refl _) (Len s) []) in Hrun
        as (ws & -> & Hcell & Hlen & Hfill);
        [|by apply prefix_app_r|done|by rewrite lookup_app_r, Nat.sub_diag].
      exists ws. split; [done|]. split; [by apply lookup_ge_None_2|].
      done.
    + intros Hbound Hty Hrec. rewrite copy_slice by done.
      apply (copySlice_loop_progress _ (copy_framed fuel c) nm e s es h
               (length h) Hes (Nat.le_refl _) Hbound) with (vs := []);
        [|by apply prefix_app_r|done|by rewrite lookup_app_r, Nat.sub_diag].
      intros x h1 Hx Hh1. destruct (Hrec x h1 Hx Hh1) as (v & h2 & Hv).
      exists v, h2. split; [done|].
      apply (assign_copy_type x); [by apply Hty|].
      by apply copy_typed in Hv as [Hv _].
  - intros nm e es Ht. split.
    + intros res h' Hrun. rewrite copy_array in Hrun by done.
      apply (copyArray_loop_spec _ (copy_framed fuel c) _ nm e (length h)
               (length es) es []) in Hrun
        as (ws & -> & Hlen & Hcell & Hfill);
        [|done|by rewrite lookup_app_r, Nat.sub_diag].
      exists ws. split; [done|]. split; [done|].
      split; [by apply lookup_ge_None_2|done].
    + intros Hty Hrec. rewrite copy_array by done.
      apply (copyArray_loop_progress _ (copy_framed fuel c) _ nm e (length h)
               h (length es) es (Nat.le_refl _)) with (vs := []);
        [|done|by apply prefix_app_r|done
         |by rewrite lookup_app_r, Nat.sub_diag].
      intros x h1 Hx Hh1. destruct (Hrec x h1 Hx Hh1) as (v & h2 & Hv).
      exists v, h2. split; [done|].
      apply (assign_copy_type x); [by apply Hty|].
      by apply copy_typed in Hv as [Hv _].
Qed.

Lemma sequence_copied_in_order_witness :
  ∃ res h',
    copy 2 ∅ (VSlice anon Ex.int (Some Ex3.slice)) Ex3.mem
      = Return (res, None) h'.
Proof.
  apply (proj2 (proj1 (sequence_copied_in_order 1 ∅ Ex3.mem)
                  anon Ex.int Ex3.slice
                  [Ex.Int 7; Ex.Int 8; Ex.Int 9; Ex.Int 10]
                  eq_refl eq_refl)).
  - simpl. lia.
  - intros x Hx.
    apply elem_of_cons in Hx as [->|Hx]; [done|].
    apply elem_of_cons in Hx as [->|Hx]; [done|].
    by apply elem_of_nil in Hx.
  - intros x h1 Hx _. exists x, h1.
    apply copy_scalar_like.
    apply elem_of_cons in Hx as [->|Hx]; [done|].
    apply elem_of_cons in Hx as [->|Hx]; [done|].
    by apply elem_of_nil in Hx.
Defined.

(** ** Copies cell by cell *)

(** A zero number is [==] to what the zero of its type is [==] to. *)
Lemma float_eqb_zero_l w x y :
  w = 32%Z ∨ w = 64%Z → float_zero w x = true →
  float_eqb w 0 y = float_eqb w x y.
Proof.
  intros Hw Hx. unfold float_eqb, float_nan, float_zero, float_abs in *.
  apply Z.eqb_eq in Hx. rewrite Hx, !Zmod_0_l.
  assert (Habs : ∀ z, ((z mod 2 ^ w) mod 2 ^ (w - 1) = z mod 2 ^ (w - 1))%Z).
  { intros z. apply Z.mod_mod_divide. exists 2%Z.
    by destruct Hw as [-> | ->]. }
  f_equal.
  destruct (y mod 2 ^ (w - 1) =? 0)%Z eqn:Hy; [by rewrite !orb_true_r|].
  rewrite andb_false_r, !orb_false_r. apply Z.eqb_neq in Hy.
  transitivity false; [|symmetry]; apply Z.eqb_neq; intros E; apply Hy.
  - by rewrite <- Habs, <- E.
  - by rewrite <- Habs, <- E, Habs.
Qed.

Lemma float_eqb_zero_r w x y :
  w = 32%Z ∨ w = 64%Z → float_zero w y = true →
  float_eqb w x 0 = float_eqb w x y.
Proof.
  intros Hw Hy. unfold float_eqb, float_nan, float_zero, float_abs in *.
  apply Z.eqb_eq in Hy. rewrite Hy, !Zmod_0_l.
  assert (Habs : ∀ z, ((z mod 2 ^ w) mod 2 ^ (w - 1) = z mod 2 ^ (w - 1))%Z).
  { intros z. apply Z.mod_mod_divide. exists 2%Z.
    by destruct Hw as [-> | ->]. }
  f_equal.
  destruct (x mod 2 ^ (w - 1) =? 0)%Z eqn:Hx; [by rewrite !orb_true_r|].
  rewrite !orb_false_r. apply Z.eqb_neq in Hx.
  transitivity false; [|symmetry]; apply Z.eqb_neq; intros E; apply Hx.
  - by rewrite <- Habs, E.
  - by rewrite <- Habs, E, Habs.
Qed.

Lemma basic_eqb_zero_l b x y :
  basic_zero b x = true → basic_eqb b 0 y = basic_eqb b x y.
Proof.
  intros Hx.
  destruct b; simpl in *;
    try (apply Z.eqb_eq in Hx; by subst);
    try (apply float_eqb_zero_l; [auto|done]).
  - apply andb_prop in Hx as [H1 H2].
    by rewrite <- (float_eqb_zero_l 32 x), <- (float_eqb_zero_l 32 (x ≫ 32))
      by auto.
  - apply andb_prop in Hx as [H1 H2].
    by rewrite <- (float_eqb_zero_l 64 x), <- (float_eqb_zero_l 64 (x ≫ 64))
      by auto.
Qed.

Lemma basic_eqb_zero_r b x y :
  basic_zero b y = true → basic_eqb b x 0 = basic_eqb b x y.
Proof.
  intros Hy.
  destruct b; simpl in *;
    try (apply Z.eqb_eq in Hy; by subst);
    try (apply float_eqb_zero_r; [auto|done]).
  - apply andb_prop in Hy as [H1 H2].
    by rewrite <- (float_eqb_zero_r 32 _ y),
      <- (float_eqb_zero_r 32 _ (y ≫ 32)) by auto.
  - apply andb_prop in Hy as [H1 H2].
    by rewrite <- (float_eqb_zero_r 64 _ y),
      <- (float_eqb_zero_r 64 _ (y ≫ 64)) by auto.
Qed.

(** An image stays one when the memory changes elsewhere, and in a wider
    range of addresses. *)
Lemma image_weaken n : ∀ (h h2 : heap) L lo hi lo' hi' x y,
  lo' ≤ lo → hi ≤ hi' →
  (∀ b, b < L ∨ lo ≤ b < hi → h2 !! b = h !! b) →
  image n h L lo hi x y → image n h2 L lo' hi' x y.
Proof.
  induction n as [|n IH]; intros h h2 L lo hi lo' hi' x y Hlo Hhi Hsame Him;
    [done|].
  destruct x as [|nm b bits|nm s|nm e ch|nm fn|nm e [a|]|nm e [s|]|nm e es
                 |nm kt et [a|]|nm [u|]|nm fs]; simpl in *; try done.
  - destruct Him as (b & u & w & -> & Ha & Hb & Hu & Hw & Hty & Him).
    exists b, u, w. repeat split; try done; try lia.
    + rewrite Hsame; [done|by left].
    + rewrite Hsame; [done|by right].
    + by eapply IH.
  - destruct Him as (b & es & ws & -> & Ha & Hb & Hes & Hlen & Hws & Him).
    exists b, es, ws. repeat split; try done; try lia.
    + unfold elements in *. rewrite Hsame; [done|by left].
    + rewrite Hsame; [done|by right].
    + eapply Forall2_impl; [done|]. intros u w Huw. by eapply IH.
  - destruct Him as (ws & -> & Him). exists ws. split; [done|].
    eapply Forall2_impl; [done|]. intros u w [Hty Huw]. split; [done|].
    by eapply IH.
  - destruct Him as (b & kvs & kws & -> & Ha & Hb & Hkvs & Hkws & Hok & Him).
    exists b, kvs, kws. repeat split; try done; try lia.
    + rewrite Hsame; [done|by left].
    + rewrite Hsame; [done|by right].
    + eapply Forall2_impl; [done|]. intros kv kw (Hf & Hk & Hv).
      repeat split; try done; by eapply IH.
  - destruct Him as (w & -> & Him). exists w. split; [done|]. by eapply IH.
  - destruct Him as (gs & -> & Him). exists gs. split; [done|].
    eapply Forall2_impl; [done|]. intros f g (Hd & Hb & Hty & Hv).
    repeat split; try done. by eapply IH.
Qed.

(** An image has the type of its original, and is well typed. *)
Lemma image_type n : ∀ (h : heap) L lo hi x y,
  image n h L lo hi x y → Type_ y = Type_ x ∧ wt y = true.
Proof.
  induction n as [|n IH]; intros h L lo hi x y Him; [done|].
  destruct x as [|nm b bits|nm s|nm e ch|nm fn|nm e [a|]|nm e [s|]|nm e es
                 |nm kt et [a|]|nm [u|]|nm fs]; simpl in *; try done;
    try (by subst y); try (by destruct Him as [_ ->]).
  - by destruct Him as [_ [->|[_ ->]]].
  - by destruct Him as (b & u & w & -> & _).
  - by destruct Him as (b & es & ws & -> & _).
  - destruct Him as (ws & -> & Him). simpl. split.
    + by rewrite (Forall2_length _ _ _ Him).
    + induction Him as [|u w es ws [Hty Huw] _ IHws]; [done|]. simpl.
      rewrite Hty, IHws. by destruct (IH _ _ _ _ _ _ Huw) as [_ ->].
  - by destruct Him as (b & kvs & kws & -> & _).
  - destruct Him as (w & -> & Him). simpl.
    by destruct (IH _ _ _ _ _ _ Him) as [_ ->].
  - destruct Him as (gs & -> & Him). simpl. split.
    + do 2 f_equal. induction Him as [|f g fs gs (Hd & _) _ IHgs]; [done|].
      rewrite !fmap_cons. by rewrite Hd, IHgs.
    + induction Him as [|f g fs gs (Hd & Hb & Hty & Hv) _ IHgs]; [done|].
      simpl. rewrite Hd, Hty, IHgs.
      by destruct (IH _ _ _ _ _ _ Hv) as [_ ->].
Qed.

(** The image of a value that holds no address holds no address. *)
Lemma image_flat n : ∀ (h : heap) L lo hi x y,
  flat x = true → image n h L lo hi x y → flat y = true.
Proof.
  induction n as [|n IH]; intros h L lo hi x y Hflat Him; [done|].
  destruct x as [|nm b bits|nm s|nm e ch|nm fn|nm e [a|]|nm e [s|]|nm e es
                 |nm kt et [a|]|nm [u|]|nm fs]; simpl in *; try done;
    try (by subst y); try (by destruct Him as [_ ->]).
  - by destruct Him as [_ [->|[_ ->]]].
  - destruct Him as (ws & -> & Him). simpl.
    induction Him as [|u w es ws [Hty Huw] _ IHws]; [done|]. simpl in *.
    apply andb_prop in Hflat as [Hu Hes].
    rewrite (IH _ _ _ _ _ _ Hu Huw). by apply IHws.
  - destruct Him as (w & -> & Him). simpl. by eapply IH.
  - destruct Him as (gs & -> & Him). simpl.
    induction Him as [|[d u] [d' w] fs gs (Hd & Hb & Hty & Hv) _ IHgs];
      [done|].
    simpl in *. apply andb_prop in Hflat as [Hu Hfs].
    rewrite (IH _ _ _ _ _ _ Hu Hv). by apply IHgs.
Qed.

(** The image of a value that holds no address is [==] to what the value
    is [==] to. *)
Lemma go_eqb_image_l n : ∀ (h : heap) L lo hi x x' y,
  flat x = true → image n h L lo hi x x' → go_eqb x' y = go_eqb x y.
Proof.
  induction n as [|n IH]; intros h L lo hi x x' y Hflat Him; [done|].
  destruct x as [|nm b bits|nm s|nm e ch|nm fn|nm e [a|]|nm e [s|]|nm e es
                 |nm kt et [a|]|nm [u|]|nm fs]; simpl in Hflat, Him;
    try done; try (by subst x'); try (by destruct Him as [_ ->]).
  - destruct Him as [_ [->|[Hz ->]]]; [done|].
    destruct y; try done. simpl. by rewrite (basic_eqb_zero_l _ _ _ Hz).
  - destruct Him as (ws & -> & Him). destruct y as [| | | | | | |nm' e' es'| | |];
      try done. simpl. revert es'.
    induction Him as [|u w es ws [Hty Huw] _ IHws]; intros [|y es'];
      try done. simpl in Hflat.
    apply andb_prop in Hflat as [Hu Hes].
    rewrite (IH _ _ _ _ _ _ y Hu Huw). f_equal. by apply IHws.
  - destruct Him as (w & -> & Him). destruct y as [| | | | | | | | |nm' [b|]|];
      try done. simpl.
    destruct (image_type _ _ _ _ _ _ _ Him) as [-> _].
    by rewrite (IH _ _ _ _ _ _ b Hflat Him).
  - destruct Him as (gs & -> & Him). destruct y as [| | | | | | | | | |nm' fs'];
      try done. simpl. revert fs'.
    induction Him as [|[d u] [d' w] fs gs (Hd & Hb & Hty & Hv) _ IHgs];
      intros [|[d'' y] fs']; try done. simpl in *.
    apply andb_prop in Hflat as [Hu Hfs]. subst d'.
    rewrite (IH _ _ _ _ _ _ y Hu Hv). f_equal. by apply IHgs.
Qed.

Lemma go_eqb_image_r n : ∀ (h : heap) L lo hi x x' y,
  flat x = true → image n h L lo hi x x' → go_eqb y x' = go_eqb y x.
Proof.
  induction n as [|n IH]; intros h L lo hi x x' y Hflat Him; [done|].
  destruct x as [|nm b bits|nm s|nm e ch|nm fn|nm e [a|]|nm e [s|]|nm e es
                 |nm kt et [a|]|nm [u|]|nm fs]; simpl in Hflat, Him;
    try done; try (by subst x'); try (by destruct Him as [_ ->]).
  - destruct Him as [_ [->|[Hz ->]]]; [done|].
    destruct y as [|nm' b' a| | | | | | | | |]; try done. simpl.
    destruct (decide (b' = b)) as [->|Hne];
      [by rewrite (basic_eqb_zero_r _ _ _ Hz)
      |by rewrite !bool_decide_eq_false_2].
  - destruct Him as (ws & -> & Him). destruct y as [| | | | | | |nm' e' es'| | |];
      try done. simpl. revert es'.
    induction Him as [|u w es ws [Hty Huw] _ IHws]; intros [|y es'];
      try done. simpl in Hflat.
    apply andb_prop in Hflat as [Hu Hes].
    rewrite (IH _ _ _ _ _ _ y Hu Huw). f_equal. by apply IHws.
  - destruct Him as (w & -> & Him). destruct y as [| | | | | | | | |nm' [b|]|];
      try done. simpl.
    destruct (image_type _ _ _ _ _ _ _ Him) as [Hty _].
    unfold has_type. rewrite Hty.
    by rewrite (IH _ _ _ _ _ _ b Hflat Him).
  - destruct Him as (gs & -> & Him). destruct y as [| | | | | | | | | |nm' fs'];
      try done. simpl. revert fs'.
    induction Him as [|[d u] [d' w] fs gs (Hd & Hb & Hty & Hv) _ IHgs];
      intros [|[d'' y] fs']; try done. simpl in *.
    apply andb_prop in Hflat as [Hu Hfs].
    rewrite (IH _ _ _ _ _ _ y Hu Hv). f_equal. by apply IHgs.
Qed.

(** The zero value of its type is an image of what a zero image is an
    image of. *)
Lemma image_zero n : ∀ (h : heap) L lo hi x y t,
  image n h L lo hi x y → IsZero y = true → Type_ y = Some t →
  image n h L lo hi x (Zero t).
Proof.
  induction n as [|n IH]; intros h L lo hi x y t Him Hz Hty; [done|].
  destruct x as [|nm b bits|nm s|nm e ch|nm fn|nm e [a|]|nm e [s|]|nm e es
                 |nm kt et [a|]|nm [u|]|nm fs]; simpl in Him; try done;
    try (subst y; injection Hty as <-; simpl in *).
  - destruct Him as [Hn Him]. simpl. split; [done|]. right.
    destruct Him as [->|[Hb ->]]; injection Hty as <-; simpl in *; done.
  - apply String.eqb_eq in Hz. by subst.
  - apply bool_decide_eq_true in Hz. by subst.
  - destruct Him as [-> ->]. by injection Hty as <-.
  - by destruct Him as (b & u & w & -> & _).
  - done.
  - by destruct Him as (b & es & ws & -> & _).
  - done.
  - destruct Him as (ws & -> & Him). injection Hty as <-. simpl in *.
    eexists. split; [done|].
    induction Him as [|u w es ws [Htw Huw] _ IHws]; [constructor|].
    simpl in *. apply andb_prop in Hz as [Hz1 Hz2].
    constructor; [|by apply IHws]. split.
    + apply has_type_eq, Type_Zero.
    + eapply IH; [done..|]. by apply has_type_eq.
  - by destruct Him as (b & kvs & kws & -> & _).
  - done.
  - by destruct Him as (w & -> & _).
  - done.
  - destruct Him as (gs & -> & Him). injection Hty as <-. simpl in *.
    eexists. split; [done|].
    induction Him as [|[d u] [d' w] fs gs (Hd & Hb & Htw & Hv) _ IHgs];
      [constructor|].
    simpl in *. subst d'. rewrite Hb in Hz. simpl in Hz.
    apply andb_prop in Hz as [Hz1 Hz2].
    constructor; [|by apply IHgs]. simpl.
    repeat split; try done.
    + apply has_type_eq, Type_Zero.
    + eapply IH; [done..|]. by apply has_type_eq.
Qed.

Lemma all2_Forall2 {A B : Type} (p : A → B → bool) (P : A → B → Prop) xs ys :
  (∀ x y, P x y → p x y = true) → Forall2 P xs ys → all2 p xs ys = true.
Proof.
  intros Hp. induction 1 as [|x y xs ys Hxy _ IH]; [done|].
  simpl. by rewrite (Hp _ _ Hxy), IH.
Qed.

Lemma Forall2_elem_of_r {A B : Type} (P : A → B → Prop) xs ys y :
  Forall2 P xs ys → y ∈ ys → ∃ x, x ∈ xs ∧ P x y.
Proof.
  induction 1 as [|x y' xs ys Hxy _ IH]; intros Hy.
  - by apply elem_of_nil in Hy.
  - apply elem_of_cons in Hy as [->|Hy].
    + exists x. split; [by left|done].
    + destruct (IH Hy) as (x' & Hx' & HP). exists x'. split; [by right|done].
Qed.

(** A key of a map is found in the copy of the map, under the entry that
    was made of its own. *)
Lemma MapIndex_image n (h : heap) L lo hi kvs kws :
  Forall2 (entry_image n h L lo hi) kvs kws →
  keys_ok (kvs.*1) = true →
  ∀ i k v k' w,
    kvs !! i = Some (k, v) → kws !! i = Some (k', w) →
    MapIndex kws k = Some w.
Proof.
  induction 1 as [|[k0 v0] [k0' w0] kvs kws (Hf & Hk & Hv) Him IH];
    intros Hok i k v k' w Hi Hi'; [done|].
  rewrite fmap_cons in Hok. simpl in *.
  apply andb_prop in Hok as [Hok Hrest]. apply andb_prop in Hok as [Hk0 Hne].
  rewrite (go_eqb_image_l _ _ _ _ _ _ _ k Hf Hk).
  destruct i as [|i]; simpl in *.
  - injection Hi as -> ->. injection Hi' as -> ->. by rewrite Hk0.
  - rewrite forallb_forall in Hne.
    assert (Hin : In k (kvs.*1)).
    { apply list_elem_of_In, list_elem_of_fmap. exists (k, v).
      split; [done|]. by eapply list_elem_of_lookup_2. }
    apply Hne in Hin. apply andb_prop in Hin as [Hin _].
    apply negb_true_iff in Hin. rewrite Hin. by eapply IH.
Qed.

Lemma same_type_image n (h : heap) L lo hi x y :
  image n h L lo hi x y → same_type x y = true.
Proof.
  intros Him. destruct (image_type _ _ _ _ _ _ _ Him) as [Hty _].
  unfold same_type. rewrite Hty.
  destruct n; [done|]. destruct x; try done; apply type_eqb_refl.
Qed.

(** An image is deeply equal to its original. *)
Lemma image_DeepEqual n : ∀ (h : heap) L lo hi x y,
  image n h L lo hi x y → DeepEqual n h x y = true.
Proof.
  induction n as [|n IH]; intros h L lo hi x y Him; [done|].
  pose proof (same_type_image _ _ _ _ _ _ _ Him) as Hst.
  destruct x as [|nm b bits|nm s|nm e ch|nm fn|nm e [a|]|nm e [s|]|nm e es
                 |nm kt et [a|]|nm [u|]|nm fs];
    cbn [image] in Him; try done;
    try (subst y; cbn [DeepEqual]; rewrite Hst).
  - destruct Him as [Hn [->|[Hz ->]]]; cbn [DeepEqual]; rewrite Hst; [done|].
    by rewrite (basic_eqb_zero_r _ _ _ Hz).
  - by rewrite String.eqb_refl.
  - by rewrite bool_decide_eq_true_2.
  - destruct Him as [-> ->]. cbn [DeepEqual]. by rewrite Hst.
  - destruct Him as (b & u & w & -> & Ha & Hb & Hu & Hw & Hty & Him).
    cbn [DeepEqual]. rewrite Hst, Hu, Hw, (IH _ _ _ _ _ _ Him).
    by rewrite orb_true_r.
  - done.
  - destruct Him as (b & es & ws & -> & Ha & Hb & Hes & Hlen & Hws & Him).
    cbn [DeepEqual]. rewrite Hst, Hes. cbn [Len Data Off].
    rewrite bool_decide_eq_true_2 by done.
    unfold elements. cbn [Len Data Off]. rewrite Hws.
    rewrite drop_0, take_ge
      by (rewrite <- (Forall2_length _ _ _ Him); lia).
    rewrite (all2_Forall2 _ _ _ _ (IH h L lo hi) Him).
    by rewrite orb_true_r.
  - done.
  - destruct Him as (ws & -> & Him). cbn [DeepEqual]. rewrite Hst.
    apply (all2_Forall2 _ (λ u w, has_type w e = true ∧ image n h L lo hi u w));
      [|done].
    intros u w [_ Huw]. by eapply IH.
  - destruct Him as (b & kvs & kws & -> & Ha & Hb & Hkvs & Hkws & Hok & Him).
    cbn [DeepEqual]. rewrite Hst, Hkvs, Hkws.
    rewrite bool_decide_eq_true_2 by (by eapply Forall2_length).
    assert (Hall : forallb (λ kv,
      match MapIndex kws (kv.1) with
      | Some v' => DeepEqual n h (kv.2) v'
      | None => false
      end) kvs = true).
    { apply forallb_forall. intros [k v] Hin.
      apply list_elem_of_In, list_elem_of_lookup_1 in Hin as [i Hi].
      destruct (Forall2_lookup_l _ _ _ _ _ Him Hi)
        as ([k' w] & Hi' & _ & _ & Hv).
      simpl in Hv. simpl.
      rewrite (MapIndex_image _ _ _ _ _ _ _ Him Hok i k v k' w Hi Hi').
      by eapply IH. }
    rewrite Hall. by rewrite orb_true_r.
  - done.
  - destruct Him as (w & -> & Him). cbn [DeepEqual]. rewrite Hst.
    by eapply IH.
  - done.
  - destruct Him as (gs & -> & Him). cbn [DeepEqual]. rewrite Hst.
    apply (all2_Forall2 _ (λ f g, g.1 = f.1 ∧ blank (f.1) = false ∧
             has_type (g.2) (sfType (f.1)) = true ∧
             image n h L lo hi (f.2) (g.2))); [|done].
    intros f g (_ & _ & _ & Hv). by eapply IH.
Qed.

(** A value that holds no address has no cells. *)
Lemma flat_reach (h : heap) v a : reach h v a → flat v = false.
Proof.
  induction 1 as [| | | |nm e es x b Hx _ IH| | | |nm x b _ IH
                  |nm fs f b Hf _ IH]; try done; simpl.
  - apply not_true_is_false. intros Hall.
    rewrite forallb_forall in Hall.
    apply list_elem_of_In, Hall in Hx. congruence.
  - apply not_true_is_false. intros Hall.
    rewrite forallb_forall in Hall.
    apply list_elem_of_In, Hall in Hf. congruence.
Qed.

(** The cells of an image lie in its range of addresses. *)
Lemma image_reach n : ∀ (h : heap) L lo hi x y a,
  image n h L lo hi x y → reach h y a → lo ≤ a < hi.
Proof.
  induction n as [|n IH]; intros h L lo hi x y a Him Hreach; [done|].
  destruct x as [|nm b bits|nm s|nm e ch|nm fn|nm e [p|]|nm e [s|]|nm e es
                 |nm kt et [m|]|nm [u|]|nm fs];
    cbn [image] in Him; try done;
    try (subst y; by inversion Hreach);
    try (destruct Him as [_ ->]; by inversion Hreach).
  - destruct Him as [_ [->|[_ ->]]]; by inversion Hreach.
  - destruct Him as (b & u & w & -> & Ha & Hb & Hu & Hw & Hty & Him).
    inversion Hreach as [|? ? ? x' ? Hx' Hr| | | | | | | |]; subst; [done|].
    rewrite Hw in Hx'. injection Hx' as <-. by eapply IH.
  - destruct Him as (b & es & ws & -> & Ha & Hb & Hes & Hlen & Hws & Him).
    inversion Hreach as [| | |? ? ? es' x' ? Hes' Hx' Hr| | | | | |]; subst;
      [done|].
    unfold elements in Hes'. cbn [Data Off Len] in Hes'. rewrite Hws in Hes'.
    injection Hes' as <-. rewrite drop_0 in Hx'.
    apply elem_of_take in Hx' as (i & Hx' & _).
    apply list_elem_of_lookup_2 in Hx'.
    destruct (Forall2_elem_of_r _ _ _ _ Him Hx') as (u & _ & Hu).
    by eapply IH.
  - destruct Him as (ws & -> & Him).
    inversion Hreach as [| | | |? ? ? x' ? Hx' Hr| | | | |]; subst.
    destruct (Forall2_elem_of_r _ _ _ _ Him Hx') as (u & _ & _ & Hu).
    by eapply IH.
  - destruct Him as (b & kvs & kws & -> & Ha & Hb & Hkvs & Hkws & Hok & Him).
    inversion Hreach as [| | | | | |? ? ? ? kvs' kw ? Hk' Hin Hr
                         |? ? ? ? kvs' kw ? Hk' Hin Hr| |]; subst; [done| |].
    + (* a key of the copy is the image of a key of the original, which
         holds no address *)
      rewrite Hkws in Hk'. injection Hk' as <-.
      destruct (Forall2_elem_of_r _ _ _ _ Him Hin) as (kv & _ & Hf & Hk & _).
      apply flat_reach in Hr. apply (image_flat _ _ _ _ _ _ _ Hf) in Hk.
      congruence.
    + rewrite Hkws in Hk'. injection Hk' as <-.
      destruct (Forall2_elem_of_r _ _ _ _ Him Hin) as (kv & _ & _ & _ & Hv).
      by eapply IH.
  - destruct Him as (w & -> & Him).
    inversion Hreach as [| | | | | | | |? x' ? Hr|]; subst. by eapply IH.
  - destruct Him as (gs & -> & Him).
    inversion Hreach as [| | | | | | | | |? ? g ? Hin Hr]; subst.
    destruct (Forall2_elem_of_r _ _ _ _ Him Hin) as (f & _ & _ & _ & _ & Hv).
    by eapply IH.
Qed.

(** ** The round trip *)

Lemma prefix_agree (h h2 : heap) L lo hi :
  h `prefix_of` h2 → L ≤ length h → hi ≤ length h →
  ∀ b, b < L ∨ lo ≤ b < hi → h2 !! b = h !! b.
Proof.
  intros Hpre HL Hhi b Hb. symmetry. apply prefix_lookup_lt; [lia|done].
Qed.

Lemma keys_ok_app (l1 l2 : list value) k :
  keys_ok (l1 ++ k :: l2) = true → ∀ k0, k0 ∈ l1 → go_eqb k0 k = false.
Proof.
  induction l1 as [|k1 l1 IH]; intros Hok k0 Hin.
  - by apply elem_of_nil in Hin.
  - simpl in Hok. apply andb_prop in Hok as [Hok Hrest].
    apply andb_prop in Hok as [_ Hne].
    apply elem_of_cons in Hin as [->|Hin]; [|by apply IH].
    rewrite forallb_forall in Hne.
    assert (Hk : In k (l1 ++ k :: l2)).
    { apply in_or_app. right. by left. }
    apply Hne, andb_prop in Hk as [Hk _]. by apply negb_true_iff in Hk.
Qed.

Lemma map_set_fresh (kws : list (value * value)) k v :
  (∀ kw, kw ∈ kws → go_eqb (kw.1) k = false) →
  map_set kws k v = kws ++ [(k, v)].
Proof.
  induction kws as [|[k0 v0] kws IH]; intros Hne; [done|]. simpl.
  pose proof (Hne (k0, v0) ltac:(by left)) as Hk0. simpl in Hk0.
  rewrite Hk0. f_equal. apply IH.
  intros kw Hin. apply Hne. by right.
Qed.

Section round_trip.

Context (c : Config) (n : nat) (h0 : list cell).
Context (rec : value → M (value * error)).
Hypothesis rec_framed : framed rec.
Hypothesis rec_plain : copies_plain n h0 rec.

(** What the recursive call gives for a plain value of a known type, and
    what is assigned of it to a place of that type. *)
Lemma rec_typed x t (h : heap) :
  plain n h0 x = true → has_type x t = true → h0 `prefix_of` h →
  ∃ w w' h', rec x h = Return (w, None) h' ∧ h `prefix_of` h' ∧
          assign t w = Some w' ∧
          has_type w' t = true ∧
          image n h' (length h0) (length h) (length h') x w' ∧
          (IsZero w = true →
           image n h' (length h0) (length h) (length h') x (Zero t)).
Proof.
  intros Hx Ht Hpre.
  destruct (rec_plain x h Hx Hpre) as (w & h' & Hw & Hty & Him).
  destruct (assign_new_type x t w Ht Hty) as [Has Hre]. rewrite <- Hre in Him.
  exists w, (retype (type_name t) w), h'.
  destruct (image_type _ _ _ _ _ _ _ Him) as [Hty' Hwt].
  apply has_type_eq in Ht. rewrite Ht in Hty'.
  repeat split; try done.
  - by eapply rec_framed.
  - by apply has_type_eq.
  - intros Hz. eapply image_zero; [done| |done]. by rewrite IsZero_retype.
Qed.

Lemma copyStruct_loop_plain ot nm lo : ∀ rest seen gs (h : heap),
  forallb (plain_field n h0) rest = true →
  h0 `prefix_of` h → lo ≤ length h →
  Forall2 (field_image n h (length h0) lo (length h)) seen gs →
  ∃ gs' h',
    copyStruct_loop c rec ot rest (length seen)
      (VStruct nm (gs ++ zero_fields (rest.*1))) h
      = Return (VStruct nm gs', None) h' ∧
    h `prefix_of` h' ∧
    Forall2 (field_image n h' (length h0) lo (length h')) (seen ++ rest) gs'.
Proof.
  induction rest as [|[f fv] rest IH]; intros seen gs h Hall Hpre Hlo Hseen.
  - exists gs, h. simpl. by rewrite !app_nil_r.
  - simpl in Hall. apply andb_prop in Hall as [Hf Hall].
    unfold plain_field in Hf. simpl in Hf.
    apply andb_prop in Hf as [Hf Hplain]. apply andb_prop in Hf as [Hf Hty].
    apply andb_prop in Hf as [Hf Htag]. apply andb_prop in Hf as [Hbl Hexp].
    apply negb_true_iff in Hbl.
    destruct (rec_typed fv (sfType f) h Hplain Hty Hpre)
      as (w & w' & h1 & Hw & Hh1 & Has & Htyw & Him & Hzero).
    (* the field of the copy holds what was assigned, or is left zero *)
    set (g := if IsZero w then Zero (sfType f) else w').
    assert (Hstep :
      copyStruct_loop c rec ot ((f, fv) :: rest) (length seen)
        (VStruct nm (gs ++ zero_fields (((f, fv) :: rest).*1))) h =
      copyStruct_loop c rec ot rest (length (seen ++ [(f, fv)]))
        (VStruct nm ((gs ++ [(f, g)]) ++ zero_fields (rest.*1))) h1).
    { simpl. rewrite Hexp, Htag. simpl. unfold bind at 1. rewrite Hw.
      rewrite length_app, Nat.add_1_r, <- app_assoc. simpl. unfold g.
      destruct (IsZero w) eqn:Hz; simpl; [done|].
      unfold bind. rewrite (assignTo_assign _ _ _ _ _ Has).
      rewrite (Forall2_length _ _ _ Hseen).
      rewrite alter_app_r_alt by lia. by rewrite Nat.sub_diag. }
    rewrite Hstep.
    destruct (IH (seen ++ [(f, fv)]) (gs ++ [(f, g)]) h1 Hall)
      as (gs' & h' & Hrun & Hh' & Hgs').
    { by etrans. }
    { apply prefix_length in Hh1. lia. }
    { apply Forall2_app.
      - eapply Forall2_impl; [done|]. intros f' g' (Hd & Hb' & Htg & Hi).
        repeat split; try done.
        eapply image_weaken; [| | |done]; [done|by apply prefix_length|].
        apply prefix_agree; [done| |done]. by apply prefix_length.
      - constructor; [|done]. unfold g. repeat split; try done; simpl.
        + destruct (IsZero w); [apply has_type_eq, Type_Zero|done].
        + eapply image_weaken; [| | |]; [exact Hlo|done|by intros|].
          destruct (IsZero w); [by apply Hzero|done]. }
    exists gs', h'. split; [done|]. split; [by etrans|].
    by rewrite <- app_assoc in Hgs'.
Qed.

(** The cells of earlier copies are not touched by a later call and by the
    write into the cell [a] of the container being filled. *)
Lemma agree_step (h h2 : heap) a cl lo hi :
  h `prefix_of` h2 → length h0 ≤ a → a < lo →
  length h0 ≤ length h → hi ≤ length h →
  ∀ b, b < length h0 ∨ lo ≤ b < hi → <[a := cl]> h2 !! b = h !! b.
Proof.
  intros Hpre HL Hlo HLh Hhi b Hb.
  rewrite list_lookup_insert_ne by lia.
  symmetry. apply prefix_lookup_lt; [lia|done].
Qed.

Lemma copySlice_loop_plain nm e s es a :
  h0 !! Data s = Some (CArr es) → Off s + Len s ≤ length es →
  forallb (λ x, has_type x e && plain n h0 x)
          (take (Len s) (drop (Off s) es)) = true →
  length h0 ≤ a →
  ∀ todo vs (h : heap),
    h0 `prefix_of` h → length vs + todo = Len s → a < length h →
    h !! a = Some (CArr (vs ++ replicate todo (Zero e))) →
    Forall2 (image n h (length h0) (S a) (length h))
            (take (length vs) (take (Len s) (drop (Off s) es))) vs →
    ∃ ws h',
      copySlice_loop rec nm e s (length vs) todo
        (mkSlice a 0 (length vs) (Len s)) h
        = Return (VSlice nm e (Some (mkSlice a 0 (Len s) (Len s))), None) h' ∧
      h0 `prefix_of` h' ∧ length h ≤ length h' ∧
      h' !! a = Some (CArr ws) ∧
      Forall2 (image n h' (length h0) (S a) (length h'))
              (take (Len s) (drop (Off s) es)) ws.
Proof.
  intros Hes Hbound Hall Ha. induction todo as [|todo IH];
    intros vs h Hpre Hn Hah Hcell Hvs; simpl.
  - exists vs, h. rewrite Nat.add_0_r in Hn. rewrite Hn.
    rewrite app_nil_r in Hcell. repeat split; try done.
    by rewrite Hn, take_ge in Hvs by (rewrite length_take; lia).
  - destruct (lookup_lt_is_Some_2 es (Off s + length vs)) as [x Hx]; [lia|].
    assert (Hxi : take (Len s) (drop (Off s) es) !! length vs = Some x).
    { apply lookup_subslice; [lia|done]. }
    rewrite forallb_forall in Hall.
    pose proof (Hall x) as Hxp. rewrite <- list_elem_of_In in Hxp.
    apply list_elem_of_lookup_2 in Hxi as Hxin.
    apply Hxp, andb_prop in Hxin as [Hty Hplain].
    destruct (rec_typed x e h Hplain Hty Hpre)
      as (w0 & w & h2 & Hw & Hh2 & Has & Htyw & Him & _).
    unfold bind at 1. unfold Index, load, bind at 1, ret.
    rewrite (prefix_lookup_Some _ _ _ _ Hes Hpre), Hx.
    unfold bind at 1. rewrite Hw. unfold bind at 1.
    rewrite <- Hn.
    rewrite (Append_fill e a vs todo (Zero e) w0 w h2)
      by (done || by eapply prefix_lookup_Some).
    rewrite insert_fill.
    replace (S (length vs)) with (length (vs ++ [w]))
      by (rewrite length_app; simpl; lia).
    rewrite Hn.
    pose proof (prefix_length _ _ Hpre) as Hl0.
    pose proof (prefix_length _ _ Hh2) as Hl2.
    destruct (IH (vs ++ [w])
                (<[a := CArr ((vs ++ [w]) ++ replicate todo (Zero e))]> h2))
      as (ws & h' & Hrun & Hpre' & Hlen' & Hcell' & Hws).
    + apply prefix_insert; [by etrans|done].
    + rewrite length_app. simpl. lia.
    + rewrite length_insert. lia.
    + apply list_lookup_insert_eq. lia.
    + rewrite length_app, Nat.add_1_r. erewrite take_S_r by done.
      rewrite length_insert. apply Forall2_app.
      * eapply Forall2_impl; [done|]. intros u v Huv.
        eapply image_weaken; [| | |done]; [done|lia|].
        apply agree_step; try done; lia.
      * constructor; [|done].
        eapply image_weaken; [| | |done]; [lia|done|].
        intros b Hb. apply list_lookup_insert_ne. lia.
    + exists ws, h'. rewrite length_insert in Hlen'.
      repeat split; try done. lia.
Qed.

Lemma copyArray_loop_plain ot nm e a N :
  length h0 ≤ a →
  ∀ rest seen vs (h : heap),
    forallb (λ x, has_type x e && plain n h0 x) rest = true →
    h0 `prefix_of` h → length vs + length rest = N → a < length h →
    h !! a = Some (CArr (vs ++ replicate (length rest) (Zero e))) →
    Forall2 (elem_image n h (length h0) (S a) (length h) e) seen vs →
    ∃ ws h',
      copyArray_loop rec ot nm e a rest (mkSlice a 0 (length vs) N) h
        = Return (VArray nm e ws, None) h' ∧
      h0 `prefix_of` h' ∧ length h ≤ length h' ∧
      Forall2 (elem_image n h' (length h0) (S a) (length h') e)
              (seen ++ rest) ws.
Proof.
  intros Ha. induction rest as [|x rest IH];
    intros seen vs h Hall Hpre Hn Hah Hcell Hvs; simpl.
  - unfold load, bind, ret. rewrite Hcell. exists vs, h.
    by rewrite !app_nil_r.
  - simpl in Hall. apply andb_prop in Hall as [Hx Hall].
    apply andb_prop in Hx as [Hty Hplain].
    destruct (rec_typed x e h Hplain Hty Hpre)
      as (w0 & w & h2 & Hw & Hh2 & Has & Htyw & Him & _).
    unfold bind at 1. rewrite Hw. unfold bind at 1.
    simpl in Hn. rewrite <- Hn.
    rewrite (Append_fill e a vs (length rest) (Zero e) w0 w h2)
      by (done || by eapply prefix_lookup_Some).
    rewrite insert_fill.
    replace (S (length vs)) with (length (vs ++ [w]))
      by (rewrite length_app; simpl; lia).
    rewrite Hn.
    pose proof (prefix_length _ _ Hpre) as Hl0.
    pose proof (prefix_length _ _ Hh2) as Hl2.
    destruct (IH (seen ++ [x]) (vs ++ [w])
                (<[a := CArr ((vs ++ [w]) ++ replicate (length rest) (Zero e))]>
                   h2) Hall)
      as (ws & h' & Hrun & Hpre' & Hlen' & Hws).
    + apply prefix_insert; [by etrans|done].
    + rewrite length_app. simpl. lia.
    + rewrite length_insert. lia.
    + apply list_lookup_insert_eq. lia.
    + rewrite length_insert. apply Forall2_app.
      * eapply Forall2_impl; [done|]. intros u v [Htv Huv]. split; [done|].
        eapply image_weaken; [| | |done]; [done|lia|].
        apply agree_step; try done; lia.
      * constructor; [|done]. split; [done|].
        eapply image_weaken; [| | |done]; [lia|done|].
        intros b Hb. apply list_lookup_insert_ne. lia.
    + exists ws, h'. rewrite length_insert in Hlen'.
      rewrite <- app_assoc in Hws. repeat split; try done. lia.
Qed.

Lemma copyMap_loop_plain nm kt et a :
  length h0 ≤ a →
  ∀ rest seen kws (h : heap),
    keys_ok ((seen ++ rest).*1) = true →
    forallb (λ kv, has_type (kv.1) kt && flat (kv.1) && plain n h0 (kv.1) &&
                   has_type (kv.2) et && plain n h0 (kv.2)) rest = true →
    h0 `prefix_of` h → a < length h →
    h !! a = Some (CMap kws) →
    Forall2 (entry_image n h (length h0) (S a) (length h)) seen kws →
    ∃ kws' h',
      copyMap_loop rec nm kt et a rest h
        = Return (VMap nm kt et (Some a), None) h' ∧
      h0 `prefix_of` h' ∧ length h ≤ length h' ∧
      h' !! a = Some (CMap kws') ∧
      Forall2 (entry_image n h' (length h0) (S a) (length h'))
              (seen ++ rest) kws'.
Proof.
  intros Ha. induction rest as [|[key val] rest IH];
    intros seen kws h Hok Hall Hpre Hah Hcell Hseen; simpl.
  - exists kws, h. by rewrite app_nil_r.
  - simpl in Hall. apply andb_prop in Hall as [Hkv Hall].
    apply andb_prop in Hkv as [Hkv Hpv]. apply andb_prop in Hkv as [Hkv Htv].
    apply andb_prop in Hkv as [Hkv Hpk]. apply andb_prop in Hkv as [Htk Hfk].
    simpl in *.
    destruct (rec_typed key kt h Hpk Htk Hpre)
      as (k0 & k & h1 & Hk & Hh1 & Hask & Htyk & Himk & _).
    destruct (rec_typed val et h1 Hpv Htv)
      as (v0 & v & h2 & Hv & Hh2 & Hasv & Htyv & Himv & _); [by etrans|].
    unfold bind at 1. rewrite Hk. unfold bind at 1. rewrite Hv.
    unfold bind at 1.
    assert (Hh02 : h `prefix_of` h2) by (by etrans).
    pose proof (prefix_length _ _ Hpre) as Hl0.
    pose proof (prefix_length _ _ Hh1) as Hl1.
    pose proof (prefix_length _ _ Hh2) as Hl2.
    rewrite (SetMapIndex_set kt et a k0 v0 k v kws h2 Hask Hasv
               (prefix_lookup_Some _ _ _ _ Hcell Hh02)).
    rewrite map_set_fresh.
    2:{ intros kw Hin.
        destruct (Forall2_elem_of_r _ _ _ _ Hseen Hin)
          as (kv & Hkv & Hf & Hi & _).
        rewrite (go_eqb_image_l _ _ _ _ _ _ _ k Hf Hi).
        rewrite (go_eqb_image_r _ _ _ _ _ _ _ (kv.1) Hfk Himk).
        rewrite fmap_app, fmap_cons in Hok.
        eapply keys_ok_app; [done|]. by apply list_elem_of_fmap_2. }
    destruct (IH (seen ++ [(key, val)]) (kws ++ [(k, v)])
                (<[a := CMap (kws ++ [(k, v)])]> h2))
      as (kws' & h' & Hrun & Hpre' & Hlen' & Hcell' & Hkws').
    + by rewrite <- app_assoc.
    + done.
    + apply prefix_insert; [by do 2 (etrans; [|done])|done].
    + rewrite length_insert. lia.
    + apply list_lookup_insert_eq. lia.
    + rewrite length_insert. apply Forall2_app.
      * eapply Forall2_impl; [done|]. intros kv kw (Hf & Hkk & Hi).
        repeat split; try done;
          (eapply image_weaken; [| | |done]; [done|lia|]);
          apply agree_step; try done; lia.
      * constructor; [|done]. repeat split; try done; simpl.
        -- eapply image_weaken; [| | |exact Himk]; [lia|lia|].
           intros b Hb. rewrite list_lookup_insert_ne by lia.
           symmetry. apply prefix_lookup_lt; [lia|done].
        -- eapply image_weaken; [| | |done]; [lia|done|].
           intros b Hb. apply list_lookup_insert_ne. lia.
    + exists kws', h'. rewrite length_insert in Hlen'.
      rewrite <- app_assoc in Hkws'. repeat split; try done. lia.
Qed.

End round_trip.

Lemma new_type_unnamed v : unnamed_pointer v = true → new_type v = Type_ v.
Proof.
  destruct v as [| | | | |nm e [a|]| | | | |]; try done. simpl.
  intros H. apply bool_decide_eq_true in H. by subst.
Qed.

Lemma retype_value_name x w :
  Type_ w = Type_ x → retype (value_name x) w = w.
Proof.
  intros H. unfold value_name. rewrite <- H.
  destruct (Type_ w) as [t|] eqn:Ht; [by apply retype_same|by destruct w].
Qed.

(** What is no interface value is put into an interface as it is. *)
Lemma assign_interface nm u w :
  is_interface u = false → IsValid u = true → Type_ w = Type_ u →
  assign (TInterface nm) w = Some (VInterface nm (Some w)).
Proof.
  intros Hi Hv Hty. unfold assign, directlyAssignable, same_underlying.
  destruct u; try done; destruct w; try done; simpl;
    by rewrite andb_false_r.
Qed.

(** On the inputs of the round-trip property [c.copy] returns, without an
    error, a copy cell by cell. *)
Lemma copy_plain (c : Config) (h0 : list cell) :
  ∀ n, copies_plain n h0 (copy n c).
Proof.
  induction n as [|n IH]; intros x h Hplain Hpre; [done|].
  pose proof (copy_framed n c) as Hframed.
  pose proof (prefix_length _ _ Hpre) as Hl0.
  cbn [plain] in Hplain. apply andb_prop in Hplain as [Ht Hplain].
  apply negb_true_iff in Ht. rewrite copy_S.
  destruct x as [|nm b bits|nm s|nm e ch|nm fn|nm e [a|]|nm e [s|]|nm e es
                 |nm kt et [a|]|nm [u|]|nm fs];
    try done; cbn [IsValid negb Kind]; rewrite Ht.
  - (* numbers *)
    apply andb_prop in Hplain as [Hraw Hnan].
    exists (VBasic nm b bits), h. split; [by destruct b|].
    split; [done|]. simpl. auto.
  - by exists (VString nm s), h.
  - by exists (VChan nm e ch), h.
  - apply bool_decide_eq_true in Hplain. subst fn.
    by exists (VFunc nm None), h.
  - (* pointers *)
    destruct (h0 !! a) as [[x| |]|] eqn:Ha; try done.
    apply andb_prop in Hplain as [Hty Hplain].
    destruct (rec_typed n h0 _ Hframed IH x e (h ++ [CVal (Zero e)])
                Hplain Hty) as (w & w' & h2 & Hw & Hh2 & Has & Htyw & Him & Hzero);
      [by apply prefix_app_r|].
    pose proof (prefix_length _ _ Hh2) as Hl2.
    rewrite length_app in Hl2, Him, Hzero. simpl in Hl2, Him, Hzero.
    pose proof (lookup_lt_Some _ _ _ Ha) as Hlt.
    unfold copyPointer, new, load, bind at 1. unfold bind at 1.
    rewrite (prefix_lookup_Some _ _ _ _ Ha (prefix_app_r _ _ _ Hpre)).
    unfold bind at 1. rewrite Hw.
    destruct (IsZero w) eqn:Hz; cbn [negb].
    + exists (VPtr anon e (Some (length h))), h2. split; [done|].
      split; [done|].
      exists (length h), x, (Zero e). repeat split; try done; try lia.
      * eapply prefix_lookup_Some; [done|].
        etrans; [|done]. by apply prefix_app_r.
      * eapply prefix_lookup_Some; [|done].
        by rewrite lookup_app_r, Nat.sub_diag.
      * apply has_type_eq, Type_Zero.
      * eapply image_weaken; [| | |by apply Hzero]; [lia|done|done].
    + unfold bind at 1. rewrite (assignTo_assign _ _ _ _ _ Has).
      unfold store, bind, ret. rewrite decide_True by lia.
      exists (VPtr anon e (Some (length h))),
             (<[length h := CVal w']> h2).
      split; [done|]. split; [done|]. rewrite length_insert.
      exists (length h), x, w'. repeat split; try done; try lia.
      * rewrite list_lookup_insert_ne by lia.
        eapply prefix_lookup_Some; [done|].
        etrans; [|done]. by apply prefix_app_r.
      * apply list_lookup_insert_eq. lia.
      * eapply image_weaken; [| | |done]; [lia|done|].
        intros b Hb. apply list_lookup_insert_ne. lia.
  - by exists (VPtr nm e None), h.
  - (* slices *)
    destruct (h0 !! Data s) as [[|es|]|] eqn:Hes; try done.
    apply andb_prop in Hplain as [Hbound Hall].
    apply bool_decide_eq_true in Hbound.
    pose proof (lookup_lt_Some _ _ _ Hes) as Hlt.
    unfold copySlice, MakeSlice, new, bind at 1, ret. unfold bind at 1.
    destruct (copySlice_loop_plain n h0 _ Hframed IH nm e s es (length h)
                Hes Hbound Hall Hl0 (Len s) [] (h ++ [CArr (replicate (Len s) (Zero e))]))
      as (ws & h' & Hrun & Hpre' & Hlen' & Hcell & Hws);
      [by apply prefix_app_r|done|rewrite length_app; simpl; lia
      |by rewrite lookup_app_r, Nat.sub_diag|by constructor|].
    rewrite length_app in Hlen'. simpl in Hlen'.
    exists (VSlice nm e (Some (mkSlice (length h) 0 (Len s) (Len s)))), h'.
    split; [done|]. split; [done|].
    exists (length h), (take (Len s) (drop (Off s) es)), ws.
    repeat split; try done; try lia.
    + unfold elements. by rewrite (prefix_lookup_Some _ _ _ _ Hes Hpre').
    + rewrite length_take, length_drop. lia.
    + eapply Forall2_impl; [done|]. intros u w Huw.
      eapply image_weaken; [| | |done]; [lia|done|done].
  - by exists (VSlice nm e None), h.
  - (* arrays *)
    unfold copyArray, new, bind at 1.
    destruct (copyArray_loop_plain n h0 _ Hframed IH
                (TArray nm (length es) e) nm e (length h) (length es) Hl0
                es [] [] (h ++ [CArr (replicate (length es) (Zero e))]) Hplain)
      as (ws & h' & Hrun & Hpre' & Hlen' & Hws);
      [by apply prefix_app_r|done|rewrite length_app; simpl; lia
      |by rewrite lookup_app_r, Nat.sub_diag|by constructor|].
    exists (VArray nm e ws), h'. split; [done|].
    pose proof (Forall2_length _ _ _ Hws) as Hlen. simpl in Hlen.
    split; [simpl; by rewrite Hlen|].
    exists ws. split; [done|].
    eapply Forall2_impl; [done|]. intros u w [Hty Huw]. split; [done|].
    eapply image_weaken; [| | |done]; [lia|done|done].
  - (* maps *)
    destruct (h0 !! a) as [[| |kvs]|] eqn:Ha; try done.
    apply andb_prop in Hplain as [Hok Hall].
    pose proof (lookup_lt_Some _ _ _ Ha) as Hlt.
    unfold copyMap, new, load, bind at 1. unfold bind at 1.
    rewrite (prefix_lookup_Some _ _ _ _ Ha (prefix_app_r _ _ _ Hpre)).
    destruct (copyMap_loop_plain n h0 _ Hframed IH nm kt et (length h) Hl0
                kvs [] [] (h ++ [CMap []]) Hok Hall)
      as (kws & h' & Hrun & Hpre' & Hlen' & Hcell & Hkws);
      [by apply prefix_app_r|rewrite length_app; simpl; lia
      |by rewrite lookup_app_r, Nat.sub_diag|by constructor|].
    rewrite length_app in Hlen'. simpl in Hlen'.
    exists (VMap nm kt et (Some (length h))), h'. split; [done|].
    split; [done|].
    exists (length h), kvs, kws. repeat split; try done; try lia.
    + by eapply prefix_lookup_Some.
    + eapply Forall2_impl; [done|]. intros kv kw (Hf & Hk & Hv).
      repeat split; try done;
        (eapply image_weaken; [| | |done]; [lia|done|done]).
  - by exists (VMap nm kt et None), h.
  - (* interfaces *)
    apply andb_prop in Hplain as [Hplain Hpl].
    apply andb_prop in Hplain as [Hni Hup]. apply negb_true_iff in Hni.
    destruct (IH u h Hpl Hpre) as (w & h' & Hw & Hty & Him).
    rewrite (new_type_unnamed _ Hup) in Hty.
    rewrite (retype_value_name _ _ Hty) in Him.
    assert (Hv : IsValid u = true).
    { destruct u; try done. by destruct n. }
    unfold copyInterface, bind. rewrite Hw.
    rewrite (assignTo_assign _ _ _ _ _ (assign_interface nm u w Hni Hv Hty)).
    exists (VInterface nm (Some w)), h'. split; [done|]. split; [done|].
    by exists w.
  - by exists (VInterface nm None), h.
  - (* structs *)
    unfold copyStruct.
    destruct (copyStruct_loop_plain c n h0 _ Hframed IH
                (TStruct nm (fs.*1)) nm (length h) fs [] [] h Hplain Hpre)
      as (gs & h' & Hrun & Hpre' & Hgs); [done|by constructor|].
    exists (VStruct nm gs), h'. split; [done|].
    assert (Him : image (S n) h' (length h0) (length h) (length h')
                    (VStruct nm fs) (VStruct nm gs)) by (by exists gs).
    split; [|done]. by destruct (image_type _ _ _ _ _ _ _ Him) as [-> _].
Qed.

Lemma Forall2_elem_of_l {A B : Type} (P : A → B → Prop) xs ys x :
  Forall2 P xs ys → x ∈ xs → ∃ y, y ∈ ys ∧ P x y.
Proof.
  induction 1 as [|x' y xs ys Hxy _ IH]; intros Hx.
  - by apply elem_of_nil in Hx.
  - apply elem_of_cons in Hx as [->|Hx].
    + exists y. split; [by left|done].
    + destruct (IH Hx) as (y' & Hy' & HP). exists y'. split; [by right|done].
Qed.

(** The cells of the original lie below [L]. *)
Lemma image_reach_original n : ∀ (h : heap) L lo hi x y a,
  image n h L lo hi x y → reach h x a → a < L.
Proof.
  induction n as [|n IH]; intros h L lo hi x y a Him Hreach; [done|].
  destruct x as [|nm b bits|nm s|nm e ch|nm fn|nm e [p|]|nm e [s|]|nm e es
                 |nm kt et [m|]|nm [u|]|nm fs];
    cbn [image] in Him; try done; try (by inversion Hreach).
  - destruct Him as (b & u & w & -> & Ha & Hb & Hu & Hw & Hty & Him).
    inversion Hreach as [|? ? ? x' ? Hx' Hr| | | | | | | |]; subst; [done|].
    rewrite Hu in Hx'. injection Hx' as <-. by eapply IH.
  - destruct Him as (b & es & ws & -> & Ha & Hb & Hes & Hlen & Hws & Him).
    inversion Hreach as [| | |? ? ? es' x' ? Hes' Hx' Hr| | | | | |]; subst;
      [done|].
    rewrite Hes in Hes'. injection Hes' as <-.
    destruct (Forall2_elem_of_l _ _ _ _ Him Hx') as (w & _ & Hw).
    by eapply IH.
  - destruct Him as (ws & -> & Him).
    inversion Hreach as [| | | |? ? ? x' ? Hx' Hr| | | | |]; subst.
    destruct (Forall2_elem_of_l _ _ _ _ Him Hx') as (w & _ & _ & Hw).
    by eapply IH.
  - destruct Him as (b & kvs & kws & -> & Ha & Hb & Hkvs & Hkws & Hok & Him).
    inversion Hreach as [| | | | | |? ? ? ? kvs' kv ? Hk' Hin Hr
                         |? ? ? ? kvs' kv ? Hk' Hin Hr| |]; subst; [done| |].
    + rewrite Hkvs in Hk'. injection Hk' as <-.
      destruct (Forall2_elem_of_l _ _ _ _ Him Hin) as (kw & _ & Hf & _).
      apply flat_reach in Hr. congruence.
    + rewrite Hkvs in Hk'. injection Hk' as <-.
      destruct (Forall2_elem_of_l _ _ _ _ Him Hin) as (kw & _ & _ & _ & Hv).
      by eapply IH.
  - destruct Him as (w & -> & Him).
    inversion Hreach as [| | | | | | | |? x' ? Hr|]; subst. by eapply IH.
  - destruct Him as (gs & -> & Him).
    inversion Hreach as [| | | | | | | | |? ? f ? Hin Hr]; subst.
    destruct (Forall2_elem_of_l _ _ _ _ Him Hin) as (g & _ & _ & _ & _ & Hv).
    by eapply IH.
Qed.

(** C2 (as stated) fails for Go's deep equality.  The copy of a map keyed by
    pointers has copies of the pointers as its keys, so no key of the
    original is a key of the copy; a function that is not nil is deeply
    equal to nothing, not even to itself, which is what the copy returns;
    so is a NaN; and the copy of a pointer of a named pointer type is of
    the unnamed pointer type, and values of two types are not deeply
    equal. *)
Lemma round_trip_not_deeply_equal :
  (∃ res h',
     Copy 3 ∅ (Some Ex5.ptr_map) Ex5.mem = Return (Some res, None) h' ∧
     ∀ fuel, DeepEqual fuel h' Ex5.ptr_map res = false) ∧
  (∃ res h',
     Copy 1 ∅ (Some Ex5.fn) [] = Return (Some res, None) h' ∧
     ∀ fuel, DeepEqual fuel h' Ex5.fn res = false) ∧
  (∃ res h',
     Copy 2 ∅ (Some (Ex10.S Ex10.NaN)) [] = Return (Some res, None) h' ∧
     ∀ fuel, DeepEqual fuel h' (Ex10.S Ex10.NaN) res = false) ∧
  (∃ res h',
     Copy 2 ∅ (Some Ex10.p) Ex10.mem = Return (Some res, None) h' ∧
     Type_ Ex10.p = Some (TPtr (mkName "ccopy" "P") Ex.int) ∧
     Type_ res = Some (TPtr anon Ex.int) ∧
     ∀ fuel, DeepEqual fuel h' Ex10.p res = false).
Proof.
  repeat split.
  - eexists _, _. split; [vm_compute; reflexivity|]. by intros [|fuel].
  - eexists _, _. split; [vm_compute; reflexivity|]. by intros [|fuel].
  - eexists _, _. split; [vm_compute; reflexivity|]. by intros [|[|fuel]].
  - eexists _, _. split; [vm_compute; reflexivity|].
    split; [done|]. split; [done|]. by intros [|fuel].
Qed.

(** C2 (amended).  Take a value that is well formed and acyclic in the
    memory [h] and holds only exported, untagged fields, no [time.Time], no
    [uintptr] or [unsafe.Pointer], no NaN, no function that is not nil, and
    no pointer, slice or map inside a map key; that is no pointer of a
    named pointer type, and holds no such pointer directly in an interface.
    [Copy] returns, without an error, a value that is deeply equal to it
    (a negative zero may have become the positive zero, which is equal to
    it).  The copy is made of new cells only: the memory of before is still
    there, unchanged, no cell of the copy is a cell of the original, and so
    a write to a cell of the copy leaves the original as it is, and a write
    to a cell of the original leaves the copy as it is. *)
Theorem round_trip (c : Config) (n : nat) (h : list cell) (v : value) :
  plain n h v = true →
  Kind v ≠ reflect.Interface →
  unnamed_pointer v = true →
  ∃ v' h',
    Copy n c (Some v) h = Return (Some v', None) h' ∧
    h `prefix_of` h' ∧
    DeepEqual n h' v v' = true ∧
    (∀ a b, reach h' v a → reach h' v' b → a < length h ≤ b) ∧
    (∀ b cl, reach h' v' b → h `prefix_of` <[b := cl]> h') ∧
    (∀ a b cl, reach h' v a → reach h' v' b →
               <[a := cl]> h' !! b = h' !! b).
Proof.
  intros Hplain Hkind Hup.
  destruct (copy_plain c h n v h Hplain) as (v' & h' & Hcopy & Hty & Him);
    [done|].
  rewrite (new_type_unnamed _ Hup) in Hty.
  rewrite (retype_value_name _ _ Hty) in Him.
  assert (Hsep : ∀ a b, reach h' v a → reach h' v' b → a < length h ≤ b).
  { intros a b Ha Hb. split; [by eapply image_reach_original|].
    by eapply image_reach. }
  exists v', h'. repeat split.
  - unfold Copy, ValueOf, bind. rewrite Hcopy.
    destruct v' as [| | | | | | | | |nm d|]; try done;
      destruct v; try done; by destruct n.
  - by eapply copy_framed.
  - by eapply image_DeepEqual.
  - by eapply Hsep.
  - by eapply Hsep.
  - intros b cl Hb. apply prefix_insert; [by eapply copy_framed|].
    by eapply image_reach.
  - intros a b cl Ha Hb. apply list_lookup_insert_ne.
    destruct (Hsep _ _ Ha Hb). lia.
Qed.

Lemma round_trip_witness :
  ∃ v' h',
    Copy 5 ∅ (Some Ex4.S) Ex4.mem = Return (Some v', None) h' ∧
    Ex4.mem `prefix_of` h' ∧
    DeepEqual 5 h' Ex4.S v' = true ∧
    (∀ a b, reach h' Ex4.S a → reach h' v' b → a < length Ex4.mem ≤ b) ∧
    (∀ b cl, reach h' v' b → Ex4.mem `prefix_of` <[b := cl]> h') ∧
    (∀ a b cl, reach h' Ex4.S a → reach h' v' b →
               <[a := cl]> h' !! b = h' !! b).
Proof.
  apply (round_trip ∅ 5 Ex4.mem Ex4.S).
  - vm_compute. reflexivity.
  - simpl. discriminate.
  - reflexivity.
Defined.

(** * Further properties *)

(** ** The memory of the caller *)

(** X1.  Whatever [Copy] returns, a copy or an error, every cell that was
    in the memory before the call is still there and holds what it held:
    the copy writes to cells of its own only.  The registered functions
    are taken to allocate and not to write to what is there, as a
    [transformer] does. *)
Theorem Copy_leaves_memory (fuel : nat) (c : Config) (obj : option value)
    (h : list cell) r h' :
  Copy fuel c obj h = Return r h' → h `prefix_of` h'.
Proof.
  intros HC. unfold Copy in HC.
  apply bind_inv in HC as ([oc [err|]] & h1 & Hc & HC);
    apply copy_framed in Hc.
  - by injection HC as _ <-.
  - apply bind_inv in HC as (i & h2 & Hi & HC). injection HC as _ <-.
    destruct oc; simpl in Hi; try done; by injection Hi as _ <-.
Qed.

Lemma Copy_leaves_memory_witness :
  ∃ r h', Copy 5 ∅ (Some Ex4.S) Ex4.mem = Return r h' ∧
          Ex4.mem `prefix_of` h'.
Proof.
  eexists _, _. split; [vm_compute; reflexivity|].
  eapply (Copy_leaves_memory 5 ∅ (Some Ex4.S) Ex4.mem). vm_compute. reflexivity.
Defined.

(** ** Errors *)

(** An error of a call under [v] is the error of the copy of [v], which
    stops there. *)
Lemma calls_error (c : Config) n v h m u h' r err h'' :
  calls c n v h m u h' →
  copy m c u h' = Return (r, Some err) h'' →
  ∃ r', copy n c v h = Return (r', Some err) h''.
Proof.
  induction 1 as [n v h
                 |n nm e a x h m u h' Ht Ha _ IH
                 |n nm x h m u h' Ht _ IH
                 |n nm pre f fv rest h oc h1 m u h' Ht Hexp Htag Hpre _ IH
                 |n nm e s i h oc h1 x m u h' Ht Hi Hpre Hx _ IH
                 |n nm e pre x rest h r0 h1 m u h' Ht Hpre _ IH
                 |n nm kt et a pre key val rest h r0 h1 m u h' Ht Ha Hpre _ IH
                 |n nm kt et a pre key val rest h r0 h1 k h2 m u h'
                    Ht Ha Hpre Hk _ IH];
    intros Hp; [by eexists|destruct (IH Hp) as [r' Hr']..].
  - eexists. simpl. simpl in Ht. rewrite Ht.
    unfold copyPointer, new, load, bind.
    rewrite (lookup_app_l_Some _ _ _ _ Ha). by rewrite Hr'.
  - eexists. simpl. simpl in Ht. rewrite Ht. unfold copyInterface, bind.
    by rewrite Hr'.
  - eexists. rewrite copy_struct by done.
    rewrite (copyStruct_loop_app _ _ _ _ _ _ _ _ _ _ Hpre). simpl.
    rewrite Hexp, Htag. simpl. unfold bind. by rewrite Hr'.
  - eexists. simpl. simpl in Ht. rewrite Ht.
    unfold copySlice, MakeSlice, new, bind, ret.
    pose proof (copySlice_loop_split _ nm e s (S (Len s - S i))
                  _ _ _ _ _ _ Hpre) as Hsplit.
    replace (i + S (Len s - S i)) with (Len s) in Hsplit by lia.
    rewrite Hsplit. simpl. unfold bind. by rewrite Hx, Hr'.
  - eexists. simpl. simpl in Ht. rewrite Ht. unfold copyArray, new, bind.
    erewrite copyArray_loop_split; [|simpl; rewrite length_app; lia|done].
    simpl. unfold bind. by rewrite Hr'.
  - eexists. simpl. simpl in Ht. rewrite Ht. unfold copyMap, new, load, bind.
    rewrite (lookup_app_l_Some _ _ _ _ Ha).
    rewrite (copyMap_loop_split _ _ _ _ _ _ _ _ _ _ Hpre).
    simpl. unfold bind. by rewrite Hr'.
  - eexists. simpl. simpl in Ht. rewrite Ht. unfold copyMap, new, load, bind.
    rewrite (lookup_app_l_Some _ _ _ _ Ha).
    rewrite (copyMap_loop_split _ _ _ _ _ _ _ _ _ _ Hpre).
    simpl. unfold bind. by rewrite Hk, Hr'.
Qed.

(** X2.  An error met anywhere under a value stops the whole copy: when the
    copy of [v] gets to a call of [c.copy] that returns an error, [Copy]
    of [v] returns nil and that very error, in the memory that call left;
    nothing more is copied. *)
Theorem error_aborts_copy (c : Config) n v (h : list cell) m u h' r err h'' :
  calls c n v h m u h' →
  copy m c u h' = Return (r, Some err) h'' →
  Copy n c (Some v) h = Return (None, Some err) h''.
Proof.
  intros Hcalls Herr.
  destruct (calls_error _ _ _ _ _ _ _ _ _ _ Hcalls Herr) as [r' Hr'].
  unfold Copy, ValueOf, bind. by rewrite Hr'.
Qed.

Lemma error_aborts_copy_witness :
  Copy 3 ∅ (Some Ex6.ptr) Ex6.mem =
    Return (None, Some "missing copy customiser for: anonymiseName")
           (Ex6.mem ++ [CVal (Zero (TStruct (mkName "ccopy" "T")
                                      [Ex.field "A" "" [] Ex.int;
                                       Ex.field "Name" "" ["anonymiseName"]
                                         Ex.str]))]).
Proof.
  eapply (error_aborts_copy ∅ 3 Ex6.ptr Ex6.mem 2 Ex.T_example).
  - apply calls_pointer with (x := Ex.T_example); [reflexivity..|].
    apply calls_here.
  - vm_compute. reflexivity.
Defined.

Section errors.

Context (c : Config) (rec : value → M (value * error)).
Hypothesis rec_errs : errs_known c rec.

Lemma copyStruct_loop_errs ot fs : ∀ i oc h r err h',
  copyStruct_loop c rec ot fs i oc h = Return (r, Some err) h' →
  copy_error c err.
Proof.
  induction fs as [|[f fv] rest IH]; intros i oc h r err h' Hrun;
    simpl in Hrun; [done|].
  destruct (CanInterface f); simpl in Hrun; [|by eapply IH].
  destruct (String.eqb _ "") eqn:Htag.
  - apply bind_inv in Hrun as ([v [e|]] & h1 & Hv & Hrun).
    + injection Hrun as _ <- _. by eapply rec_errs.
    + destruct (IsZero v); simpl in Hrun; [by eapply IH|].
      apply bind_inv in Hrun as (w & h2 & Hw & Hrun). by eapply IH.
  - destruct (lookup_fn _ _) as [fn|] eqn:Hfn.
    + apply bind_inv in Hrun as (v & h1 & Hv & Hrun).
      destruct (IsZero v); simpl in Hrun; [by eapply IH|].
      apply bind_inv in Hrun as (w & h2 & Hw & Hrun). by eapply IH.
    + injection Hrun as _ <- _. right. eexists. split; [|done].
      intros Heq. rewrite Heq in Htag. done.
Qed.

Lemma copyPointer_errs : errs_known c (copyPointer rec).
Proof.
  intros ov h r err h' Hrun. unfold copyPointer in Hrun.
  destruct ov as [| | | | |nm e [a|]| | | | |]; try done.
  unfold new, load, bind in Hrun.
  destruct ((h ++ _) !! a) as [[x| |]|]; try done.
  destruct (rec x _) as [[v [e'|]] h1| | |] eqn:Hv; try done.
  - injection Hrun as _ <- _. by eapply rec_errs.
  - destruct (IsZero v); simpl in Hrun; [done|].
    destruct (assignTo _ _ _ _) as [w h2| | |]; try done.
    unfold store, ret in Hrun. by destruct (decide _).
Qed.

Lemma copyInterface_errs : errs_known c (copyInterface rec).
Proof.
  intros ov h r err h' Hrun. unfold copyInterface in Hrun.
  destruct ov as [| | | | | | | | |nm [x|]|]; try done.
  apply bind_inv in Hrun as ([v [e'|]] & h1 & Hv & Hrun).
  - injection Hrun as _ <- _. by eapply rec_errs.
  - by apply bind_inv in Hrun as (w & h2 & Hw & Hrun).
Qed.

Lemma copySlice_loop_errs nm e s : ∀ todo i oc h r err h',
  copySlice_loop rec nm e s i todo oc h = Return (r, Some err) h' →
  copy_error c err.
Proof.
  induction todo as [|todo IH]; intros i oc h r err h' Hrun; simpl in Hrun;
    [done|].
  apply bind_inv in Hrun as (x & h1 & Hx & Hrun).
  apply bind_inv in Hrun as ([v [e'|]] & h2 & Hv & Hrun).
  - injection Hrun as _ <- _. by eapply rec_errs.
  - apply bind_inv in Hrun as (oc' & h3 & Happ & Hrun). by eapply IH.
Qed.

Lemma copySlice_errs : errs_known c (copySlice rec).
Proof.
  intros ov h r err h' Hrun. unfold copySlice in Hrun.
  destruct ov as [| | | | | |nm e [s|]| | | |]; try done.
  unfold MakeSlice, new, bind, ret in Hrun.
  by eapply copySlice_loop_errs.
Qed.

Lemma copyArray_loop_errs ot nm e a : ∀ es slice h r err h',
  copyArray_loop rec ot nm e a es slice h = Return (r, Some err) h' →
  copy_error c err.
Proof.
  induction es as [|x es IH]; intros slice h r err h' Hrun; simpl in Hrun.
  - unfold load, bind in Hrun. by destruct (h !! a) as [[| es' |]|].
  - apply bind_inv in Hrun as ([v [e'|]] & h2 & Hv & Hrun).
    + injection Hrun as _ <- _. by eapply rec_errs.
    + apply bind_inv in Hrun as (oc' & h3 & Happ & Hrun). by eapply IH.
Qed.

Lemma copyArray_errs : errs_known c (copyArray rec).
Proof.
  intros ov h r err h' Hrun. unfold copyArray in Hrun.
  destruct ov as [| | | | | | |nm e es| | |]; try done.
  unfold new, bind in Hrun. by eapply copyArray_loop_errs.
Qed.

Lemma copyMap_loop_errs nm kt et oc : ∀ kvs h r err h',
  copyMap_loop rec nm kt et oc kvs h = Return (r, Some err) h' →
  copy_error c err.
Proof.
  induction kvs as [|[key val] kvs IH]; intros h r err h' Hrun;
    simpl in Hrun; [done|].
  apply bind_inv in Hrun as ([k [e'|]] & h1 & Hk & Hrun).
  { injection Hrun as _ <- _. by eapply rec_errs. }
  apply bind_inv in Hrun as ([v [e'|]] & h2 & Hv & Hrun).
  { injection Hrun as _ <- _. by eapply rec_errs. }
  apply bind_inv in Hrun as (u & h3 & Hset & Hrun). by eapply IH.
Qed.

Lemma copyMap_errs : errs_known c (copyMap rec).
Proof.
  intros ov h r err h' Hrun. unfold copyMap in Hrun.
  destruct ov as [| | | | | | | |nm kt et [a|]| |]; try done.
  unfold new, load, bind in Hrun.
  destruct ((h ++ _) !! a) as [[| |kvs]|]; try done.
  by eapply copyMap_loop_errs.
Qed.

End errors.

Lemma copy_errs (fuel : nat) (c : Config) : errs_known c (copy fuel c).
Proof.
  induction fuel as [|fuel IH]; intros ov h r err h' Hrun; [done|].
  rewrite copy_S in Hrun.
  destruct ov as [|nm b bits| | | | | | | | |];
    cbn [IsValid negb Kind] in Hrun;
    try (destruct (is_time _); [done|]);
    try done.
  - injection Hrun as _ <- _. by left.
  - by destruct b.
  - exact (copyPointer_errs _ _ IH _ _ _ _ _ Hrun).
  - exact (copySlice_errs _ _ IH _ _ _ _ _ Hrun).
  - exact (copyArray_errs _ _ IH _ _ _ _ _ Hrun).
  - exact (copyMap_errs _ _ IH _ _ _ _ _ Hrun).
  - exact (copyInterface_errs _ _ IH _ _ _ _ _ Hrun).
  - exact (copyStruct_loop_errs _ _ IH _ _ _ _ _ _ _ _ Hrun).
Qed.

(** X3.  [Copy] has two errors and no other: "invalid value", and "missing
    copy customiser for: " followed by a tag that is not empty and for
    which the registry gives no function.  With an error the result is
    nil. *)
Theorem Copy_errors (fuel : nat) (c : Config) (obj : option value)
    (h : list cell) r err h' :
  Copy fuel c obj h = Return (r, Some err) h' →
  r = None ∧ copy_error c err.
Proof.
  intros HC. unfold Copy in HC.
  apply bind_inv in HC as ([oc [e'|]] & h1 & Hc & HC).
  - injection HC as <- <- _. split; [done|]. by eapply copy_errs.
  - by apply bind_inv in HC as (i & h2 & Hi & HC).
Qed.

Lemma Copy_errors_witness :
  copy_error ∅ "missing copy customiser for: anonymiseName".
Proof.
  eapply (Copy_errors 3 ∅ (Some Ex6.ptr) Ex6.mem None).
  vm_compute. reflexivity.
Defined.

(** ** The type of what [Copy] returns *)

(** X4.  When [Copy] of a value that is no interface returns without an
    error, what it returns has the type of the value it was given (the same
    declared fields for a struct, the same length for an array), whatever
    the registered functions did, with one exception ([copy_type]): the
    copy of a pointer that is not nil (and no [time.Time]) is of the
    unnamed pointer type [*Elem], also when the original is of a named
    pointer type.  The copy is nil when the original is nil and only
    then. *)
Theorem Copy_keeps_type (fuel : nat) (c : Config) (v : value)
    (h : list cell) r h' :
  Kind v ≠ reflect.Interface →
  Copy fuel c (Some v) h = Return (r, None) h' →
  ∃ v', r = Some v' ∧ Type_ v' = copy_type v ∧ is_nil v' = is_nil v.
Proof.
  intros HK HC. unfold Copy, ValueOf in HC.
  apply bind_inv in HC as ([oc [e'|]] & h1 & Hc & HC); [done|].
  apply bind_inv in HC as (i & h2 & Hi & HC). injection HC as <- _.
  apply copy_typed in Hc as [Hty Hnil]. specialize (Hnil HK).
  assert (HKoc : Kind oc ≠ reflect.Interface).
  { intros Hoc.
    assert (∃ nm d, oc = VInterface nm d) as (nm & d & ->).
    { destruct oc as [|? [] ?| | | | | | | | |]; try done. by eexists _, _. }
    unfold copy_type in Hty.
    destruct v as [| | | | |? ? [?|]| | | | |]; try done;
      by destruct (is_time _). }
  destruct oc; try done; simpl in Hi; injection Hi as <- _; by eexists.
Qed.

Lemma Copy_keeps_type_witness :
  ∃ v', Some (VPtr anon Ex.int (Some 1)) = Some v' ∧
        Type_ v' = copy_type Ex10.p ∧ is_nil v' = is_nil Ex10.p.
Proof.
  eapply (Copy_keeps_type 2 ∅ Ex10.p Ex10.mem).
  - done.
  - vm_compute. reflexivity.
Defined.

(** ** What the copy takes from the registry *)

Section registries.

Context (c1 c2 : Config) (rec1 rec2 : value → M (value * error)).
Hypothesis same : same_functions c1 c2.
Hypothesis rec_same : ∀ v h, rec1 v h = rec2 v h.

Lemma copyStruct_loop_same ot fs : ∀ i oc h,
  copyStruct_loop c1 rec1 ot fs i oc h = copyStruct_loop c2 rec2 ot fs i oc h.
Proof.
  induction fs as [|[f fv] rest IH]; intros i oc h; [done|].
  simpl. destruct (CanInterface f); simpl; [|apply IH].
  destruct (String.eqb _ "") eqn:Htag.
  - unfold bind. rewrite rec_same.
    destruct (rec2 fv h) as [[v [err|]] h1| | |]; try done.
    destruct (IsZero v); simpl; [apply IH|].
    destruct (assignTo _ _ _ _) as [w h2| | |]; [apply IH|done..].
  - rewrite same by (intros Heq; by rewrite Heq in Htag).
    destruct (lookup_fn _ _); [|done]. unfold bind.
    destruct (Call _ _ _) as [v h1| | |]; try done.
    destruct (IsZero v); simpl; [apply IH|].
    destruct (assignTo _ _ _ _) as [w h2| | |]; [apply IH|done..].
Qed.

Lemma copyPointer_same ov h : copyPointer rec1 ov h = copyPointer rec2 ov h.
Proof.
  destruct ov as [| | | | |nm e [a|]| | | | |]; try done.
  unfold copyPointer, new, load, bind.
  destruct ((h ++ _) !! a) as [[x| |]|]; try done. by rewrite rec_same.
Qed.

Lemma copyInterface_same ov h :
  copyInterface rec1 ov h = copyInterface rec2 ov h.
Proof.
  destruct ov as [| | | | | | | | |nm [x|]|]; try done.
  unfold copyInterface, bind. by rewrite rec_same.
Qed.

Lemma copySlice_loop_same nm e s : ∀ todo i oc h,
  copySlice_loop rec1 nm e s i todo oc h
  = copySlice_loop rec2 nm e s i todo oc h.
Proof.
  induction todo as [|todo IH]; intros i oc h; [done|].
  simpl. unfold bind. destruct (Index s i h) as [x h1| | |]; try done.
  rewrite rec_same. destruct (rec2 x h1) as [[v [err|]] h2| | |]; try done.
  destruct (Append e oc v h2) as [oc' h3| | |]; [apply IH|done..].
Qed.

Lemma copySlice_same ov h : copySlice rec1 ov h = copySlice rec2 ov h.
Proof.
  destruct ov as [| | | | | |nm e [s|]| | | |]; try done.
  unfold copySlice, MakeSlice, new, bind, ret. apply copySlice_loop_same.
Qed.

Lemma copyArray_loop_same ot nm e a : ∀ es slice h,
  copyArray_loop rec1 ot nm e a es slice h
  = copyArray_loop rec2 ot nm e a es slice h.
Proof.
  induction es as [|x es IH]; intros slice h; [done|].
  simpl. unfold bind. rewrite rec_same.
  destruct (rec2 x h) as [[v [err|]] h2| | |]; try done.
  destruct (Append e slice v h2) as [oc' h3| | |]; [apply IH|done..].
Qed.

Lemma copyArray_same ov h : copyArray rec1 ov h = copyArray rec2 ov h.
Proof.
  destruct ov as [| | | | | | |nm e es| | |]; try done.
  unfold copyArray, new, bind. apply copyArray_loop_same.
Qed.

Lemma copyMap_loop_same nm kt et oc : ∀ kvs h,
  copyMap_loop rec1 nm kt et oc kvs h = copyMap_loop rec2 nm kt et oc kvs h.
Proof.
  induction kvs as [|[key val] kvs IH]; intros h; [done|].
  simpl. unfold bind. rewrite rec_same.
  destruct (rec2 key h) as [[k [err|]] h1| | |]; try done.
  rewrite rec_same.
  destruct (rec2 val h1) as [[v [err|]] h2| | |]; try done.
  destruct (SetMapIndex kt et oc k v h2) as [u h3| | |]; [apply IH|done..].
Qed.

Lemma copyMap_same ov h : copyMap rec1 ov h = copyMap rec2 ov h.
Proof.
  destruct ov as [| | | | | | | |nm kt et [a|]| |]; try done.
  unfold copyMap, new, load, bind.
  destruct ((h ++ _) !! a) as [[| |kvs]|]; try done.
  apply copyMap_loop_same.
Qed.

End registries.

Lemma copy_same (c1 c2 : Config) (fuel : nat) :
  same_functions c1 c2 → ∀ ov h, copy fuel c1 ov h = copy fuel c2 ov h.
Proof.
  intros Hsame. induction fuel as [|fuel IH]; intros ov h; [done|].
  rewrite !copy_S.
  destruct ov as [|nm b bits| | | | | | | | |];
    cbn [IsValid negb Kind];
    try (destruct (is_time _); [done|]); try done.
  - by apply copyPointer_same.
  - by apply copySlice_same.
  - by apply copyArray_same.
  - by apply copyMap_same.
  - by apply copyInterface_same.
  - by apply copyStruct_loop_same.
Qed.

(** X5.  The copy takes from the registry the functions of the tags that
    are not empty, and nothing else: two registries that give the same
    function for every such tag, an entry that holds nil counting as a
    missing one, give the same result, the same error or the same panic
    for every value.  What a registry holds under the empty tag is never
    used. *)
Theorem Copy_same_functions (c1 c2 : Config) (fuel : nat)
    (obj : option value) (h : list cell) :
  same_functions c1 c2 → Copy fuel c1 obj h = Copy fuel c2 obj h.
Proof.
  intros Hsame. unfold Copy, bind. by rewrite (copy_same c1 c2 fuel Hsame).
Qed.

Lemma Copy_same_functions_witness :
  Copy 3 (<[ "" := Some Ex.anonymiseName ]> (<[ "A" := None ]> ∅))
       (Some Ex.T_two_tags) []
  = Copy 3 ∅ (Some Ex.T_two_tags) [].
Proof.
  apply (Copy_same_functions
           (<[ "" := Some Ex.anonymiseName ]> (<[ "A" := None ]> ∅)) ∅ 3).
  intros tag Htag. unfold lookup_fn.
  rewrite lookup_insert_ne by done.
  destruct (decide (tag = "A")) as [->|HA].
  - by rewrite lookup_insert_eq.
  - by rewrite lookup_insert_ne.
Defined.

(** ** Pointers *)







(** ** Values that hold themselves *)

Lemma child_prefix (h h1 : heap) v u :
  h `prefix_of` h1 → child h v u → child h1 v u.
Proof.
  intros Hpre [Ht Hin]. split; [done|].
  destruct Hin; eauto using inside, prefix_lookup_Some.
Qed.

Lemma deep_prefix (h h1 : heap) v k :
  h `prefix_of` h1 → deep h v k → deep h1 v k.
Proof.
  intros Hpre. induction 1 as [|v u k Hc _ IH]; [constructor|].
  econstructor; [|done]. by eapply child_prefix.
Qed.

Lemma deep_less (h : heap) v k : deep h v (S k) → deep h v k.
Proof.
  revert v. induction k as [|k IH]; intros v Hd; [constructor|].
  inversion Hd as [|? u ? Hc Hu]; subst. econstructor; [done|]. by apply IH.
Qed.

Lemma deep_tc (h : heap) u w k :
  tc (child h) u w → deep h w k → deep h u (S k).
Proof.
  induction 1 as [u w Hc|u y w Hc _ IH]; intros Hw.
  - by econstructor.
  - apply deep_less. econstructor; [done|]. by apply IH.
Qed.

Lemma deep_cycle (h : heap) v : tc (child h) v v → ∀ k, deep h v k.
Proof.
  intros Hcyc. induction k as [|k IH]; [constructor|]. by eapply deep_tc.
Qed.

Section children.

Context (c : Config) (rec : value → M (value * error)).
Hypothesis rec_framed : framed rec.

Lemma copyStruct_loop_children ot fs (h0 : heap) : ∀ i oc h res h',
  h0 `prefix_of` h →
  copyStruct_loop c rec ot fs i oc h = Return (res, None) h' →
  ∀ f fv, (f, fv) ∈ fs → CanInterface f = true →
          Tag_Get (sfTag f) tagCcopy = "" → copied_in rec h0 fv.
Proof.
  induction fs as [|[f fv] rest IH]; intros i oc h res h' Hpre Hrun f' fv' Hin
    Hexp Htag; [by apply elem_of_nil in Hin|].
  simpl in Hrun. apply elem_of_cons in Hin as [Heq|Hin].
  - injection Heq as -> ->. rewrite Hexp, Htag in Hrun. simpl in Hrun.
    apply bind_inv in Hrun as ([v [err|]] & h1 & Hv & Hrun); [done|].
    by eexists _, _, _.
  - destruct (CanInterface f); simpl in Hrun; [|by eapply IH].
    destruct (String.eqb _ "").
    + apply bind_inv in Hrun as ([v [err|]] & h1 & Hv & Hrun); [done|].
      apply rec_framed in Hv.
      assert (h0 `prefix_of` h1) by (by etrans).
      destruct (IsZero v); simpl in Hrun; [by eapply IH|].
      apply bind_inv in Hrun as (w & h2 & Hw & Hrun).
      apply assignTo_inv in Hw as [_ ->]. by eapply IH.
    + destruct (lookup_fn _ _) as [fn|]; [|done].
      apply bind_inv in Hrun as (v & h1 & Hv & Hrun).
      apply Call_framed in Hv.
      assert (h0 `prefix_of` h1) by (by etrans).
      destruct (IsZero v); simpl in Hrun; [by eapply IH|].
      apply bind_inv in Hrun as (w & h2 & Hw & Hrun).
      apply assignTo_inv in Hw as [_ ->]. by eapply IH.
Qed.

Lemma copySlice_loop_children nm e s es (h0 : heap) :
  h0 !! Data s = Some (CArr es) →
  ∀ todo i oc h res h',
    h0 `prefix_of` h → length h0 ≤ Data oc →
    copySlice_loop rec nm e s i todo oc h = Return (res, None) h' →
    ∀ j x, i ≤ j < i + todo → es !! (Off s + j) = Some x → copied_in rec h0 x.
Proof.
  intros Hes. induction todo as [|todo IH];
    intros i oc h res h' Hpre Hd Hrun j x Hj Hx; [lia|].
  simpl in Hrun.
  apply bind_inv in Hrun as (y & h1 & Hy & Hrun).
  pose proof (Index_frame _ _ _ _ _ Hy) as ->.
  apply bind_inv in Hrun as ([v [err|]] & h2 & Hv & Hrun); [done|].
  destruct (decide (j = i)) as [->|Hne].
  - unfold Index, load, bind in Hy.
    rewrite (prefix_lookup_Some _ _ _ _ Hes Hpre), Hx in Hy.
    injection Hy as <-. by eexists _, _, _.
  - pose proof (rec_framed _ _ _ _ Hv) as Hfr.
    apply bind_inv in Hrun as (oc' & h3 & Happ & Hrun).
    eapply (Append_frame _ _ _ _ _ _ h0) in Happ as [Hpre' Hd'];
    [|by etrans|done].
    apply (IH (S i) oc' h3 res h' Hpre' Hd' Hrun j x); [lia|done].
Qed.

Lemma copyArray_loop_children ot nm e a (h0 : heap) : ∀ es slice h res h',
  h0 `prefix_of` h → length h0 ≤ Data slice →
  copyArray_loop rec ot nm e a es slice h = Return (res, None) h' →
  ∀ x, x ∈ es → copied_in rec h0 x.
Proof.
  induction es as [|y es IH]; intros slice h res h' Hpre Hd Hrun x Hin;
    [by apply elem_of_nil in Hin|].
  simpl in Hrun.
  apply bind_inv in Hrun as ([v [err|]] & h2 & Hv & Hrun); [done|].
  apply elem_of_cons in Hin as [->|Hin]; [by eexists _, _, _|].
  pose proof (rec_framed _ _ _ _ Hv) as Hfr.
  apply bind_inv in Hrun as (oc' & h3 & Happ & Hrun).
  eapply (Append_frame _ _ _ _ _ _ h0) in Happ as [Hpre' Hd'];
    [|by etrans|done].
  by eapply IH.
Qed.

Lemma copyMap_loop_children nm kt et oc (h0 : heap) : ∀ kvs h res h',
  h0 `prefix_of` h → length h0 ≤ oc →
  copyMap_loop rec nm kt et oc kvs h = Return (res, None) h' →
  ∀ key val, (key, val) ∈ kvs → copied_in rec h0 key ∧ copied_in rec h0 val.
Proof.
  induction kvs as [|[key val] kvs IH]; intros h res h' Hpre Hd Hrun k' v' Hin;
    [by apply elem_of_nil in Hin|].
  simpl in Hrun.
  apply bind_inv in Hrun as ([k [err|]] & h1 & Hk & Hrun); [done|].
  pose proof (rec_framed _ _ _ _ Hk) as Hfr1.
  apply bind_inv in Hrun as ([v [err|]] & h2 & Hv & Hrun); [done|].
  pose proof (rec_framed _ _ _ _ Hv) as Hfr2.
  apply elem_of_cons in Hin as [Heq|Hin].
  - injection Heq as -> ->.
    split; [exists h, k, h1|exists h1, v, h2]; (split; [|done]);
      [done|by etrans].
  - apply bind_inv in Hrun as (u & h3 & Hset & Hrun).
    eapply (SetMapIndex_frame _ _ _ _ _ _ _ _ h0) in Hset;
      [|by etrans; [|etrans]|done].
    by eapply IH.
Qed.

End children.

(** What lies one level under a value that was copied without an error
    was copied without an error, with one level less to go. *)
Lemma copy_children (fuel : nat) (c : Config) v (h : heap) r h' u :
  copy (S fuel) c v h = Return (r, None) h' →
  child h v u → copied_in (copy fuel c) h u.
Proof.
  intros Hrun [Ht Hin]. pose proof (copy_framed fuel c) as Hfr.
  rewrite copy_S in Hrun.
  destruct Hin as [nm e a x Ha|nm x|nm fs f fv Hin Hexp Htag
                  |nm e s es i x Hes Hi Hx|nm e es x Hin
                  |nm kt et a kvs key val Ha Hin
                  |nm kt et a kvs key val Ha Hin];
    cbn [IsValid negb Kind] in Hrun; rewrite Ht in Hrun.
  - unfold copyPointer, new, load, bind in Hrun.
    rewrite (lookup_app_l_Some _ _ _ _ Ha) in Hrun.
    destruct (copy fuel c x _) as [[v [err|]] h1| | |] eqn:Hv; try done.
    eexists _, _, _. split; [|done]. by apply prefix_app_r.
  - unfold copyInterface in Hrun.
    apply bind_inv in Hrun as ([v [err|]] & h1 & Hv & Hrun); [done|].
    by eexists _, _, _.
  - by eapply (copyStruct_loop_children c _ Hfr _ _ h).
  - unfold copySlice, MakeSlice, new, bind, ret in Hrun.
    eapply (copySlice_loop_children _ Hfr nm e s es h Hes) in Hrun;
      [done|by apply prefix_app_r|done| |done]. lia.
  - unfold copyArray, new, bind in Hrun.
    eapply (copyArray_loop_children _ Hfr) in Hrun;
      [done|by apply prefix_app_r|done|done].
  - unfold copyMap, new, load, bind in Hrun.
    rewrite (lookup_app_l_Some _ _ _ _ Ha) in Hrun.
    eapply (copyMap_loop_children _ Hfr) in Hrun as [Hk _];
      [done|by apply prefix_app_r|done|done].
  - unfold copyMap, new, load, bind in Hrun.
    rewrite (lookup_app_l_Some _ _ _ _ Ha) in Hrun.
    eapply (copyMap_loop_children _ Hfr) in Hrun as [_ Hv];
      [done|by apply prefix_app_r|done|done].
Qed.

(** A copy goes one level of the recursion down for each level of the
    value. *)
Lemma copy_deep (c : Config) : ∀ fuel v (h : heap) r h' k,
  copy fuel c v h = Return (r, None) h' → deep h v k → k < fuel.
Proof.
  induction fuel as [|fuel IH]; intros v h r h' k Hrun Hdeep; [done|].
  destruct Hdeep as [|v u k Hc Hu]; [lia|].
  destruct (copy_children _ _ _ _ _ _ _ Hrun Hc) as (h1 & r1 & h2 & Hpre & Hu').
  apply (deep_prefix _ _ _ _ Hpre) in Hu.
  pose proof (IH _ _ _ _ _ Hu' Hu). lia.
Qed.

(** X8.  A value that holds itself is never copied.  If, going down from
    [v] through pointers, interfaces, exported untagged fields, elements,
    keys and map values, one comes to [v] again, then [Copy] returns no
    copy of [v], however deep the recursion may go: in Go the recursion
    does not end, unless an error or a panic ends it before. *)
Theorem cyclic_value_not_copied (c : Config) (fuel : nat) (v : value)
    (h : list cell) r h' :
  tc (child h) v v →
  Copy fuel c (Some v) h ≠ Return (r, None) h'.
Proof.
  intros Hcyc HC. unfold Copy, ValueOf in HC.
  apply bind_inv in HC as ([oc [e'|]] & h1 & Hc & HC); [done|].
  pose proof (copy_deep _ _ _ _ _ _ fuel Hc (deep_cycle _ _ Hcyc fuel)). lia.
Qed.

Lemma cyclic_value_not_copied_witness :
  Copy 1000 ∅ (Some Ex7.p) Ex7.mem
  ≠ Return (Some Ex7.p, None) Ex7.mem.
Proof.
  apply (cyclic_value_not_copied ∅ 1000 Ex7.p Ex7.mem).
  eapply tc_l; [|apply tc_once].
  - split; [reflexivity|]. by apply (inside_pointer Ex7.mem _ _ 0 Ex7.x).
  - split; [reflexivity|]. apply inside_interface.
Defined.

(** ** Panics of the registered functions *)

(** X9.  A panic of a registered function is a panic of [Copy]: when the
    copy of [v] gets to a struct, copies the fields before an exported
    field with a registered tag without an error, and the function of that
    tag panics on what the field holds, then [Copy] of [v] panics with the
    same message.  Nothing recovers it, and no error is returned. *)
Theorem function_panic_propagates (c : Config) n v (h : list cell) m
    nm pre f fv rest h' oc h1 fn msg :
  calls c n v h (S m) (VStruct nm (pre ++ (f, fv) :: rest)) h' →
  is_time (VStruct nm (pre ++ (f, fv) :: rest)) = false →
  CanInterface f = true →
  Tag_Get (sfTag f) tagCcopy ≠ "" →
  lookup_fn c (Tag_Get (sfTag f) tagCcopy) = Some fn →
  copyStruct_loop c (copy m c)
    (TStruct nm ((pre ++ (f, fv) :: rest).*1)) pre 0
    (Zero (TStruct nm ((pre ++ (f, fv) :: rest).*1))) h'
    = Return (oc, None) h1 →
  fn fv h1 = TPanic msg →
  Copy n c (Some v) h = Panicked msg.
Proof.
  intros Hcalls Ht Hexp Htag Hfn Hpre Hfv.
  assert (Hp : copy n c v h = Panicked msg).
  { eapply calls_panic; [done|]. rewrite copy_struct by done.
    rewrite (copyStruct_loop_app _ _ _ _ _ _ _ _ _ _ Hpre). simpl.
    rewrite Hexp. apply String.eqb_neq in Htag. rewrite Htag. simpl.
    rewrite Hfn. unfold bind, Call. by rewrite Hfv. }
  unfold Copy, ValueOf, bind. by rewrite Hp.
Qed.

Lemma function_panic_propagates_witness :
  Copy 3 Ex8.registry (Some Ex6.ptr) Ex6.mem = Panicked "refused".
Proof.
  eapply (function_panic_propagates Ex8.registry 3 Ex6.ptr Ex6.mem 1
            (mkName "ccopy" "T") [(Ex.field "A" "" [] Ex.int, Ex.Int 2)]
            (Ex.field "Name" "" ["anonymiseName"] Ex.str)
            (Ex.Str "Secret name") []).
  - apply calls_pointer with (x := Ex.T_example); [reflexivity..|].
    apply calls_here.
  - reflexivity.
  - reflexivity.
  - done.
  - reflexivity.
  - vm_compute. reflexivity.
  - reflexivity.
Defined.

(** ** Maps *)

Section maps.

Context (rec : value → M (value * error)).
Hypothesis rec_framed : framed rec.



End maps.




(** ** The package's test *)

(** X11.  What the package's test checks on one value holds for every
    value of its type [T] with a nil [D]: the copy has the name
    "not important" whatever the name was, the same [C], and as
    [Data.Data] what [AnonymiseData] returns for the original's, which,
    when that is not empty, is its first element in the backing array of
    the original: the result of a registered function is stored as it
    comes, it is not copied, and nothing is allocated. *)
Theorem TestAnonymise_any (fuel : nat) (data : option slicehdr)
    (name : string) (n : Z) (h : list cell) :
  Copy (S (S fuel)) Test.c (Some (Test.T data name n None)) h =
    Return (Some (Test.T (Test.anonymised data) "not important" n None),
            None) h.
Proof.
  transitivity
    (Return (A := option value * error)
       (Some (Test.T (Test.anonymised data) "not important" n None), None)
       ((h ++ []) ++ [])); [|by rewrite !app_nil_r].
  destruct data as [[d o [|l] cp]|]; destruct n; reflexivity.
Qed.

(** X12.  A registered function gets a field that is nil as any other,
    and the memory it allocates is kept: with the function of the
    package's test, which returns a pointer to a new variable that holds 1,
    the copy of a [T] has in [A] a pointer to a new cell that holds 1,
    whether the [A] of the original is nil or points somewhere; what it
    points to is not looked at. *)
Theorem TestAnonymiseNilField_any (fuel : nat) (a : option nat)
    (h : list cell) :
  Copy (S fuel) TestNilField.c (Some (TestNilField.T a)) h =
    Return (Some (TestNilField.T (Some (length h))), None)
           (h ++ [CVal (Ex.Int 1)]).
Proof. reflexivity. Qed.

(** ** Where an error comes from *)

Lemma child_allocated (h h1 : heap) v u :
  h `prefix_of` h1 → allocated h v = true → child h1 v u → child h v u.
Proof.
  intros Hpre Hal [Ht Hin]. split; [done|].
  destruct Hin as [nm e a x Ha|nm x|nm fs f fv Hin Hexp Htag
                  |nm e s es i x Hes Hi Hx|nm e es x Hin
                  |nm kt et a kvs key val Ha Hin
                  |nm kt et a kvs key val Ha Hin];
    simpl in Hal; try apply bool_decide_eq_true in Hal;
    eauto using inside;
    [eapply inside_pointer|eapply inside_slice
    |eapply inside_map_key|eapply inside_map_value]; eauto;
    by rewrite (prefix_lookup_lt _ _ _ Hal Hpre).
Qed.

Lemma allocated_prefix (h h1 : heap) v :
  h `prefix_of` h1 → allocated h v = true → allocated h1 v = true.
Proof.
  intros Hpre%prefix_length Hal.
  destruct v as [| | | | |? ? [a|]|? ? [s|]| |? ? ? [a|]| |]; try done;
    simpl in *; apply bool_decide_eq_true; apply bool_decide_eq_true in Hal;
    lia.
Qed.

Lemma rtc_child_sound (h h1 : heap) v u :
  h `prefix_of` h1 → sound h v → rtc (child h1) v u → rtc (child h) v u.
Proof.
  intros Hpre Hs Hrtc. revert Hs.
  induction Hrtc as [v|v w u Hvw Hwu IH]; intros Hs; [constructor|].
  assert (Hc : child h v w).
  { eapply child_allocated; [done| |done]. by apply Hs. }
  eapply rtc_l; [done|]. apply IH. intros z Hz. apply Hs. by eapply rtc_l.
Qed.

Lemma sound_child (h h1 : heap) v u :
  h `prefix_of` h1 → sound h v → child h v u → sound h1 u.
Proof.
  intros Hpre Hs Hc w Hw.
  assert (Hsu : sound h u).
  { intros z Hz. apply Hs. by eapply rtc_l. }
  destruct (Hsu w (rtc_child_sound _ _ _ _ Hpre Hsu Hw)) as [Hv Hal].
  split; [done|]. by eapply allocated_prefix.
Qed.

Section origin.

Context (c : Config) (rec : value → M (value * error)).
Hypothesis rec_framed : framed rec.

Lemma copyStruct_loop_origin ot fs (h0 : heap) : ∀ i oc h res err h',
  h0 `prefix_of` h →
  copyStruct_loop c rec ot fs i oc h = Return (res, Some err) h' →
  ∃ f fv, (f, fv) ∈ fs ∧ CanInterface f = true ∧
    ((Tag_Get (sfTag f) tagCcopy = "" ∧ failed_in rec h0 fv err) ∨
     (Tag_Get (sfTag f) tagCcopy ≠ "" ∧
      lookup_fn c (Tag_Get (sfTag f) tagCcopy) = None ∧
      err = "missing copy customiser for: " +:+ Tag_Get (sfTag f) tagCcopy)).
Proof.
  induction fs as [|[f fv] rest IH]; intros i oc h res err h' Hpre Hrun;
    simpl in Hrun; [done|].
  assert (Hrest : ∀ i oc h1,
            h0 `prefix_of` h1 →
            copyStruct_loop c rec ot rest i oc h1 = Return (res, Some err) h' →
            ∃ f0 fv0, (f0, fv0) ∈ (f, fv) :: rest ∧ CanInterface f0 = true ∧
              ((Tag_Get (sfTag f0) tagCcopy = "" ∧ failed_in rec h0 fv0 err) ∨
               (Tag_Get (sfTag f0) tagCcopy ≠ "" ∧
                lookup_fn c (Tag_Get (sfTag f0) tagCcopy) = None ∧
                err = "missing copy customiser for: "
                      +:+ Tag_Get (sfTag f0) tagCcopy))).
  { intros i1 oc1 h1 Hpre1 Hrun1.
    destruct (IH _ _ _ _ _ _ Hpre1 Hrun1) as (f0 & fv0 & Hin & Hrest).
    exists f0, fv0. split; [by right|done]. }
  destruct (CanInterface f) eqn:Hexp; simpl in Hrun; [|by eapply Hrest].
  destruct (String.eqb _ "") eqn:Htag.
  - apply String.eqb_eq in Htag.
    apply bind_inv in Hrun as ([v [e|]] & h1 & Hv & Hrun).
    + injection Hrun as _ <- _. exists f, fv. split; [by left|].
      split; [done|]. left. split; [done|]. by eexists _, _, _.
    + apply rec_framed in Hv.
      assert (h0 `prefix_of` h1) by (by etrans).
      destruct (IsZero v); simpl in Hrun; [by eapply Hrest|].
      apply bind_inv in Hrun as (w & h2 & Hw & Hrun).
      apply assignTo_inv in Hw as [_ ->]. by eapply Hrest.
  - apply String.eqb_neq in Htag.
    destruct (lookup_fn _ _) as [fn|] eqn:Hfn.
    + apply bind_inv in Hrun as (v & h1 & Hv & Hrun).
      apply Call_framed in Hv.
      assert (h0 `prefix_of` h1) by (by etrans).
      destruct (IsZero v); simpl in Hrun; [by eapply Hrest|].
      apply bind_inv in Hrun as (w & h2 & Hw & Hrun).
      apply assignTo_inv in Hw as [_ ->]. by eapply Hrest.
    + injection Hrun as _ <- _. exists f, fv. split; [by left|].
      split; [done|]. by right.
Qed.

Lemma copySlice_loop_origin nm e s es (h0 : heap) :
  h0 !! Data s = Some (CArr es) →
  ∀ todo i oc h res err h',
    h0 `prefix_of` h → length h0 ≤ Data oc →
    copySlice_loop rec nm e s i todo oc h = Return (res, Some err) h' →
    ∃ j x, i ≤ j < i + todo ∧ es !! (Off s + j) = Some x ∧
           failed_in rec h0 x err.
Proof.
  intros Hes. induction todo as [|todo IH];
    intros i oc h res err h' Hpre Hd Hrun; simpl in Hrun; [done|].
  apply bind_inv in Hrun as (y & h1 & Hy & Hrun).
  pose proof (Index_frame _ _ _ _ _ Hy) as ->.
  unfold Index, load, bind in Hy.
  rewrite (prefix_lookup_Some _ _ _ _ Hes Hpre) in Hy.
  destruct (es !! (Off s + i)) as [y'|] eqn:Hy'; [|done].
  injection Hy as <-.
  apply bind_inv in Hrun as ([v [e'|]] & h2 & Hv & Hrun).
  - injection Hrun as _ <- _. exists i, y'. split; [lia|]. split; [done|].
    by eexists _, _, _.
  - pose proof (rec_framed _ _ _ _ Hv) as Hfr.
    apply bind_inv in Hrun as (oc' & h3 & Happ & Hrun).
    eapply (Append_frame _ _ _ _ _ _ h0) in Happ as [Hpre' Hd'];
      [|by etrans|done].
    destruct (IH _ _ _ _ _ _ Hpre' Hd' Hrun) as (j & x & Hj & Hx & Hf).
    exists j, x. split; [lia|done].
Qed.

Lemma copyArray_loop_origin ot nm e a (h0 : heap) : ∀ es slice h res err h',
  h0 `prefix_of` h → length h0 ≤ Data slice →
  copyArray_loop rec ot nm e a es slice h = Return (res, Some err) h' →
  ∃ x, x ∈ es ∧ failed_in rec h0 x err.
Proof.
  induction es as [|y es IH]; intros slice h res err h' Hpre Hd Hrun;
    simpl in Hrun.
  - unfold load, bind in Hrun. by destruct (h !! a) as [[| es' |]|].
  - apply bind_inv in Hrun as ([v [e'|]] & h2 & Hv & Hrun).
    + injection Hrun as _ <- _. exists y. split; [by left|].
      by eexists _, _, _.
    + pose proof (rec_framed _ _ _ _ Hv) as Hfr.
      apply bind_inv in Hrun as (oc' & h3 & Happ & Hrun).
      eapply (Append_frame _ _ _ _ _ _ h0) in Happ as [Hpre' Hd'];
        [|by etrans|done].
      destruct (IH _ _ _ _ _ Hpre' Hd' Hrun) as (x & Hx & Hf).
      exists x. split; [by right|done].
Qed.

Lemma copyMap_loop_origin nm kt et oc (h0 : heap) : ∀ kvs h res err h',
  h0 `prefix_of` h → length h0 ≤ oc →
  copyMap_loop rec nm kt et oc kvs h = Return (res, Some err) h' →
  ∃ key val, (key, val) ∈ kvs ∧
             (failed_in rec h0 key err ∨ failed_in rec h0 val err).
Proof.
  induction kvs as [|[key val] kvs IH]; intros h res err h' Hpre Hd Hrun;
    simpl in Hrun; [done|].
  apply bind_inv in Hrun as ([k [e'|]] & h1 & Hk & Hrun).
  { injection Hrun as _ <- _. exists key, val. split; [by left|].
    left. by eexists _, _, _. }
  pose proof (rec_framed _ _ _ _ Hk) as Hfr1.
  apply bind_inv in Hrun as ([v [e'|]] & h2 & Hv & Hrun).
  { injection Hrun as _ <- _. exists key, val. split; [by left|].
    right. exists h1, v, h2. split; [by etrans|done]. }
  pose proof (rec_framed _ _ _ _ Hv) as Hfr2.
  apply bind_inv in Hrun as (u & h3 & Hset & Hrun).
  eapply (SetMapIndex_frame _ _ _ _ _ _ _ _ h0) in Hset;
    [|by etrans; [|etrans]|done].
  destruct (IH _ _ _ _ Hset Hd Hrun) as (key' & val' & Hin & Hf).
  exists key', val'. split; [by right|done].
Qed.

End origin.

(** An error of the copy of a valid [v] is one of a struct field of [v]
    without its function, or the error of what lies one level under [v],
    copied with one level less to go. *)
Lemma copy_error_origin (fuel : nat) (c : Config) v (h : heap) r err h' :
  IsValid v = true → allocated h v = true →
  copy (S fuel) c v h = Return (r, Some err) h' →
  missing_function c v err ∨
  ∃ u, child h v u ∧ failed_in (copy fuel c) h u err.
Proof.
  intros Hvalid Hal Hrun. pose proof (copy_framed fuel c) as Hfr.
  rewrite copy_S in Hrun. rewrite Hvalid in Hrun. cbn [negb] in Hrun.
  destruct (is_time v) eqn:Ht; [done|].
  destruct v as [|nm b bits| | | |nm e [a|]|nm e [s|]|nm e es
                |nm kt et [a|]|nm [x|]|nm fs];
    cbn [Kind] in Hrun; try done;
    simpl in Hal; try apply bool_decide_eq_true in Hal.
  - by destruct b.
  - right. unfold copyPointer, new, load, bind in Hrun.
    rewrite lookup_app_l in Hrun by done.
    destruct (h !! a) as [[x| |]|] eqn:Ha; try done.
    destruct (copy fuel c x _) as [[v [e'|]] h1| | |] eqn:Hv; try done.
    + injection Hrun as _ <- _. exists x. split; [split; [done|by constructor]|].
      eexists _, _, _. split; [|done]. by apply prefix_app_r.
    + destruct (IsZero v); simpl in Hrun; [done|].
      destruct (assignTo _ _ _ _) as [w h2| | |]; try done.
      unfold store, ret in Hrun. by destruct (decide _).
  - right. unfold copySlice, MakeSlice, new, bind, ret in Hrun.
    assert (Hes : ∃ es, h !! Data s = Some (CArr es)).
    { destruct (Len s) as [|n]; [done|]. simpl in Hrun.
      apply bind_inv in Hrun as (x & h1 & Hx & _).
      unfold Index, load, bind in Hx. rewrite lookup_app_l in Hx by done.
      destruct (h !! Data s) as [[|es|]|]; try done. by eexists. }
    destruct Hes as [es Hes].
    eapply (copySlice_loop_origin _ Hfr nm e s es h Hes) in Hrun
      as (j & x & Hj & Hx & Hf); [|by apply prefix_app_r|done].
    exists x. split; [|done]. split; [done|].
    eapply inside_slice; [done| |done]. lia.
  - right. unfold copyArray, new, bind in Hrun.
    eapply (copyArray_loop_origin _ Hfr) in Hrun as (x & Hx & Hf);
      [|by apply prefix_app_r|done].
    exists x. split; [|done]. split; [done|]. by constructor.
  - right. unfold copyMap, new, load, bind in Hrun.
    rewrite lookup_app_l in Hrun by done.
    destruct (h !! a) as [[| |kvs]|] eqn:Ha; try done.
    eapply (copyMap_loop_origin _ Hfr) in Hrun as (key & val & Hin & Hf);
      [|by apply prefix_app_r|done].
    destruct Hf as [Hf|Hf]; [exists key|exists val]; (split; [|done]);
      (split; [done|]);
      [by eapply inside_map_key|by eapply inside_map_value].
  - right. unfold copyInterface in Hrun.
    apply bind_inv in Hrun as ([v [e'|]] & h1 & Hv & Hrun);
      [|by apply bind_inv in Hrun as (w & h2 & Hw & Hrun)].
    injection Hrun as _ <- _. exists x. split; [split; [done|constructor]|].
    by eexists _, _, _.
  - eapply (copyStruct_loop_origin c _ Hfr _ _ h) in Hrun
      as (f & fv & Hin & Hexp & [[Htag Hf]|(Htag & Hfn & ->)]); [| |done].
    + right. exists fv. split; [|done]. split; [done|]. by econstructor.
    + left. by exists nm, fs, f, fv.
Qed.

(** An error of the copy of a sound value comes from a struct under it
    that has a field without its function. *)
Lemma copy_error_missing (c : Config) : ∀ fuel v (h : heap) r err h',
  sound h v →
  copy fuel c v h = Return (r, Some err) h' →
  ∃ u, rtc (child h) v u ∧ missing_function c u err.
Proof.
  induction fuel as [|fuel IH]; intros v h r err h' Hs Hrun; [done|].
  destruct (Hs v (rtc_refl _ _)) as [Hvalid Hal].
  destruct (copy_error_origin _ _ _ _ _ _ _ Hvalid Hal Hrun)
    as [Hm|(u & Hc & h1 & r1 & h2 & Hpre & Hu)].
  - by exists v.
  - pose proof (sound_child _ _ _ _ Hpre Hs Hc) as Hsu.
    destruct (IH _ _ _ _ _ Hsu Hu) as (w & Hw & Hm).
    exists w. split; [|done]. eapply rtc_l; [done|].
    eapply rtc_child_sound; [done| |done].
    intros z Hz. apply Hs. by eapply rtc_l.
Qed.

(** X13.  [Copy] of an object returns an error only for a function that
    is missing.  For a value that is sound, as the values of a Go program
    are (whatever the copy can get to is a valid Value that refers to
    allocated memory), an error of [Copy] is the error
    "missing copy customiser for: " with the tag of an exported field, of
    a struct that [v] is or that the copy gets to from [v], for which the
    registry has no function.  With a function for every such tag, [Copy]
    returns no error. *)
Theorem Copy_error_is_missing_function (c : Config) (fuel : nat) (v : value)
    (h : list cell) r err h' :
  sound h v →
  Copy fuel c (Some v) h = Return (r, Some err) h' →
  ∃ u, rtc (child h) v u ∧ missing_function c u err.
Proof.
  intros Hs HC. unfold Copy, ValueOf in HC.
  apply bind_inv in HC as ([oc [e'|]] & h1 & Hc & HC).
  - injection HC as _ <- _. by eapply copy_error_missing.
  - by apply bind_inv in HC as (i & h2 & Hi & HC).
Qed.

Lemma Copy_error_is_missing_function_witness :
  ∃ u, rtc (child []) Ex.T_two_tags u ∧
       missing_function ∅ u "missing copy customiser for: A".
Proof.
  apply (Copy_error_is_missing_function ∅ 1 Ex.T_two_tags [] None
           "missing copy customiser for: A" []); [|reflexivity].
  intros u Hu. inversion Hu as [|? y ? [Ht Hin] Hrest]; subst; [done|].
  exfalso. inversion Hin as [| |? ? f fv Hf Hexp Htag| | | |]; subst.
  apply elem_of_cons in Hf as [Hf|Hf]; [by injection Hf as -> ->|].
  apply elem_of_cons in Hf as [Hf|Hf]; [by injection Hf as -> ->|].
  by apply elem_of_nil in Hf.
Defined.
